(** * furni-shop seed pipeline: image acquisition and listing synthesis

    A shallow embedding of the two seed scripts of the repository,

    - [seed/scripts/fetch-images.ts]      (module [FetchImages]) and
    - [seed/scripts/generate-listings.ts] (module [GenerateListings]),

    and of the category breakdown that [finalize] of fetch-images.ts stores
    (module [CategoryBreakdown]), followed by the vocabulary of the
    properties ([FetchImagesSpec], [GenerateListingsSpec], [PipelineSpec])
    and the properties proved ([FetchImagesProps], [GenerateListingsProps],
    [CategoryBreakdownProps], [PipelineProps]).

    Conventions of the embedding.
    - JavaScript numbers that hold integers are [Z]; strings are [string].
    - The outside world of the acquisition script (the two HTTP providers,
      the clock, the disk) is explicit: a [World] answers the n-th HTTP
      request, sleeps and requests are appended to a trace, files live in a
      finite map from paths to contents.
    - Randomness of the synthesis script is a tape of naturals; every
      [faker] primitive decodes draws from the tape into its documented
      range, so a statement quantified over all tapes covers every random
      outcome.
    - The one floating-point computation, the price of a listing, is
      computed with the kernel's binary64 numbers, as the script does.
    - [while] loops carry fuel; running out of fuel is a distinguished
      outcome, and the fuel handed to each loop is shown to be enough. *)

From Stdlib Require Import ZArith QArith Qround String Ascii List Lia Bool Permutation.
From Stdlib Require Import PrimFloat Uint63.
From stdpp Require Import base option list strings gmap.

#[local] Open Scope Z_scope.

(** ** JavaScript helpers shared by the two scripts *)

(** [xs.length] as a JavaScript number. *)
Definition len {A} (xs : list A) : Z := Z.of_nat (length xs).

(** Truthiness of a string: only the empty string is falsy. *)
Definition truthy (s : string) : bool := negb (String.eqb s EmptyString).

(** [Math.ceil(a / b)] for integers [a >= 0], [b > 0]. *)
Definition ceilDiv (a b : Z) : Z := (a + b - 1) / b.

(** The distinct strings of a list, each at its first occurrence. *)
Fixpoint firstOccurrences (xs : list string) : list string :=
  match xs with
  | [] => []
  | x :: rest =>
    x :: List.filter (fun y => negb (String.eqb y x)) (firstOccurrences rest)
  end.

(** * fetch-images.ts *)
Module FetchImages.

Inductive Source := unsplash | pexels.

Record ImageMetadata := mkImage {
  img_id : string;
  img_url : string;
  img_thumbnailUrl : string;
  img_category : string;
  img_tags : list string;
  img_width : Z;
  img_height : Z;
  img_color : string;
  img_source : Source;
  img_photographer : string;
  img_photographerUrl : string;
  img_license : string
}.

Record ProgressState := mkProgress {
  completed : Z;
  lastCategory : string;
  images : list ImageMetadata
}.

Record CategoryConfig := mkCategory {
  category : string;
  queries : list string;
  target : Z
}.

Definition FURNITURE_CATEGORIES : list CategoryConfig :=
  [ mkCategory "sofa" ["sofa"; "couch"; "sectional"; "loveseat"] 150;
    mkCategory "dining-table" ["dining table"; "kitchen table"; "dining set"] 100;
    mkCategory "bed" ["bed"; "bed frame"; "bedroom furniture"] 100;
    mkCategory "wardrobe" ["wardrobe"; "closet"; "armoire"] 80;
    mkCategory "desk" ["desk"; "office desk"; "study table"] 80;
    mkCategory "outdoor" ["outdoor furniture"; "patio set"; "garden furniture"] 70;
    mkCategory "storage" ["bookshelf"; "cabinet"; "storage unit"] 70;
    mkCategory "chair" ["chair"; "accent chair"; "armchair"] 100;
    mkCategory "coffee-table" ["coffee table"; "side table"; "end table"] 80;
    mkCategory "entertainment" ["tv stand"; "media console"; "entertainment center"] 70 ]%string.

Definition PROGRESS_FILE : string := "seed/images/progress.json".
Definition OUTPUT_FILE : string := "seed/images/unsplash_urls.json".
Definition PEXELS_OUTPUT : string := "seed/images/pexels_urls.json".

Definition RATE_LIMIT_DELAY : Z := 1100.
Definition MAX_RETRIES : Z := 3.

(** *** The outside world *)

(** One photo of a provider's answer, with the fields the script reads
    ([urls.regular]/[src.large], [urls.thumb]/[src.small], [tags[].title],
    [color]/[avg_color], [user.name]/[photographer], ...).  Pexels' numeric
    id is held as the string [String(img.id)] produces. *)
Record Photo := mkPhoto {
  ph_id : string;
  ph_full : string;
  ph_thumb : string;
  ph_tags : list string;
  ph_width : Z;
  ph_height : Z;
  ph_color : string;
  ph_author : string;
  ph_authorUrl : string
}.

(** What [axios.get] does: resolve with the photos, or reject with an error
    whose [response.status] may be absent (a network failure, or an answer
    the mapping code cannot read). *)
Inductive Response :=
| Ok200 (photos : list Photo)
| Failed (status : option Z).

(** The n-th request of a run gets the n-th answer: any behaviour of the
    providers during one sequential run is such a sequence. *)
Definition World := nat -> Response.

Inductive Event :=
| EvGet (provider : Source) (query : string) (page perPage : Z)
| EvSleep (ms : Z)
| EvLogFetching (category : string) (target : Z)
| EvLogQuery (query : string).

Record CatalogMeta := mkMeta {
  totalImages : Z;
  unsplashCount : Z;
  pexelsCount : Z
}.

(** The object [finalize] serialises.  Of [meta], the counts are modelled;
    the category breakdown, the timestamp and the licence text, which no
    file's [images] depend on, are left out. *)
Record Catalog := mkCatalog {
  meta : CatalogMeta;
  cat_images : list ImageMetadata
}.

Inductive File :=
| ProgressJson (p : ProgressState)
| CatalogJson (c : Catalog).

(** The fetcher object together with the world it has acted on so far. *)
Record State := mkState {
  unsplashKey : string;
  pexelsKey : string;
  progress : ProgressState;
  requests : nat;
  fs : gmap string File;
  trace : list Event
}.

Definition with_progress (p : ProgressState) (st : State) : State :=
  mkState (unsplashKey st) (pexelsKey st) p (requests st) (fs st) (trace st).
Definition with_requests (n : nat) (st : State) : State :=
  mkState (unsplashKey st) (pexelsKey st) (progress st) n (fs st) (trace st).
Definition with_fs (m : gmap string File) (st : State) : State :=
  mkState (unsplashKey st) (pexelsKey st) (progress st) (requests st) m (trace st).
Definition with_trace (t : list Event) (st : State) : State :=
  mkState (unsplashKey st) (pexelsKey st) (progress st) (requests st) (fs st) t.

(** *** The monad of the script: state, and fuel that may run out *)

Definition M (A : Type) : Type := State -> option (A * State).

Definition ret {A} (a : A) : M A := fun st => Some (a, st).
Definition bind {A B} (m : M A) (f : A -> M B) : M B :=
  fun st => match m st with
            | Some (a, st') => f a st'
            | None => None
            end.
Definition outOfFuel {A} : M A := fun _ => None.
Definition gets {A} (f : State -> A) : M A := fun st => Some (f st, st).
Definition modify (f : State -> State) : M unit := fun st => Some (tt, f st).

#[local] Notation "x <- m ;; k" := (bind m (fun x => k))
  (at level 100, m at next level, right associativity).
#[local] Notation "m ;;; k" := (bind m (fun _ => k))
  (at level 100, right associativity).

Definition emit (e : Event) : M unit :=
  modify (fun st => with_trace (trace st ++ [e]) st).

Definition sleep (ms : Z) : M unit := emit (EvSleep ms).

Definition writeFile (path : string) (f : File) : M unit :=
  modify (fun st => with_fs (<[path := f]> (fs st)) st).

Definition unlink (path : string) : M unit :=
  modify (fun st => with_fs (delete path (fs st)) st).

(** [axios.get]: the request is recorded, the world answers. *)
Definition httpGet (w : World) (p : Source) (query : string) (page perPage : Z)
  : M Response :=
  fun st =>
    Some (w (requests st),
          with_requests (S (requests st))
            (with_trace (trace st ++ [EvGet p query page perPage]) st)).

(** *** loadProgress / saveProgress *)

Definition initialProgress : ProgressState := mkProgress 0 "" [].

(** A checkpoint that cannot be read or parsed leaves the state as the
    constructor set it (the [catch] branch only creates the directory). *)
Definition loadProgress : M unit :=
  modify (fun st =>
    match fs st !! PROGRESS_FILE with
    | Some (ProgressJson p) => with_progress p st
    | _ => st
    end).

Definition saveProgress : M unit :=
  p <- gets progress ;; writeFile PROGRESS_FILE (ProgressJson p).

(** *** fetchUnsplash / fetchPexels *)

Definition unsplashImage (query : string) (ph : Photo) : ImageMetadata :=
  mkImage (ph_id ph) (ph_full ph) (ph_thumb ph) query (ph_tags ph)
          (ph_width ph) (ph_height ph) (ph_color ph) unsplash
          (ph_author ph) (ph_authorUrl ph)
          "Unsplash License (free to use, attribution appreciated)".

Definition pexelsImage (query : string) (ph : Photo) : ImageMetadata :=
  mkImage (ph_id ph) (ph_full ph) (ph_thumb ph) query [query; "furniture"%string]
          (ph_width ph) (ph_height ph) (ph_color ph) pexels
          (ph_author ph) (ph_authorUrl ph)
          "Pexels License (free to use, attribution appreciated)".

(** [error.response?.status === 429] *)
Definition is429 (status : option Z) : bool :=
  match status with
  | Some s => s =? 429
  | None => false
  end.

(** The [while (retries < MAX_RETRIES)] loop of [fetchUnsplash]. *)
Fixpoint fetchUnsplash_loop (w : World) (fuel : nat) (query : string)
    (page perPage retries : Z) : M (list ImageMetadata) :=
  match fuel with
  | O => outOfFuel
  | S fuel =>
    if retries <? MAX_RETRIES then
      resp <- httpGet w unsplash query page perPage ;;
      match resp with
      | Ok200 photos => ret (map (unsplashImage query) photos)
      | Failed status =>
        let retries := retries + 1 in
        if is429 status then
          sleep 60000 ;;;
          sleep (2000 * retries) ;;;
          fetchUnsplash_loop w fuel query page perPage retries
        else if retries >=? MAX_RETRIES then ret []
        else
          sleep (2000 * retries) ;;;
          fetchUnsplash_loop w fuel query page perPage retries
      end
    else ret []
  end.

(** Every pass through the loop body that does not return raises [retries]
    by one, so [MAX_RETRIES] passes and one last test of the condition are
    all the loop can do. *)
Definition retryFuel : nat := S (Z.to_nat MAX_RETRIES).

Definition fetchUnsplash (w : World) (query : string) (page perPage : Z)
  : M (list ImageMetadata) :=
  key <- gets unsplashKey ;;
  if negb (truthy key) then ret []
  else fetchUnsplash_loop w retryFuel query page perPage 0.

(** The [while (retries < MAX_RETRIES)] loop of [fetchPexels]. *)
Fixpoint fetchPexels_loop (w : World) (fuel : nat) (query : string)
    (page perPage retries : Z) : M (list ImageMetadata) :=
  match fuel with
  | O => outOfFuel
  | S fuel =>
    if retries <? MAX_RETRIES then
      resp <- httpGet w pexels query page perPage ;;
      match resp with
      | Ok200 photos => ret (map (pexelsImage query) photos)
      | Failed status =>
        let retries := retries + 1 in
        if is429 status then
          sleep 60000 ;;;
          sleep (2000 * retries) ;;;
          fetchPexels_loop w fuel query page perPage retries
        else if retries >=? MAX_RETRIES then ret []
        else
          sleep (2000 * retries) ;;;
          fetchPexels_loop w fuel query page perPage retries
      end
    else ret []
  end.

Definition fetchPexels (w : World) (query : string) (page perPage : Z)
  : M (list ImageMetadata) :=
  key <- gets pexelsKey ;;
  if negb (truthy key) then ret []
  else fetchPexels_loop w retryFuel query page perPage 0.

(** *** fetchAll *)

(** [this.progress.images.push(...imgs); this.progress.completed += imgs.length] *)
Definition pushImages (imgs : list ImageMetadata) : M unit :=
  modify (fun st =>
    let p := progress st in
    with_progress (mkProgress (completed p + len imgs) (lastCategory p)
                              (images p ++ imgs)) st).

(** [img.category = category] *)
Definition overrideCategory (category : string) (img : ImageMetadata)
  : ImageMetadata :=
  mkImage (img_id img) (img_url img) (img_thumbnailUrl img) category
          (img_tags img) (img_width img) (img_height img) (img_color img)
          (img_source img) (img_photographer img) (img_photographerUrl img)
          (img_license img).

(** The loop-local counters [categoryCount] and [fetchedForQuery]. *)
Record Counters := mkCounters {
  categoryCount : Z;
  fetchedForQuery : Z
}.

Definition addFetched (n : Z) (c : Counters) : Counters :=
  mkCounters (categoryCount c + n) (fetchedForQuery c + n).

(** First half of the page loop's body: "Try Unsplash first". *)
Definition unsplashStep (w : World) (category query : string) (page : Z)
    (c : Counters) : M Counters :=
  key <- gets unsplashKey ;;
  if truthy key then
    unsplashImages <- fetchUnsplash w query page 30 ;;
    if len unsplashImages >? 0 then
      pushImages (map (overrideCategory category) unsplashImages) ;;;
      saveProgress ;;;
      sleep RATE_LIMIT_DELAY ;;;
      ret (addFetched (len unsplashImages) c)
    else ret c
  else ret c.

(** Second half of the body: "Fallback to Pexels if needed". *)
Definition pexelsStep (w : World) (category query : string) (page : Z)
    (perQuery targetTotal : Z) (c : Counters) : M Counters :=
  key <- gets pexelsKey ;;
  done <- gets (fun st => completed (progress st)) ;;
  if (fetchedForQuery c <? perQuery) && truthy key && (done <? targetTotal) then
    pexelsImages <- fetchPexels w query page 30 ;;
    if len pexelsImages >? 0 then
      pushImages (map (overrideCategory category) pexelsImages) ;;;
      saveProgress ;;;
      sleep RATE_LIMIT_DELAY ;;;
      ret (addFetched (len pexelsImages) c)
    else ret c
  else ret c.

(** One pass through the body of the page loop, up to [page++]. *)
Definition pageBody (w : World) (category query : string) (page : Z)
    (perQuery targetTotal : Z) (c : Counters) : M Counters :=
  c1 <- unsplashStep w category query page c ;;
  pexelsStep w category query page perQuery targetTotal c1.

(** [while (fetchedForQuery < perQuery && completed < targetTotal) { ...;
    page++; if (page > 10) break; }]; the result is [categoryCount]. *)
Fixpoint pageLoop (w : World) (fuel : nat) (category query : string)
    (perQuery targetTotal : Z) (page : Z) (c : Counters) : M Z :=
  match fuel with
  | O => outOfFuel
  | S fuel =>
    done <- gets (fun st => completed (progress st)) ;;
    if (fetchedForQuery c <? perQuery) && (done <? targetTotal) then
      c' <- pageBody w category query page perQuery targetTotal c ;;
      let page := page + 1 in
      if page >? 10 then ret (categoryCount c')
      else pageLoop w fuel category query perQuery targetTotal page c'
    else ret (categoryCount c)
  end.

(** The page counter starts at 1 and the loop breaks once it exceeds 10. *)
Definition pageFuel : nat := 10.

(** [for (const query of queries) { if (categoryCount >= target) break; ... }] *)
Fixpoint queryLoop (w : World) (category : string) (target perQuery targetTotal : Z)
    (qs : list string) (categoryCount : Z) : M Z :=
  match qs with
  | [] => ret categoryCount
  | query :: rest =>
    if categoryCount >=? target then ret categoryCount
    else
      emit (EvLogQuery query) ;;;
      cc <- pageLoop w pageFuel category query perQuery targetTotal 1
              (mkCounters categoryCount 0) ;;
      queryLoop w category target perQuery targetTotal rest cc
  end.

(** [FURNITURE_CATEGORIES.findIndex(c => c.category === name)] *)
Fixpoint findIndexFrom (i : Z) (cs : list CategoryConfig) (name : string) : Z :=
  match cs with
  | [] => -1
  | c :: rest => if String.eqb (category c) name then i
                 else findIndexFrom (i + 1) rest name
  end.

Definition findIndex (name : string) : Z :=
  findIndexFrom 0 FURNITURE_CATEGORIES name.

(** The test guarding [continue] ("Skip if already processed"). *)
Definition skipCategory (last name : string) : bool :=
  truthy last && (findIndex last >? findIndex name).

Definition setLastCategory (name : string) : M unit :=
  modify (fun st =>
    let p := progress st in
    with_progress (mkProgress (completed p) name (images p)) st).

(** [for (const catConfig of FURNITURE_CATEGORIES) { ... }] *)
Fixpoint categoryLoop (w : World) (targetTotal : Z) (cats : list CategoryConfig)
  : M unit :=
  match cats with
  | [] => ret tt
  | catConfig :: rest =>
    last <- gets (fun st => lastCategory (progress st)) ;;
    if skipCategory last (category catConfig) then
      categoryLoop w targetTotal rest
    else
      emit (EvLogFetching (category catConfig) (target catConfig)) ;;;
      let perQuery := ceilDiv (target catConfig) (len (queries catConfig)) in
      _ <- queryLoop w (category catConfig) (target catConfig) perQuery
             targetTotal (queries catConfig) 0 ;;
      setLastCategory (category catConfig) ;;;
      saveProgress ;;;
      done <- gets (fun st => completed (progress st)) ;;
      if done >=? targetTotal then ret tt
      else categoryLoop w targetTotal rest
  end.

(** *** finalize *)

(** [Map.prototype.set] on a map held as its entries in insertion order: an
    existing key keeps its position and takes the new value, a new key goes
    to the end. *)
Fixpoint mapSet {V} (k : string) (v : V) (m : list (string * V))
  : list (string * V) :=
  match m with
  | [] => [(k, v)]
  | (k', v') :: rest =>
    if String.eqb k' k then (k', v) :: rest
    else (k', v') :: mapSet k v rest
  end.

(** [new Map(entries)] *)
Definition newMap {V} (entries : list (string * V)) : list (string * V) :=
  fold_left (fun m e => mapSet (fst e) (snd e) m) entries [].

(** [Array.from(new Map(images.map(img => [img.id, img])).values())] *)
Definition uniqueImages (imgs : list ImageMetadata) : list ImageMetadata :=
  map snd (newMap (map (fun img => (img_id img, img)) imgs)).

Definition isUnsplash (img : ImageMetadata) : bool :=
  match img_source img with unsplash => true | pexels => false end.
Definition isPexels (img : ImageMetadata) : bool :=
  match img_source img with pexels => true | unsplash => false end.

Definition finalize : M unit :=
  all <- gets (fun st => images (progress st)) ;;
  let unique := uniqueImages all in
  let unsplashImages := List.filter isUnsplash unique in
  let pexelsImages := List.filter isPexels unique in
  let output :=
    mkCatalog (mkMeta (len unique) (len unsplashImages) (len pexelsImages))
              unique in
  writeFile OUTPUT_FILE (CatalogJson output) ;;;
  (if len unsplashImages >? 0
   then writeFile OUTPUT_FILE (CatalogJson (mkCatalog (meta output) unsplashImages))
   else ret tt) ;;;
  (if len pexelsImages >? 0
   then writeFile PEXELS_OUTPUT (CatalogJson (mkCatalog (meta output) pexelsImages))
   else ret tt) ;;;
  unlink PROGRESS_FILE.

Definition fetchAll (w : World) (targetTotal : Z) : M unit :=
  loadProgress ;;;
  categoryLoop w targetTotal FURNITURE_CATEGORIES ;;;
  finalize.

(** The fetcher as [new ImageFetcher()] leaves it, on a disk holding [disk]. *)
Definition newFetcher (unsplashKey pexelsKey : string) (disk : gmap string File)
  : State :=
  mkState unsplashKey pexelsKey initialProgress 0 disk [].

End FetchImages.

(** * generate-listings.ts *)
Module GenerateListings.

Record ImageData := mkImageData {
  img_id : string;
  img_url : string;
  img_thumbnailUrl : string;
  img_category : string;
  img_tags : list string;
  img_color : string;
  img_source : string;
  img_photographer : string;
  img_photographerUrl : string
}.

Inductive Condition := new | excellent | good | fair.

(** The string a [Condition] is in the script. *)
Definition conditionName (c : Condition) : string :=
  match c with
  | new => "new"
  | excellent => "excellent"
  | good => "good"
  | fair => "fair"
  end.

(** [Listing['dimensions']]; a field that was never assigned is [None]. *)
Record Dimensions := mkDimensions {
  dim_length : option Z;
  dim_width : option Z;
  dim_height : option Z;
  dim_diameter : option Z;
  dim_unit : string
}.

(** [createdAt] is held as the number of milliseconds it lies before the
    run; its ISO rendering is not modelled. *)
Record Listing := mkListing {
  lst_id : string;
  lst_title : string;
  lst_slug : string;
  lst_description : string;
  lst_price_ngn : Z;
  lst_city : string;
  lst_condition : Condition;
  lst_materials : list string;
  lst_dimensions : Dimensions;
  lst_images : list string;
  lst_category : string;
  lst_tags : list string;
  lst_stock : Z;
  lst_featured : bool;
  lst_createdAt : Z
}.

(** *** The constant tables *)

Definition NIGERIAN_CITIES : list string :=
  [ "Lagos"; "Port Harcourt"; "Abuja"; "Ibadan"; "Kano";
    "Enugu"; "Aba"; "Onitsha"; "Kaduna"; "Warri";
    "Benin City"; "Jos"; "Abeokuta"; "Akure"; "Owerri" ]%string.

Record PriceRange := mkRange { min : Z; max : Z }.

Definition PRICE_RANGES : list (string * PriceRange) :=
  [ ("sofa", mkRange 45000 350000);
    ("dining-table", mkRange 55000 280000);
    ("bed", mkRange 38000 185000);
    ("wardrobe", mkRange 52000 220000);
    ("desk", mkRange 28000 125000);
    ("outdoor", mkRange 65000 250000);
    ("storage", mkRange 22000 95000);
    ("chair", mkRange 15000 85000);
    ("coffee-table", mkRange 18000 78000);
    ("entertainment", mkRange 25000 110000) ]%string.

Definition MATERIALS_BY_CATEGORY : list (string * list string) :=
  [ ("sofa", ["leather"; "fabric"; "velvet"; "suede"; "microfiber"]);
    ("dining-table", ["wood"; "mahogany"; "iroko"; "oak"; "glass"; "marble"]);
    ("bed", ["wood"; "metal"; "upholstered"; "leather"; "velvet"]);
    ("wardrobe", ["wood"; "plywood"; "MDF"; "solid wood"; "laminate"]);
    ("desk", ["wood"; "metal"; "glass"; "engineered wood"]);
    ("outdoor", ["wicker"; "rattan"; "teak"; "aluminum"; "plastic"]);
    ("storage", ["wood"; "metal"; "bamboo"; "MDF"]);
    ("chair", ["wood"; "metal"; "fabric"; "leather"; "plastic"]);
    ("coffee-table", ["wood"; "glass"; "metal"; "marble"; "acrylic"]);
    ("entertainment", ["wood"; "MDF"; "glass"; "metal"]) ]%string.

(** The double-quote character (inches) of the first entertainment template. *)
Definition dquote : string := String (ascii_of_nat 34) EmptyString.

Definition TITLE_TEMPLATES : list (string * list string) :=
  [ ("sofa",
      [ "{adj} {material} {seater}-Seater Sofa";
        "Modern {material} {style} Sofa";
        "{adj} L-Shaped {material} Sectional";
        "Contemporary {material} Loveseat" ]);
    ("dining-table",
      [ "{adj} {material} Dining Table ({seats} Seater)";
        "{material} {style} Dining Set";
        "Executive {material} Dining Table";
        "Round {material} Dining Table" ]);
    ("bed",
      [ "{size} {material} Bed Frame";
        "{adj} {material} Platform Bed";
        "{material} {style} Bed with Storage";
        "Upholstered {size} Bed" ]);
    ("wardrobe",
      [ "{doors}-Door {material} Wardrobe";
        "{adj} Sliding Wardrobe";
        "{material} {style} Armoire";
        "Walk-in Closet System" ]);
    ("desk",
      [ "{adj} {material} Office Desk";
        "Executive {material} Writing Desk";
        "{style} Study Table";
        "Computer Desk with Storage" ]);
    ("outdoor",
      [ "{material} Patio Set ({pieces}-Piece)";
        "{adj} Garden Furniture Set";
        "Outdoor Dining Set";
        "{material} Lounge Chair" ]);
    ("storage",
      [ "{adj} {material} Bookshelf";
        "{shelves}-Tier Display Cabinet";
        "Storage Unit with Drawers";
        "{material} {style} Bookcase" ]);
    ("chair",
      [ "{adj} {material} Accent Chair";
        "{style} Dining Chair (Set of {qty})";
        "Executive Office Chair";
        "{material} Recliner" ]);
    ("coffee-table",
      [ "{adj} {material} Coffee Table";
        "{shape} {material} Side Table";
        "Nesting Tables (Set of {qty})";
        "{material} End Table" ]);
    ("entertainment",
      [ "{adj} TV Stand for {size}" ++ dquote ++ " TVs";
        "{material} Media Console";
        "{style} Entertainment Center";
        "Floating TV Unit" ]) ]%string.

Definition ADJECTIVES : list string :=
  [ "Modern"; "Contemporary"; "Classic"; "Elegant"; "Luxury";
    "Minimalist"; "Rustic"; "Industrial"; "Scandinavian"; "Vintage";
    "Premium"; "Executive"; "Stylish"; "Sleek"; "Sophisticated" ]%string.

(** *** JavaScript objects used as dictionaries *)

(** The names every plain object inherits from [Object.prototype]: reading
    one of them from [{}] yields a function (or the prototype itself), not
    [undefined]. *)
Definition OBJECT_PROTOTYPE_KEYS : list string :=
  [ "constructor"; "__defineGetter__"; "__defineSetter__"; "hasOwnProperty";
    "__lookupGetter__"; "__lookupSetter__"; "isPrototypeOf";
    "propertyIsEnumerable"; "toString"; "valueOf"; "__proto__";
    "toLocaleString" ]%string.

Definition inherited (k : string) : bool :=
  existsb (String.eqb k) OBJECT_PROTOTYPE_KEYS.

(** Own properties, in the order they were created. *)
Definition JsObject (V : Type) : Type := list (string * V).

(** [obj[k]] for a name that is not inherited: the own property, if any. *)
Fixpoint objGet {V} (obj : JsObject V) (k : string) : option V :=
  match obj with
  | [] => None
  | (k', v) :: rest => if String.eqb k' k then Some v else objGet rest k
  end.

(** [obj[k] = v] *)
Fixpoint objSet {V} (k : string) (v : V) (obj : JsObject V) : JsObject V :=
  match obj with
  | [] => [(k, v)]
  | (k', v') :: rest =>
    if String.eqb k' k then (k', v) :: rest
    else (k', v') :: objSet k v rest
  end.

(** [TABLE[k] || fallback] *)
Definition objGetOr {V} (obj : JsObject V) (k : string) (fallback : V) : V :=
  match objGet obj k with
  | Some v => v
  | None => fallback
  end.

Definition digitValue (c : ascii) : option Z :=
  let n := Z.of_N (N_of_ascii c) in
  if (48 <=? n) && (n <=? 57) then Some (n - 48) else None.

Fixpoint parseDecimal (acc : Z) (s : string) : option Z :=
  match s with
  | EmptyString => Some acc
  | String c rest =>
    match digitValue c with
    | Some d => parseDecimal (acc * 10 + d) rest
    | None => None
    end
  end.

(** A property name that is an array index: the canonical decimal spelling
    of an integer in [0, 2^32 - 2]. *)
Definition arrayIndex (k : string) : option Z :=
  match k with
  | EmptyString => None
  | String c rest =>
    if Ascii.eqb c "0" && negb (String.eqb rest EmptyString) then None
    else match parseDecimal 0 k with
         | Some n => if n <=? 4294967294 then Some n else None
         | None => None
         end
  end.

Definition isArrayIndex (k : string) : bool :=
  match arrayIndex k with Some _ => true | None => false end.

Definition indexOf (k : string) : Z :=
  match arrayIndex k with Some n => n | None => 0 end.

Fixpoint insertByIndex {V} (e : string * V) (sorted : list (string * V))
  : list (string * V) :=
  match sorted with
  | [] => [e]
  | e' :: rest =>
    if indexOf (fst e) <=? indexOf (fst e') then e :: sorted
    else e' :: insertByIndex e rest
  end.

Definition sortByIndex {V} (es : list (string * V)) : list (string * V) :=
  fold_right insertByIndex [] es.

(** [Object.entries(obj)]: array-index names first, in ascending numeric
    order, then the other names in creation order. *)
Definition entries {V} (obj : JsObject V) : list (string * V) :=
  sortByIndex (List.filter (fun e => isArrayIndex (fst e)) obj)
  ++ List.filter (fun e => negb (isArrayIndex (fst e))) obj.

(** [[...new Set(xs)]]: the distinct elements, each at its first position. *)
Definition newSet (xs : list string) : list string :=
  fold_left (fun acc x => if existsb (String.eqb x) acc then acc else acc ++ [x])
            xs [].

(** *** Strings *)

Fixpoint isPrefix (p s : string) : bool :=
  match p, s with
  | EmptyString, _ => true
  | String a p', String b s' => Ascii.eqb a b && isPrefix p' s'
  | String _ _, EmptyString => false
  end.

Fixpoint dropChars (n : nat) (s : string) : string :=
  match n, s with
  | O, _ => s
  | S n', String _ s' => dropChars n' s'
  | S _, EmptyString => EmptyString
  end.

(** [s.replace(pat, rep)] for a string pattern: the first occurrence only.
    (No replacement used by the script contains a [$] pattern.) *)
Fixpoint replaceFirst (pat rep s : string) : string :=
  if isPrefix pat s then (rep ++ dropChars (String.length pat) s)%string
  else match s with
       | EmptyString => EmptyString
       | String c s' => String c (replaceFirst pat rep s')
       end.

Definition lowerChar (c : ascii) : ascii :=
  let n := nat_of_ascii c in
  if (65 <=? n)%nat && (n <=? 90)%nat then ascii_of_nat (n + 32) else c.

(** [s.toLowerCase()] on the ASCII text the script builds. *)
Fixpoint toLowerCase (s : string) : string :=
  match s with
  | EmptyString => EmptyString
  | String c s' => String (lowerChar c) (toLowerCase s')
  end.

(** A character matched by [[a-z0-9]]. *)
Definition isSlugChar (c : ascii) : bool :=
  let n := nat_of_ascii c in
  ((97 <=? n)%nat && (n <=? 122)%nat) || ((48 <=? n)%nat && (n <=? 57)%nat).

(** [s.replace(/[^a-z0-9]+/g, '-')]; [inRun] tells that the previous
    character already belonged to the run being replaced. *)
Fixpoint dashRuns (inRun : bool) (s : string) : string :=
  match s with
  | EmptyString => EmptyString
  | String c s' =>
    if isSlugChar c then String c (dashRuns false s')
    else if inRun then dashRuns true s'
    else String "-" (dashRuns true s')
  end.

Fixpoint dropLastDash (s : string) : string :=
  match s with
  | EmptyString => EmptyString
  | String c EmptyString => if Ascii.eqb c "-" then EmptyString else s
  | String c s' => String c (dropLastDash s')
  end.

(** [s.replace(/^-|-$/g, '')] *)
Definition trimDashes (s : string) : string :=
  dropLastDash
    match s with
    | String c s' => if Ascii.eqb c "-" then s' else s
    | EmptyString => EmptyString
    end.

(** [parts.join(' ')] *)
Fixpoint joinSpace (parts : list string) : string :=
  match parts with
  | [] => EmptyString
  | [p] => p
  | p :: rest => (p ++ " " ++ joinSpace rest)%string
  end.

(** *** Randomness and exceptions *)

(** Every random choice of a run, in the order the choices are made. *)
Definition Tape := nat -> nat.

Inductive Outcome (A : Type) :=
| Return (a : A)
| Throw (error : string)
| OutOfFuel.
Arguments Return {A} a.
Arguments Throw {A} error.
Arguments OutOfFuel {A}.

Definition G (A : Type) : Type := Tape -> Outcome (A * Tape).

Definition ret {A} (a : A) : G A := fun t => Return (a, t).
Definition bind {A B} (m : G A) (f : A -> G B) : G B :=
  fun t => match m t with
           | Return (a, t') => f a t'
           | Throw e => Throw e
           | OutOfFuel => OutOfFuel
           end.
Definition throw {A} (e : string) : G A := fun _ => Throw e.
Definition outOfFuel {A} : G A := fun _ => OutOfFuel.

#[local] Notation "x <- m ;; k" := (bind m (fun x => k))
  (at level 100, m at next level, right associativity).

(** The next random natural. *)
Definition draw : G nat := fun t => Return (t O, fun n => t (S n)).

(** **** The primitives of [faker] (and [Math.random]) the script calls,
    each decoding draws into the range its documentation gives. *)

(** [faker.number.int({ min, max })]: an integer of [[min, max]]. *)
Definition number_int (min max : Z) : G Z :=
  if max <? min then throw "FakerError: Max should be greater than min."
  else r <- draw ;; ret (min + Z.of_nat r mod (max - min + 1)).

(** [faker.helpers.arrayElement(xs)]: one element of a non-empty array. *)
Definition arrayElement {A} (xs : list A) : G A :=
  r <- draw ;;
  match xs !! (r mod length xs)%nat with
  | Some x => ret x
  | None => throw "FakerError: Cannot get value from empty dataset."
  end.

Fixpoint pickDistinct {A} (n : nat) (pool : list A) : G (list A) :=
  match n with
  | O => ret []
  | S n' =>
    r <- draw ;;
    match pool !! (r mod length pool)%nat with
    | Some x =>
      rest <- pickDistinct n' (delete (r mod length pool)%nat pool) ;;
      ret (x :: rest)
    | None => ret []
    end
  end.

(** [faker.helpers.arrayElements(xs, count)]: [count] elements (at most all
    of them) at distinct positions, in random order. *)
Definition arrayElements {A} (xs : list A) (count : Z) : G (list A) :=
  pickDistinct (Z.to_nat count) xs.

Fixpoint pickWeighted {A} (ws : list (A * Z)) (x : Z) : option A :=
  match ws with
  | [] => None
  | (a, weight) :: rest =>
    if x <? weight then Some a else pickWeighted rest (x - weight)
  end.

(** [faker.helpers.weightedArrayElement(ws)], with the weights in
    hundredths. *)
Definition weightedArrayElement {A} (ws : list (A * Z)) : G A :=
  let total := fold_right Z.add 0 (map snd ws) in
  r <- draw ;;
  match pickWeighted ws (Z.of_nat r mod total) with
  | Some a => ret a
  | None => throw "FakerError: weightedArrayElement expects a non-empty array."
  end.

Definition ALPHANUMERIC : list ascii :=
  list_ascii_of_string
    "0123456789ABCDEFGHIJKLMNOPQRSTUVWXYZabcdefghijklmnopqrstuvwxyz".

(** [faker.string.alphanumeric(n)] *)
Fixpoint alphanumeric (n : nat) : G string :=
  match n with
  | O => ret EmptyString
  | S n' =>
    c <- arrayElement ALPHANUMERIC ;;
    rest <- alphanumeric n' ;;
    ret (String c rest)
  end.

Definition HEX : list ascii := list_ascii_of_string "0123456789abcdef".

Fixpoint fillUuid (pattern : list ascii) : G string :=
  match pattern with
  | [] => ret EmptyString
  | c :: rest =>
    d <- (if Ascii.eqb c "x" then arrayElement HEX
          else if Ascii.eqb c "y" then arrayElement (list_ascii_of_string "89ab")
          else ret c) ;;
    s <- fillUuid rest ;;
    ret (String d s)
  end.

(** [faker.string.uuid()] *)
Definition uuid : G string :=
  fillUuid (list_ascii_of_string "xxxxxxxx-xxxx-4xxx-yxxx-xxxxxxxxxxxx").

(** [faker.date.past({ years: 1 })], as milliseconds before now. *)
Definition datePast : G Z := number_int 1 31536000000.

(** [Math.random() < 0.1] *)
Definition oneInTen : G bool := r <- draw ;; ret (r mod 10 =? 0)%nat.

(** *** generateTitle *)

Definition generateTitle (category material : string) : G string :=
  let templates :=
    objGetOr TITLE_TEMPLATES category ["{adj} {material} Furniture"%string] in
  template <- arrayElement templates ;;
  adj <- arrayElement ADJECTIVES ;;
  style <- arrayElement ["Modern"; "Classic"; "Contemporary"]%string ;;
  seater <- arrayElement ["2"; "3"; "5"; "7"]%string ;;
  seats <- arrayElement ["4"; "6"; "8"]%string ;;
  size <- arrayElement ["Queen"; "King"; "Twin"; "Full"]%string ;;
  doors <- arrayElement ["2"; "3"; "4"; "5"]%string ;;
  pieces <- arrayElement ["3"; "4"; "5"; "7"]%string ;;
  shelves <- arrayElement ["3"; "4"; "5"; "6"]%string ;;
  qty <- arrayElement ["2"; "4"; "6"]%string ;;
  shape <- arrayElement ["Round"; "Square"; "Rectangular"; "Oval"]%string ;;
  tvSize <- arrayElement ["32"; "43"; "50"; "55"; "65"; "75"]%string ;;
  ret (replaceFirst "{size}" tvSize
      (replaceFirst "{shape}" shape
      (replaceFirst "{qty}" qty
      (replaceFirst "{shelves}" shelves
      (replaceFirst "{pieces}" pieces
      (replaceFirst "{doors}" doors
      (replaceFirst "{size}" size
      (replaceFirst "{seats}" seats
      (replaceFirst "{seater}" seater
      (replaceFirst "{style}" style
      (replaceFirst "{material}" material
      (replaceFirst "{adj}" adj template)))))))))))).

(** *** generateDescription *)

Definition generateDescription (title material condition city : string)
  : G string :=
  let lower := toLowerCase title in
  let intros :=
    [ "Elevate your space with this " ++ lower ++ ".";
      "Quality " ++ lower ++ " for your home or office.";
      "Premium " ++ lower ++ " crafted with attention to detail.";
      "Transform your living space with this beautiful " ++ lower ++ "." ]%string in
  let features :=
    [ "Made from high-quality " ++ material ++ " for durability and style.";
      "Features a " ++ condition ++ " finish that complements any décor.";
      "Sturdy construction designed to last for years.";
      "Easy to clean and maintain.";
      "Comfortable and functional design." ]%string in
  let delivery :=
    [ "Available for delivery within " ++ city ++ " and surrounding areas.";
      "Fast delivery available across " ++ city ++ ".";
      "Contact us for delivery options to your location in " ++ city ++ "." ]%string in
  intro <- arrayElement intros ;;
  count <- number_int 2 3 ;;
  chosen <- arrayElements features count ;;
  deliv <- arrayElement delivery ;;
  ret (joinSpace [ intro; joinSpace chosen; deliv;
                   "Meet the producer option available for local pickup."%string ]).

(** *** generateDimensions *)

Definition generateDimensions (category : string) : G Dimensions :=
  if String.eqb category "sofa" then
    l <- number_int 160 240 ;; w <- number_int 80 110 ;; h <- number_int 75 95 ;;
    ret (mkDimensions (Some l) (Some w) (Some h) None "cm")
  else if String.eqb category "dining-table" then
    l <- number_int 140 240 ;; w <- number_int 80 120 ;;
    ret (mkDimensions (Some l) (Some w) (Some 75) None "cm")
  else if String.eqb category "bed" then
    l <- number_int 190 210 ;; w <- number_int 140 200 ;; h <- number_int 40 60 ;;
    ret (mkDimensions (Some l) (Some w) (Some h) None "cm")
  else if String.eqb category "wardrobe" then
    _ <- number_int 120 250 ;; h <- number_int 180 220 ;; w <- number_int 50 70 ;;
    ret (mkDimensions None (Some w) (Some h) None "cm")
  else if String.eqb category "desk" then
    l <- number_int 100 160 ;; w <- number_int 50 80 ;;
    ret (mkDimensions (Some l) (Some w) (Some 75) None "cm")
  else if String.eqb category "chair" then
    w <- number_int 45 70 ;; h <- number_int 80 110 ;;
    ret (mkDimensions None (Some w) (Some h) None "cm")
  else if String.eqb category "coffee-table" then
    l <- number_int 80 140 ;; w <- number_int 50 90 ;; h <- number_int 40 55 ;;
    ret (mkDimensions (Some l) (Some w) (Some h) None "cm")
  else
    l <- number_int 80 200 ;; w <- number_int 40 100 ;; h <- number_int 40 180 ;;
    ret (mkDimensions (Some l) (Some w) (Some h) None "cm").

(** *** generateListing *)

(** [conditionMultipliers]: each literal is the double nearest to it. *)
#[warnings="-inexact-float"]
Definition conditionMultipliers (c : Condition) : float :=
  match c with
  | new => 1
  | excellent => 0.85
  | good => 0.65
  | fair => 0.45
  end%float.

(** The JavaScript number that holds the integer [z], for [0 <= z < 2^53]. *)
Definition toNumber (z : Z) : float := PrimFloat.of_uint63 (Uint63.of_Z z).

(** [Math.round(q)] for a double [0 <= q < 2^52]: the nearest integer, a
    tie going up.  With [q = f * 2^(e - 2101)] and [f = m / 2^53], as
    [frshiftexp] and [normfr_mantissa] give them, the integer part of
    [2 * q] is [m] shifted right by [2153 - e] bits; one more, halved, it
    is the integer part of [q + 1/2].  (The script rounds quotients of
    a base price, which lie between 0 and 350.) *)
Definition roundHalfUp (q : float) : int :=
  let (f, e) := PrimFloat.frshiftexp q in
  let m := PrimFloat.normfr_mantissa f in
  (((m >> (2153 - e)) + 1) >> 1)%uint63.

Definition mathRound (q : float) : Z := Uint63.to_Z (roundHalfUp q).

(** [basePrice * conditionMultipliers[condition] / 1000], in doubles. *)
Definition priceQuotient (basePrice : Z) (c : Condition) : float :=
  (toNumber basePrice * conditionMultipliers c / 1000)%float.

(** [Math.round(basePrice * conditionMultipliers[condition] / 1000) * 1000];
    the last product, of an integer below 2^52 and 1000, is exact. *)
Definition priceOf (basePrice : Z) (c : Condition) : Z :=
  mathRound (priceQuotient basePrice c) * 1000.

Definition CONDITION_WEIGHTS : list (Condition * Z) :=
  [ (new, 60); (excellent, 25); (good, 10); (fair, 5) ].

Definition defaultRange : PriceRange := mkRange 20000 150000.

Definition generateListing (images : list ImageData) : G Listing :=
  match images with
  | [] => throw "TypeError: Cannot read properties of undefined (reading 'category')"
  | first :: _ =>
    let category := img_category first in
    condition <- weightedArrayElement CONDITION_WEIGHTS ;;
    materialCount <- number_int 1 2 ;;
    materials <- arrayElements
                   (objGetOr MATERIALS_BY_CATEGORY category ["wood"; "metal"]%string)
                   materialCount ;;
    (* [materials[0]]; where it is [undefined], [replace] and the template
       literals render it as the text "undefined" *)
    let primaryMaterial := List.hd "undefined"%string materials in
    title <- generateTitle category primaryMaterial ;;
    suffix <- alphanumeric 6 ;;
    let slug := (trimDashes (dashRuns false (toLowerCase title)) ++ "-" ++ suffix)%string in
    city <- arrayElement NIGERIAN_CITIES ;;
    let priceRange := objGetOr PRICE_RANGES category defaultRange in
    basePrice <- number_int (min priceRange) (max priceRange) ;;
    let price := priceOf basePrice condition in
    description <- generateDescription title primaryMaterial
                     (conditionName condition) city ;;
    featured <- oneInTen ;;
    id <- uuid ;;
    dimensions <- generateDimensions category ;;
    stock <- number_int 1 8 ;;
    createdAt <- datePast ;;
    ret (mkListing id title slug description price city condition materials
           dimensions (map img_url images) category
           (newSet (img_tags first ++ [category] ++ materials
                    ++ [conditionName condition]))
           stock featured createdAt)
  end.

(** *** generateAllListings *)

(** One step of the [reduce] that groups the images:
    [acc[c] = acc[c] || []; acc[c].push(img)].  For an inherited name,
    [acc[c]] is not an array and [push] is not a function. *)
Definition groupStep (acc : JsObject (list ImageData)) (img : ImageData)
  : G (JsObject (list ImageData)) :=
  let c := img_category img in
  if inherited c then throw "TypeError: acc[img.category].push is not a function"
  else ret (objSet c (objGetOr acc c [] ++ [img]) acc).

Fixpoint groupImages (imgs : list ImageData) (acc : JsObject (list ImageData))
  : G (JsObject (list ImageData)) :=
  match imgs with
  | [] => ret acc
  | img :: rest => acc' <- groupStep acc img ;; groupImages rest acc'
  end.

(** [xs.slice(i, j)] for [0 <= i <= j]. *)
Definition slice {A} (xs : list A) (i j : Z) : list A :=
  take (Z.to_nat (j - i)) (drop (Z.to_nat i) xs).

(** [while (i < categoryImages.length) { ... }] *)
Fixpoint listingLoop (fuel : nat) (categoryImages : list ImageData) (i : Z)
    (categoryListings : list Listing) : G (list Listing) :=
  match fuel with
  | O => outOfFuel
  | S fuel =>
    if i <? len categoryImages then
      imagesPerListing <- number_int 1 (Z.min 5 (len categoryImages - i)) ;;
      let listingImages := slice categoryImages i (i + imagesPerListing) in
      listing <- generateListing listingImages ;;
      listingLoop fuel categoryImages (i + imagesPerListing)
                  (categoryListings ++ [listing])
    else ret categoryListings
  end.

(** Every pass consumes at least one image, and one more test of the
    condition ends the loop. *)
Definition listingFuel (categoryImages : list ImageData) : nat :=
  S (length categoryImages).

(** [for (const [category, categoryImages] of Object.entries(imagesByCategory))] *)
Fixpoint categoriesLoop (groups : list (string * list ImageData))
    (listings : list Listing) : G (list Listing) :=
  match groups with
  | [] => ret listings
  | (_, categoryImages) :: rest =>
    categoryListings <- listingLoop (listingFuel categoryImages) categoryImages 0 [] ;;
    categoriesLoop rest (listings ++ categoryListings)
  end.

(** [Math.min(...xs)] and [Math.max(...xs)]; [None] stands for the infinity
    they yield on no argument (serialised as [null]). *)
Definition mathMin (xs : list Z) : option Z :=
  match xs with
  | [] => None
  | x :: rest => Some (fold_left Z.min rest x)
  end.
Definition mathMax (xs : list Z) : option Z :=
  match xs with
  | [] => None
  | x :: rest => Some (fold_left Z.max rest x)
  end.

(** The object written to [listings_large.json] ([generatedAt] and the
    constant currency are left out). *)
Record ListingsMeta := mkListingsMeta {
  totalListings : Z;
  totalImages : Z;
  categories : list string;
  priceMin : option Z;
  priceMax : option Z
}.

Record ListingsFile := mkListingsFile {
  out_meta : ListingsMeta;
  out_listings : list Listing
}.

(** What [this.images] holds after [loadImages]. *)
Inductive JsImages :=
| NotAnArray
| ImageArray (imgs : list ImageData).

(** [generateAllListings]; the result is the file it has written.
    [diskOk] tells whether [mkdir] and [writeFile] succeed. *)
Definition generateAllListings (diskOk : bool) (images : JsImages)
  : G ListingsFile :=
  match images with
  | NotAnArray => throw "TypeError: this.images.reduce is not a function"
  | ImageArray imgs =>
    imagesByCategory <- groupImages imgs [] ;;
    listings <- categoriesLoop (entries imagesByCategory) [] ;;
    let output :=
      mkListingsFile
        (mkListingsMeta (len listings) (len imgs)
           (map fst (entries imagesByCategory))
           (mathMin (map lst_price_ngn listings))
           (mathMax (map lst_price_ngn listings)))
        listings in
    if diskOk then ret output
    else throw "Error: EACCES: permission denied"
  end.

(** *** loadImages and main *)

(** [parsed.images] of an object that was parsed. *)
Inductive ImagesField :=
| ImagesFalsy                         (* absent, null, false, 0 or the empty string *)
| ImagesOther                         (* truthy, and not an array *)
| ImagesArray (imgs : list ImageData).

(** The image catalog as [loadImages] meets it. *)
Inductive CatalogFile :=
| Unreadable                          (* readFile rejects *)
| NotJson                             (* JSON.parse throws *)
| JsonNull                            (* the text is null *)
| JsonValue (images : ImagesField).   (* any other value, with its images property *)

(** [loadImages]: [this.images = parsed.images || []]. *)
Definition loadImages (file : CatalogFile) : G JsImages :=
  match file with
  | Unreadable => throw "Error: ENOENT: no such file or directory"
  | NotJson => throw "SyntaxError: Unexpected token in JSON"
  | JsonNull => throw "TypeError: Cannot read properties of null (reading 'images')"
  | JsonValue ImagesFalsy => ret (ImageArray [])
  | JsonValue ImagesOther => ret NotAnArray
  | JsonValue (ImagesArray imgs) => ret (ImageArray imgs)
  end.

(** How the process ends: its exit code and the listing file it wrote, or
    a run of the model that was cut short for lack of fuel. *)
Inductive Exit :=
| Exited (code : Z) (written : option ListingsFile)
| Unfinished.

(** [main]: [try { loadImages; generateAllListings; exit(0) } catch { exit(1) }] *)
Definition main (file : CatalogFile) (diskOk : bool) (t : Tape) : Exit :=
  match (images <- loadImages file ;; generateAllListings diskOk images) t with
  | Return (out, _) => Exited 0 (Some out)
  | Throw _ => Exited 1 None
  | OutOfFuel => Unfinished
  end.

End GenerateListings.

(** * fetch-images.ts: the category breakdown

    [finalize] counts the deduplicated images by category in a plain
    object, which it stores as [meta.categories] in every catalog it
    writes.  The object is read and written as the dictionaries of
    generate-listings.ts are. *)
Module CategoryBreakdown.
Import FetchImages.




End CategoryBreakdown.

(** * The vocabulary of the properties of fetch-images.ts *)
Module FetchImagesSpec.
Import FetchImages.

(** ** Runs of the monad *)

(** [st'] is [st] after some more events: the keys are the same and the
    trace has only grown. *)
Definition extends (st st' : State) : Prop :=
  unsplashKey st' = unsplashKey st /\
  pexelsKey st' = pexelsKey st /\
  exists evs, trace st' = trace st ++ evs.

(** [m] always returns (it does not run out of fuel) and only appends to
    the trace. *)
Definition runs {A} (m : M A) : Prop :=
  forall st, exists a st', m st = Some (a, st') /\ extends st st'.

(** ** The two providers, side by side *)

(** The credential of provider [p]. *)
Definition keyOf (p : Source) (st : State) : string :=
  match p with unsplash => unsplashKey st | pexels => pexelsKey st end.

(** [fetchUnsplash] or [fetchPexels]. *)
Definition fetchFrom (p : Source) : World -> string -> Z -> Z -> M (list ImageMetadata) :=
  match p with unsplash => fetchUnsplash | pexels => fetchPexels end.

(** The record that provider's function makes of a photo. *)
Definition convert (p : Source) : string -> Photo -> ImageMetadata :=
  match p with unsplash => unsplashImage | pexels => pexelsImage end.

(** ** The retry policy, read off the answers of the world *)

(** The pauses that follow a failed attempt: its number is [attempt] (from
    1), [status] is the HTTP status of the failure, if it has one. *)
Definition attemptPauses (attempt : Z) (status : option Z) : list Z :=
  if is429 status then [60000; 2000 * attempt]
  else if attempt >=? MAX_RETRIES then []
  else [2000 * attempt].

(** The answers the next [MAX_RETRIES] requests would get. *)
Definition nextAnswers (w : World) (n : nat) : list Response :=
  map w (seq n (Z.to_nat MAX_RETRIES)).

(** Requests issued, up to the first success. *)
Fixpoint attemptsMade (answers : list Response) : nat :=
  match answers with
  | [] => 0
  | Ok200 _ :: _ => 1
  | Failed _ :: rest => S (attemptsMade rest)
  end.

(** The photos of the first success, if there is one. *)
Fixpoint firstSuccess (answers : list Response) : list Photo :=
  match answers with
  | [] => []
  | Ok200 photos :: _ => photos
  | Failed _ :: rest => firstSuccess rest
  end.

(** What is observed: each attempt is a request, and each failure is
    followed by its pauses. *)
Fixpoint retryEvents (get : Event) (attempt : Z) (answers : list Response)
  : list Event :=
  match answers with
  | [] => []
  | Ok200 _ :: _ => [get]
  | Failed status :: rest =>
    get :: map EvSleep (attemptPauses attempt status)
        ++ retryEvents get (attempt + 1) rest
  end.

(** The state a request to [p] leaves: the attempts are counted as
    requests, their events are on the trace. *)
Definition afterRetries (w : World) (p : Source) (query : string)
    (page perPage : Z) (st : State) : State :=
  let answers := nextAnswers w (requests st) in
  with_requests (requests st + attemptsMade answers)%nat
    (with_trace (trace st ++ retryEvents (EvGet p query page perPage) 1 answers) st).

(** ** One page of one query *)

(** The event is a request to Pexels. *)
Definition isPexelsGet (e : Event) : Prop :=
  match e with
  | EvGet pexels _ _ _ => True
  | _ => False
  end.

(** How many images [fetchUnsplash] returns for the page when called in
    [st] (none when Unsplash is not configured). *)
Definition primaryYield (w : World) (query : string) (page : Z) (st : State) : Z :=
  match fetchUnsplash w query page 30 st with
  | Some (imgs, _) => len imgs
  | None => 0
  end.

(** From [st], [m] returns, and the events it adds to the trace begin with
    [pre]. *)
Definition startsWith {A} (pre : list Event) (m : M A) (st : State) : Prop :=
  exists a st' evs, m st = Some (a, st') /\ trace st' = trace st ++ pre ++ evs.

(** The provider the page loop asks first. *)
Definition firstProvider (unsplashKey : string) : Source :=
  if truthy unsplashKey then unsplash else pexels.

(** ** Concrete photos, worlds and checkpoints *)

(** The photo a provider returns under the one-letter id of code [65 + n]. *)
Definition samplePhoto (n : nat) : Photo :=
  mkPhoto (String (ascii_of_nat (65 + n)) EmptyString)
          "https://img.example/full" "https://img.example/thumb" []
          1600 900 "#a1a1a1" "A. Photographer" "https://img.example/a".

(** Unsplash's and Pexels' records of photos that share the id [A]. *)
Definition unsplashA : ImageMetadata := unsplashImage "sofa" (samplePhoto 0).
Definition pexelsA : ImageMetadata := pexelsImage "sofa" (samplePhoto 0).
(** A Pexels record with an id of its own. *)
Definition pexelsB : ImageMetadata := pexelsImage "sofa" (samplePhoto 1).

(** The first request is answered with 30 photos, all later ones with none. *)
Definition thirtyThenNothing : World :=
  fun n => match n with
           | O => Ok200 (map samplePhoto (seq 0 30))
           | S _ => Ok200 []
           end.

(** Three answers 429, then a success. *)
Definition limitedThrice : World :=
  fun n => if (n <? 3)%nat then Failed (Some 429) else Ok200 [samplePhoto 0].

(** No request ever finds an image. *)
Definition nothingFound : World := fun _ => Ok200 [].

(** The checkpoint of the interrupted-resume scenario: 15 images counted,
    the first category recorded as the last one completed. *)
Definition sofaDone : gmap string File :=
  {[ PROGRESS_FILE := ProgressJson (mkProgress 15 "sofa" []) ]}.

(** ** What a run of the category loop may do *)

(** The state [loadProgress] leaves: the checkpoint, if the disk holds a
    readable one. *)
Definition resumed (st : State) : State :=
  match fs st !! PROGRESS_FILE with
  | Some (ProgressJson p) => with_progress p st
  | _ => st
  end.

(** The checkpoint on disk is the progress in memory. *)
Definition synced (st : State) : Prop :=
  fs st !! PROGRESS_FILE = Some (ProgressJson (progress st)).

(** How many providers have a key. *)
Definition providers (st : State) : nat :=
  ((if truthy (unsplashKey st) then 1 else 0)
   + (if truthy (pexelsKey st) then 1 else 0))%nat.

(** The categories that a run whose checkpoint names [last] does not skip. *)
Definition remaining (last : string) (cats : list CategoryConfig)
  : list CategoryConfig :=
  List.filter (fun cfg => negb (skipCategory last (category cfg))) cats.

(** The pauses of the script: after a stored batch, on a rate limit, and
    the backoff after the first, second and third failed attempt. *)
Definition PAUSES : list Z := [RATE_LIMIT_DELAY; 60000; 2000; 4000; 6000].

(** An event of the page loops of the queries [qs]. *)
Definition queryEvent (qs : list string) (e : Event) : Prop :=
  match e with
  | EvGet _ query page perPage =>
      In query qs /\ 1 <= page <= 10 /\ perPage = 30
  | EvSleep ms => In ms PAUSES
  | EvLogFetching _ _ => False
  | EvLogQuery query => In query qs
  end.

(** An event of a run over the categories [cats]: the announcement of one
    of them, or an event of one of their queries. *)
Definition expected (cats : list CategoryConfig) (e : Event) : Prop :=
  match e with
  | EvLogFetching c tgt =>
      exists cfg, In cfg cats /\ category cfg = c /\ target cfg = tgt
  | _ => queryEvent (flat_map queries cats) e
  end.

(** A request goes to a provider whose key is set. *)
Definition configured (st : State) (e : Event) : Prop :=
  match e with
  | EvGet p _ _ _ => keyOf p st <> EmptyString
  | _ => True
  end.

(** The licence text each provider's function writes into its records. *)
Definition LICENSE (p : Source) : string :=
  match p with
  | unsplash => "Unsplash License (free to use, attribution appreciated)"
  | pexels => "Pexels License (free to use, attribution appreciated)"
  end.

(** A record as the run stores it: filed under one of [cats], with the
    licence of its source. *)
Definition storedUnder (cats : list string) (img : ImageMetadata) : Prop :=
  In (img_category img) cats /\ img_license img = LICENSE (img_source img).

(** From [st] to [st']: at most [n] requests were made, the events [E]
    were appended to the trace, records [I] were appended to the progress
    and counted, and nothing else changed but the checkpoint file. *)
Record advances (n : nat) (E : Event -> Prop) (I : ImageMetadata -> Prop)
    (st st' : State) : Prop := mkAdvances {
  adv_unsplashKey : unsplashKey st' = unsplashKey st;
  adv_pexelsKey : pexelsKey st' = pexelsKey st;
  adv_requests : (requests st <= requests st' <= requests st + n)%nat;
  adv_trace :
    exists evs, trace st' = trace st ++ evs
                /\ Forall E evs /\ Forall (configured st) evs;
  adv_images :
    exists added,
      images (progress st') = images (progress st) ++ added
      /\ completed (progress st') = completed (progress st) + len added
      /\ Forall I added;
  adv_files :
    forall path, path <> PROGRESS_FILE -> fs st' !! path = fs st !! path;
  adv_synced : synced st -> synced st'
}.

(** The event concerns a category that does not come before [last] in the
    fixed order. *)
Definition notBefore (last : string) (e : Event) : Prop :=
  match e with
  | EvLogFetching c _ => findIndex last <= findIndex c
  | EvGet _ query _ _ | EvLogQuery query =>
      exists cfg, In cfg FURNITURE_CATEGORIES /\ In query (queries cfg)
                  /\ findIndex last <= findIndex (category cfg)
  | EvSleep _ => True
  end.

(** From [st], [m] returns, in a state related to [st] by [R]. *)
Definition leads {A} (R : State -> State -> Prop) (m : M A) (st : State)
  : Prop :=
  exists a st', m st = Some (a, st') /\ R st st'.

(** [fetchAll] up to the call of [finalize]. *)
Definition fetchLoops (w : World) (targetTotal : Z) : M unit :=
  bind loadProgress (fun _ => categoryLoop w targetTotal FURNITURE_CATEGORIES).


(** ** Well-behaved providers *)

(** No answer holds more photos than the 30 a request asks for. *)
Definition withinPage (w : World) : Prop :=
  forall n photos, w n = Ok200 photos -> len photos <= 30.

(** The requests of one page of a query: one to each provider that has a
    key, Unsplash first. *)
Definition pageRequests (st : State) (query : string) (page : Z) : list Event :=
  (if truthy (unsplashKey st) then [EvGet unsplash query page 30] else [])
  ++ (if truthy (pexelsKey st) then [EvGet pexels query page 30] else []).

(** The [n] pages from [page] on. *)
Definition pagesFrom (page : Z) (n : nat) : list Z :=
  map (fun k => page + Z.of_nat k) (seq 0 n).

(** ** The category breakdown *)



End FetchImagesSpec.

(** * The vocabulary of the properties of generate-listings.ts *)
Module GenerateListingsSpec.
Import GenerateListings.

(** [m] returns on every tape (it neither throws nor runs out of fuel),
    and what it returns satisfies [P]. *)
Definition returns {A} (m : G A) (P : A -> Prop) : Prop :=
  forall t, exists a t', m t = Return (a, t') /\ P a.

(** [m] returns on every tape. *)
Definition succeeds {A} (m : G A) : Prop := returns m (fun _ => True).

(** The price range the script uses for a category. *)
Definition rangeOf (category : string) : PriceRange :=
  objGetOr PRICE_RANGES category defaultRange.

(** Listing [l] is what [generateListing] returned for window [w], on some
    tape. *)
Definition madeFrom (w : list ImageData) (l : Listing) : Prop :=
  exists t t', generateListing w t = Return (l, t').

(** A window holds between one and five images. *)
Definition windowSized (w : list ImageData) : Prop := 1 <= len w <= 5.

(** The images of category [c], in catalog order. *)
Definition groupOf (c : string) (imgs : list ImageData) : list ImageData :=
  List.filter (fun img => String.eqb (img_category img) c) imgs.

(** [obj] is the grouping of [imgs]: one property per category that occurs,
    holding the images of that category. *)
Definition grouped (obj : JsObject (list ImageData)) (imgs : list ImageData)
  : Prop :=
  NoDup (map fst obj)
  /\ (forall k g, In (k, g) obj -> g = groupOf k imgs)
  /\ (forall img, In img imgs -> In (img_category img) (map fst obj)).

(** The listings [ls] were generated from group [g]: its images were cut,
    left to right, into windows, one listing per window. *)
Definition groupListed (g : string * list ImageData) (ls : list Listing) : Prop :=
  exists windows,
    concat windows = snd g
    /\ Forall2 madeFrom windows ls
    /\ Forall windowSized windows.

(** Window [w] of the catalog [imgs] became listing [l]: the window is not
    empty, holds at most five images, all of them images of the catalog
    and of the listing's category. *)
Definition windowOf (imgs w : list ImageData) (l : Listing) : Prop :=
  madeFrom w l
  /\ windowSized w
  /\ forall img, In img w -> In img imgs /\ img_category img = lst_category l.

(** The windows, category by category, cut up the groups [gs]. *)
Definition cutInto (gs : list (string * list ImageData))
    (windowss : list (list (list ImageData))) : Prop :=
  Forall2 (fun g windows => concat windows = snd g) gs windowss.

(** ** Prices, as the specification computes them *)

(** The multipliers of the conditions, as the decimal fractions they are
    written as. *)
Definition multiplierValue (c : Condition) : Q :=
  match c with
  | new => 1
  | excellent => 0.85
  | good => 0.65
  | fair => 0.45
  end%Q.

(** The integer nearest to [x], a tie going up. *)
Definition nearestInteger (x : Q) : Z := Qfloor (x + (1 # 2)).

(** [x] rounded to the nearest 1000. *)
Definition roundToThousand (x : Q) : Z := nearestInteger (x / 1000) * 1000.

(** The base prices the script can draw lie between the smallest [min] and
    the largest [max] of [PRICE_RANGES]. *)
Definition LOWEST_BASE : Z := 15000.
Definition HIGHEST_BASE : Z := 350000.

(** The multipliers in hundredths, as machine integers. *)
Definition multiplierPercent (c : Condition) : int :=
  match c with
  | new => 100
  | excellent => 85
  | good => 65
  | fair => 45
  end%uint63.

(** For base price [b] and condition [c], the double quotient is in the
    domain of [roundHalfUp], and rounds to the integer that the exact
    quotient [b * percent / 100000] rounds to. *)
Definition doubleAgrees (b : Z) (c : Condition) : bool :=
  let q := priceQuotient b c in
  PrimFloat.leb 0 q && PrimFloat.ltb q 4503599627370496
  && Uint63.eqb (roundHalfUp q)
       ((Uint63.of_Z b * multiplierPercent c + 50000) / 100000)%uint63.

(** [doubleAgrees] at the [n] base prices from [b] on, for every condition. *)
Fixpoint allAgree (n : nat) (b : Z) : bool :=
  match n with
  | O => true
  | S n' =>
    doubleAgrees b new && doubleAgrees b excellent && doubleAgrees b good
    && doubleAgrees b fair && allAgree n' (b + 1)
  end.

(** ** The parts of a listing *)

(** On some tape, [m] returns [a]. *)
Definition yields {A} (m : G A) (a : A) : Prop :=
  exists t t', m t = Return (a, t').

(** The title templates and the materials the script uses for a category. *)
Definition templatesOf (category : string) : list string :=
  objGetOr TITLE_TEMPLATES category ["{adj} {material} Furniture"%string].
Definition materialsOf (category : string) : list string :=
  objGetOr MATERIALS_BY_CATEGORY category ["wood"; "metal"]%string.

(** The part of a slug that is made from the title. *)
Definition slugBody (title : string) : string :=
  trimDashes (dashRuns false (toLowerCase title)).

Fixpoint allChars (p : ascii -> bool) (s : string) : bool :=
  match s with
  | EmptyString => true
  | String c s' => p c && allChars p s'
  end.

Fixpoint lastChar (s : string) : option ascii :=
  match s with
  | EmptyString => None
  | String c EmptyString => Some c
  | String _ s' => lastChar s'
  end.

Definition isDash (c : ascii) : bool := Ascii.eqb c "-".

Definition isAlphanumeric (c : ascii) : bool :=
  existsb (Ascii.eqb c) ALPHANUMERIC.

(** [pat] occurs in [s]. *)
Fixpoint occurs (pat s : string) : bool :=
  isPrefix pat s
  || match s with
     | EmptyString => false
     | String _ s' => occurs pat s'
     end.

(** A slug body: lower-case letters, digits and single dashes, with no
    dash at either end. *)
Definition wellFormedBody (s : string) : Prop :=
  allChars (fun c => isSlugChar c || isDash c) s = true
  /\ occurs "--" s = false
  /\ isPrefix "-" s = false
  /\ lastChar s <> Some "-"%char.

(** ** The titles that can be generated *)

(** What [s.replace(pat, rep)] can be, for [s] among [ss] and [rep] among
    [reps]. *)
Definition fillings (pat : string) (reps ss : list string) : list string :=
  flat_map (fun s => if occurs pat s
                     then map (fun rep => replaceFirst pat rep s) reps
                     else [s]) ss.

(** The titles [generateTitle] can have built from [templates] and
    [material] when it comes to its last [replace]. *)
Definition titlesBeforeLast (templates : list string) (material : string)
  : list string :=
  fillings "{shape}" ["Round"; "Square"; "Rectangular"; "Oval"]
 (fillings "{qty}" ["2"; "4"; "6"]
 (fillings "{shelves}" ["3"; "4"; "5"; "6"]
 (fillings "{pieces}" ["3"; "4"; "5"; "7"]
 (fillings "{doors}" ["2"; "3"; "4"; "5"]
 (fillings "{size}" ["Queen"; "King"; "Twin"; "Full"]
 (fillings "{seats}" ["4"; "6"; "8"]
 (fillings "{seater}" ["2"; "3"; "5"; "7"]
 (fillings "{style}" ["Modern"; "Classic"; "Contemporary"]
 (fillings "{material}" [material]
 (fillings "{adj}" ADJECTIVES templates))))))))))%string.

(** The titles [generateTitle] can return. *)
Definition possibleTitles (templates : list string) (material : string)
  : list string :=
  fillings "{size}" ["32"; "43"; "50"; "55"; "65"; "75"]%string
           (titlesBeforeLast templates material).

(** The templates and materials of every category: those of the ten
    categories of the tables, and the fallbacks of all others. *)
Definition titleSpaces : list (list string * list string) :=
  (templatesOf "", materialsOf "")
  :: map (fun c => (templatesOf c, materialsOf c)) (map fst TITLE_TEMPLATES).

(** [check] holds of every title that can be generated. *)
Definition allTitles (check : string -> bool) : bool :=
  forallb (fun space =>
             forallb (fun material =>
                        forallb check (possibleTitles (fst space) material))
                     (snd space))
          titleSpaces.

(** No placeholder is left, and the title has letters or digits. *)
Definition instantiated (title : string) : bool :=
  negb (occurs "{" title) && negb (occurs "}" title)
  && negb (String.eqb (slugBody title) "").

(** The titles of TV stands as the script builds them. *)
Definition tvStandTitles : list string :=
  flat_map (fun adj =>
              map (fun size =>
                     (adj ++ " TV Stand for " ++ size ++ dquote ++ " TVs")%string)
                  ["Queen"; "King"; "Twin"; "Full"]%string)
           ADJECTIVES.

Definition tvStandSized (title : string) : bool :=
  if occurs "TV Stand" title
  then existsb (String.eqb title) tvStandTitles
  else true.

(** ** The input of the job *)


(** The exit status. *)
Definition exitCode (e : Exit) : option Z :=
  match e with
  | Exited code _ => Some code
  | Unfinished => None
  end.

(** How many images the groups hold. *)
Definition groupSize (groups : JsObject (list ImageData)) : Z :=
  fold_right (fun g n => len (snd g) + n) 0 groups.

(** The listing catalog written for a catalog without images. *)
Definition emptyListings : ListingsFile :=
  mkListingsFile (mkListingsMeta 0 0 [] None None) [].

(** The tape whose every draw is [n]. *)
Definition constantTape (n : nat) : Tape := fun _ => n.

(** ** Concrete catalogs and tapes *)

(** An image of the catalog, with its locators derived from its id. *)
Definition sampleImage (id category : string) (tags : list string) : ImageData :=
  mkImageData id ("https://img.example/" ++ id) ("https://img.example/t/" ++ id)
              category tags "#a1a1a1" "unsplash" "A. Photographer"
              "https://img.example/a".

(** Two sofas with different tags, and a desk. *)
Definition redSofa : ImageData := sampleImage "s1" "sofa" ["red"%string].
Definition blueSofa : ImageData := sampleImage "s2" "sofa" ["blue"%string].
Definition oakDesk : ImageData := sampleImage "d1" "desk" ["oak"%string].

End GenerateListingsSpec.

(** * The two scripts, one after the other *)

(** fetch-images.ts leaves its catalog at [OUTPUT_FILE]; that is the path
    [loadImages] of generate-listings.ts reads. *)
Module PipelineSpec.
Import FetchImages.

(** The [source] of a record as the string JSON carries. *)
Definition sourceName (s : Source) : string :=
  match s with
  | unsplash => "unsplash"
  | pexels => "pexels"
  end.

(** A fetched record read back as [ImageData]: the same properties, of
    which the interface of the listing generator names nine. *)
Definition asImageData (img : ImageMetadata) : GenerateListings.ImageData :=
  GenerateListings.mkImageData
    (img_id img) (img_url img) (img_thumbnailUrl img) (img_category img)
    (img_tags img) (img_color img) (sourceName (img_source img))
    (img_photographer img) (img_photographerUrl img).

(** What [loadImages] meets at the path, given what the fetcher's disk
    holds there: both kinds of file the fetcher writes are JSON objects
    with an [images] array. *)
Definition parsedCatalog (f : option File) : GenerateListings.CatalogFile :=
  match f with
  | None => GenerateListings.Unreadable
  | Some (CatalogJson c) =>
      GenerateListings.JsonValue
        (GenerateListings.ImagesArray (map asImageData (cat_images c)))
  | Some (ProgressJson p) =>
      GenerateListings.JsonValue
        (GenerateListings.ImagesArray (map asImageData (images p)))
  end.

End PipelineSpec.

(** * Properties of fetch-images.ts *)
Module FetchImagesProps.
Import FetchImages FetchImagesSpec.

(** ** Running the monad *)

Lemma extends_refl st : extends st st.
Proof. repeat split. exists []. by rewrite app_nil_r. Qed.

Lemma extends_trans st1 st2 st3 :
  extends st1 st2 -> extends st2 st3 -> extends st1 st3.
Proof.
  intros (Hu1 & Hp1 & e1 & He1) (Hu2 & Hp2 & e2 & He2).
  repeat split; [congruence | congruence |].
  exists (e1 ++ e2). by rewrite He2, He1, app_assoc.
Qed.

Lemma runs_ret {A} (a : A) : runs (ret a).
Proof. intros st. exists a, st. split; [done | apply extends_refl]. Qed.

Lemma runs_bind {A B} (m : M A) (f : A -> M B) :
  runs m -> (forall a, runs (f a)) -> runs (bind m f).
Proof.
  intros Hm Hf st.
  destruct (Hm st) as (a & st1 & E1 & X1).
  destruct (Hf a st1) as (b & st2 & E2 & X2).
  exists b, st2. split; [| by eapply extends_trans].
  unfold bind. by rewrite E1.
Qed.

Lemma runs_gets {A} (f : State -> A) : runs (gets f).
Proof. intros st. exists (f st), st. split; [done | apply extends_refl]. Qed.

Lemma runs_emit e : runs (emit e).
Proof.
  intros st. eexists tt, _. split; [reflexivity |].
  repeat split. by exists [e].
Qed.

Lemma runs_sleep ms : runs (sleep ms).
Proof. apply runs_emit. Qed.

Lemma runs_writeFile path f : runs (writeFile path f).
Proof.
  intros st. eexists tt, _. split; [reflexivity |].
  repeat split. exists []. by rewrite app_nil_r.
Qed.

Lemma runs_unlink path : runs (unlink path).
Proof.
  intros st. eexists tt, _. split; [reflexivity |].
  repeat split. exists []. by rewrite app_nil_r.
Qed.

Lemma runs_with_progress (f : State -> ProgressState) :
  runs (modify (fun st => with_progress (f st) st)).
Proof.
  intros st. eexists tt, _. split; [reflexivity |].
  repeat split. exists []. by rewrite app_nil_r.
Qed.

Lemma runs_httpGet w p query page perPage :
  runs (httpGet w p query page perPage).
Proof.
  intros st. eexists _, _. split; [reflexivity |].
  repeat split. by eexists [_].
Qed.

Lemma runs_saveProgress : runs saveProgress.
Proof. apply runs_bind; [apply runs_gets | intros; apply runs_writeFile]. Qed.

Lemma runs_loadProgress : runs loadProgress.
Proof.
  intros st. eexists tt, _. split; [reflexivity |].
  destruct (fs st !! PROGRESS_FILE) as [[p|c]|]; try apply extends_refl.
  repeat split. exists []. by rewrite app_nil_r.
Qed.

Create HintDb runs.
#[local] Hint Resolve runs_ret runs_gets runs_emit runs_sleep runs_writeFile
  runs_unlink runs_httpGet runs_saveProgress runs_loadProgress
  runs_with_progress : runs.

(** Splits a goal [runs m] along the binds and branches of [m]. *)
Ltac runs_step :=
  match goal with
  | |- runs (bind _ _) => apply runs_bind; [| intros ?]
  | |- runs (if ?b then _ else _) => destruct b eqn:?
  | |- runs (match ?x with _ => _ end) => destruct x eqn:?
  | |- runs _ => solve [auto with runs]
  end.

(** ** The retry loops *)

Lemma runs_fetchUnsplash_loop w query page perPage fuel : forall retries,
  (Z.to_nat (MAX_RETRIES - retries) < fuel)%nat ->
  runs (fetchUnsplash_loop w fuel query page perPage retries).
Proof.
  induction fuel as [|fuel IH]; intros retries Hfuel; [lia|].
  simpl. destruct (retries <? MAX_RETRIES) eqn:Hlt; [|auto with runs].
  apply Z.ltb_lt in Hlt.
  assert (runs (fetchUnsplash_loop w fuel query page perPage (retries + 1)))
    by (apply IH; lia).
  repeat runs_step.
Qed.

Lemma runs_fetchPexels_loop w query page perPage fuel : forall retries,
  (Z.to_nat (MAX_RETRIES - retries) < fuel)%nat ->
  runs (fetchPexels_loop w fuel query page perPage retries).
Proof.
  induction fuel as [|fuel IH]; intros retries Hfuel; [lia|].
  simpl. destruct (retries <? MAX_RETRIES) eqn:Hlt; [|auto with runs].
  apply Z.ltb_lt in Hlt.
  assert (runs (fetchPexels_loop w fuel query page perPage (retries + 1)))
    by (apply IH; lia).
  repeat runs_step.
Qed.

Lemma runs_fetchUnsplash w query page perPage :
  runs (fetchUnsplash w query page perPage).
Proof.
  unfold fetchUnsplash. repeat runs_step.
  apply runs_fetchUnsplash_loop. vm_compute. lia.
Qed.

Lemma runs_fetchPexels w query page perPage :
  runs (fetchPexels w query page perPage).
Proof.
  unfold fetchPexels. repeat runs_step.
  apply runs_fetchPexels_loop. vm_compute. lia.
Qed.

#[local] Hint Resolve runs_fetchUnsplash runs_fetchPexels : runs.

(** *** The retry policy, read off the answers of the world *)

(** The run of either provider's function is determined by the answers to
    the next three requests. *)
Lemma fetchFrom_run w p query page perPage st :
  fetchFrom p w query page perPage st =
    if truthy (keyOf p st)
    then Some (map (convert p query) (firstSuccess (nextAnswers w (requests st))),
               afterRetries w p query page perPage st)
    else Some ([], st).
Proof.
  unfold afterRetries, nextAnswers.
  destruct st as [uk pk pr n files tr].
  destruct p; simpl;
    [unfold fetchUnsplash | unfold fetchPexels];
    unfold bind, gets, retryFuel; simpl;
    match goal with |- context [truthy ?k] => destruct (truthy k) end; simpl;
    try reflexivity;
    unfold bind, httpGet, sleep, emit, modify, ret; simpl;
    destruct (w n) as [ph1|s1]; simpl;
    rewrite ?Nat.add_1_r, <- ?app_assoc; simpl; try reflexivity;
    (destruct (is429 s1) eqn:E1; unfold attemptPauses; rewrite ?E1; simpl;
     destruct (w (S n)) as [ph2|s2]; simpl;
     rewrite <- ?app_assoc; simpl; rewrite ?Nat.add_succ_r, ?Nat.add_0_r;
     try reflexivity;
     destruct (is429 s2) eqn:E2; rewrite ?E2; simpl;
     destruct (w (S (S n))) as [ph3|s3]; simpl;
     rewrite <- ?app_assoc; simpl; rewrite ?Nat.add_succ_r, ?Nat.add_0_r;
     try reflexivity;
     destruct (is429 s3) eqn:E3; rewrite ?E3; simpl;
     rewrite <- ?app_assoc; simpl; rewrite ?app_nil_r; reflexivity).
Qed.

Lemma attemptsMade_bound answers :
  (attemptsMade answers <= length answers)%nat.
Proof.
  induction answers as [|[photos|status] rest IH]; simpl; lia.
Qed.

(** C5 (amended): every failed attempt, rate-limited or not, raises the
    retry counter, and the request is given up (empty result) after
    [MAX_RETRIES] = 3 attempts.  A 429 on attempt [n] is followed by a
    pause of 60 s and then the pause of 2 s x [n]; any other failure on
    attempt [n] < 3 by the pause of 2 s x [n]; a failure of the other kind
    on attempt 3 returns at once.  Both providers' functions follow this
    one policy: a configured provider is asked until the first success,
    three times at most, and the events of the run are the requests, each
    failed one followed by its pauses. *)
Theorem retry_policy w p query page perPage st :
  let answers := nextAnswers w (requests st) in
  fetchFrom p w query page perPage st =
    (if truthy (keyOf p st)
     then Some (map (convert p query) (firstSuccess answers),
                with_requests (requests st + attemptsMade answers)%nat
                  (with_trace
                     (trace st ++ retryEvents (EvGet p query page perPage) 1 answers)
                     st))
     else Some ([], st))
  /\ (attemptsMade answers <= 3)%nat
  /\ (forall n status,
        attemptPauses n status =
          if is429 status then [60000; 2000 * n]
          else if n >=? 3 then [] else [2000 * n]).
Proof.
  split; [apply fetchFrom_run|]. split; [| done].
  pose proof (attemptsMade_bound (nextAnswers w (requests st))) as H.
  unfold nextAnswers in H. by rewrite length_map, length_seq in H.
Qed.

(** ** One page of one query *)

Lemma retryEvents_unsplash_only query page perPage answers : forall attempt,
  Forall (fun e => ~ isPexelsGet e)
         (retryEvents (EvGet unsplash query page perPage) attempt answers).
Proof.
  induction answers as [|[photos|status] rest IH]; intros attempt; simpl.
  - constructor.
  - repeat constructor. simpl. tauto.
  - constructor; [simpl; tauto|].
    apply Forall_app. split; [| apply IH].
    apply List.Forall_forall. intros e He.
    apply in_map_iff in He as (ms & <- & _). simpl. tauto.
Qed.

Lemma retryEvents_head get w n :
  In get (retryEvents get 1 (nextAnswers w n)).
Proof.
  unfold nextAnswers. simpl. destruct (w n); simpl; auto.
Qed.

Lemma retryEvents_cons get w n :
  exists evs, retryEvents get 1 (nextAnswers w n) = get :: evs.
Proof. unfold nextAnswers. simpl. destruct (w n); eauto. Qed.

#[local] Opaque nextAnswers.

Lemma len_map {A B} (f : A -> B) xs : len (map f xs) = len xs.
Proof. unfold len. by rewrite length_map. Qed.

Lemma len_nonneg {A} (xs : list A) : 0 <= len xs.
Proof. unfold len. lia. Qed.

Lemma primaryYield_eq w query page st :
  primaryYield w query page st =
    if truthy (unsplashKey st)
    then len (firstSuccess (nextAnswers w (requests st)))
    else 0.
Proof.
  unfold primaryYield.
  pose proof (fetchFrom_run w unsplash query page 30 st) as Hf.
  unfold fetchFrom, keyOf, convert in Hf. rewrite Hf.
  destruct (truthy (unsplashKey st)); [apply len_map | done].
Qed.

(** "Try Unsplash first": the counters and [completed] grow by what
    Unsplash yielded, and no request goes to Pexels. *)
Lemma unsplashStep_spec w category query page c st :
  let n := primaryYield w query page st in
  exists st1 evs,
    unsplashStep w category query page c st
      = Some (mkCounters (categoryCount c + n) (fetchedForQuery c + n), st1)
    /\ trace st1 = trace st ++ evs
    /\ Forall (fun e => ~ isPexelsGet e) evs
    /\ unsplashKey st1 = unsplashKey st
    /\ pexelsKey st1 = pexelsKey st
    /\ completed (progress st1) = completed (progress st) + n.
Proof.
  rewrite primaryYield_eq. unfold unsplashStep. unfold bind at 1. simpl.
  destruct (truthy (unsplashKey st)) eqn:Hk.
  - unfold bind at 1.
    pose proof (fetchFrom_run w unsplash query page 30 st) as Hf.
    unfold fetchFrom, keyOf, convert in Hf. rewrite Hk in Hf. rewrite Hf, len_map.
    set (photos := firstSuccess _).
    destruct (len photos >? 0) eqn:Hn.
    + unfold bind, pushImages, saveProgress, sleep, emit, writeFile, modify,
        gets, ret, afterRetries; simpl.
      eexists _, _. split; [reflexivity|]. simpl.
      rewrite <- app_assoc, !len_map.
      repeat split; try reflexivity.
      apply Forall_app. split; [apply retryEvents_unsplash_only|].
      repeat constructor. simpl. tauto.
    + assert (len photos = 0) as -> by (pose proof (len_nonneg photos); lia).
      destruct c as [cc fq]. unfold ret, afterRetries. simpl. rewrite !Z.add_0_r.
      eexists _, _. split; [reflexivity|]. simpl.
      repeat split; try reflexivity; try lia. apply retryEvents_unsplash_only.
  - destruct c as [cc fq]. simpl. rewrite !Z.add_0_r.
    exists st, []. rewrite app_nil_r. repeat split; auto; lia.
Qed.

(** "Fallback to Pexels if needed": Pexels is asked exactly when the guard
    of the step holds. *)
Lemma pexelsStep_spec w category query page perQuery targetTotal c st :
  exists c' st' evs,
    pexelsStep w category query page perQuery targetTotal c st = Some (c', st')
    /\ trace st' = trace st ++ evs
    /\ (In (EvGet pexels query page 30) evs <->
        fetchedForQuery c < perQuery /\ pexelsKey st <> EmptyString
        /\ completed (progress st) < targetTotal).
Proof.
  assert (Hkey : truthy (pexelsKey st) = true <-> pexelsKey st <> EmptyString).
  { unfold truthy. rewrite negb_true_iff. apply String.eqb_neq. }
  unfold pexelsStep. unfold bind at 1. simpl. unfold bind at 1. simpl.
  destruct ((fetchedForQuery c <? perQuery) && truthy (pexelsKey st)
            && (completed (progress st) <? targetTotal)) eqn:Hguard.
  - apply andb_true_iff in Hguard as [Hguard Hdone].
    apply andb_true_iff in Hguard as [Hquota Hk].
    unfold bind at 1.
    pose proof (fetchFrom_run w pexels query page 30 st) as Hf.
    unfold fetchFrom, keyOf, convert in Hf. rewrite Hk in Hf. rewrite Hf, len_map.
    assert (Hin : forall rest, In (EvGet pexels query page 30)
              (retryEvents (EvGet pexels query page 30) 1
                 (nextAnswers w (requests st)) ++ rest))
      by (intros; apply in_or_app; left; apply retryEvents_head).
    unfold bind, pushImages, saveProgress, sleep, emit, writeFile, modify,
      gets, ret, afterRetries; simpl.
    destruct (len _ >? 0).
    + eexists _, _, _. split; [reflexivity|]. simpl.
      rewrite <- app_assoc. split; [reflexivity|].
      split; [intros _ | intros _; apply Hin].
      repeat split; [by apply Z.ltb_lt | by apply Hkey | by apply Z.ltb_lt].
    + eexists _, _, _. split; [reflexivity|]. simpl. split; [reflexivity|].
      split; [intros _ | intros _; rewrite <- (app_nil_r (retryEvents _ _ _)); apply Hin].
      repeat split; [by apply Z.ltb_lt | by apply Hkey | by apply Z.ltb_lt].
  - exists c, st, []. rewrite app_nil_r. repeat split; try done.
    intros (Hquota & Hk & Hdone).
    apply Z.ltb_lt in Hquota, Hdone. apply Hkey in Hk.
    rewrite Hquota, Hk, Hdone in Hguard. discriminate.
Qed.

(** C4 (amended): within one pass of the page loop, the secondary provider
    is asked for the page exactly when it is configured and, once the
    primary provider's images for the page (if any) have been counted, the
    per-query quota and the global target are both still unmet.  So a
    non-empty primary answer that leaves the quota unmet is followed by a
    request to the secondary for the same page, and a primary answer that
    fills the quota or the target is not. *)
Theorem secondary_called_iff w category query page perQuery targetTotal c st :
  exists c' st' evs,
    pageBody w category query page perQuery targetTotal c st = Some (c', st')
    /\ trace st' = trace st ++ evs
    /\ (In (EvGet pexels query page 30) evs <->
        fetchedForQuery c + primaryYield w query page st < perQuery
        /\ pexelsKey st <> EmptyString
        /\ completed (progress st) + primaryYield w query page st < targetTotal).
Proof.
  destruct (unsplashStep_spec w category query page c st)
    as (st1 & evs1 & E1 & T1 & NoP & _ & Kp & Done1).
  destruct (pexelsStep_spec w category query page perQuery targetTotal
              (mkCounters (categoryCount c + primaryYield w query page st)
                          (fetchedForQuery c + primaryYield w query page st)) st1)
    as (c2 & st2 & evs2 & E2 & T2 & Iff).
  exists c2, st2, (evs1 ++ evs2).
  split; [unfold pageBody, bind; by rewrite E1 |].
  split; [by rewrite T2, T1, app_assoc |].
  simpl in Iff. rewrite Kp, Done1 in Iff. rewrite <- Iff.
  rewrite in_app_iff. split; [| tauto].
  intros [Hin | Hin]; [| done].
  rewrite List.Forall_forall in NoP.
  apply NoP in Hin. simpl in Hin. tauto.
Qed.

(** ** Deduplication *)

Lemma mapSet_keys {V} k (v : V) m :
  map fst (mapSet k v m) =
    if existsb (String.eqb k) (map fst m) then map fst m else map fst m ++ [k].
Proof.
  induction m as [|[k' v'] m IH]; simpl; [done|].
  rewrite (String.eqb_sym k k').
  destruct (String.eqb k' k) eqn:E; simpl; [done|].
  rewrite IH. by destruct (existsb _ _).
Qed.

Lemma existsb_eqb_In k (ks : list string) :
  existsb (String.eqb k) ks = true <-> In k ks.
Proof.
  rewrite existsb_exists. split.
  - intros (x & Hx & E). apply String.eqb_eq in E. by subst.
  - intros H. exists k. split; [done | apply String.eqb_refl].
Qed.

Lemma mapSet_NoDup {V} k (v : V) m :
  NoDup (map fst m) -> NoDup (map fst (mapSet k v m)).
Proof.
  intros Hnd. rewrite mapSet_keys.
  destruct (existsb _ _) eqn:E; [done|].
  apply NoDup_app. repeat split; [done | | apply NoDup_singleton].
  intros x Hx Hk. apply list_elem_of_In in Hx.
  apply list_elem_of_singleton in Hk. subst x.
  apply existsb_eqb_In in Hx. congruence.
Qed.

Lemma mapSet_In {V} k (v : V) m k' v' :
  NoDup (map fst m) ->
  In (k', v') (mapSet k v m) <->
  (k' = k /\ v' = v) \/ (k' <> k /\ In (k', v') m).
Proof.
  induction m as [|[k0 v0] m IH]; simpl; intros Hnd.
  - split; [intros [[= <- <-]|[]]; auto | intros [[-> ->]|[_ []]]; auto].
  - apply NoDup_cons in Hnd as [Hk0 Hnd].
    destruct (String.eqb k0 k) eqn:E.
    + apply String.eqb_eq in E. subst k0. simpl. split.
      * intros [[= <- <-] | Hin]; [auto|]. right. split; [|auto].
        intros ->. apply Hk0. apply list_elem_of_In.
        apply (in_map fst) in Hin. exact Hin.
      * intros [[-> ->] | [Hne [[= -> _] | Hin]]]; auto. done.
    + apply String.eqb_neq in E. simpl. rewrite IH by done. split.
      * intros [[= <- <-] | [[-> ->] | [Hne Hin]]]; auto.
      * intros [[-> ->] | [Hne [[= <- <-] | Hin]]]; auto.
Qed.

Lemma newMap_snoc {V} (es : list (string * V)) e :
  newMap (es ++ [e]) = mapSet (fst e) (snd e) (newMap es).
Proof. unfold newMap. by rewrite fold_left_app. Qed.

Lemma newMap_NoDup {V} (es : list (string * V)) : NoDup (map fst (newMap es)).
Proof.
  induction es as [|e es IH] using rev_ind; [constructor|].
  rewrite newMap_snoc. by apply mapSet_NoDup.
Qed.

Lemma snoc_split {A} (l l1 l2 : list A) x v :
  l ++ [x] = l1 ++ v :: l2 ->
  (l2 = [] /\ l = l1 /\ v = x) \/ (exists l2', l2 = l2' ++ [x] /\ l = l1 ++ v :: l2').
Proof.
  intros H. destruct l2 as [|y l2 _] using rev_ind.
  - left. apply app_inj_tail in H as [-> ->]. auto.
  - right. exists l2.
    change (l1 ++ v :: l2 ++ [y]) with (l1 ++ (v :: l2) ++ [y]) in H.
    rewrite app_assoc in H. apply app_inj_tail in H as [-> ->]. auto.
Qed.

(** The entries of the map built from [imgs]: each key with the last
    record that carried it. *)
Lemma newMap_last imgs k v :
  In (k, v) (newMap (map (fun img => (img_id img, img)) imgs)) <->
  k = img_id v /\
  exists l1 l2, imgs = l1 ++ v :: l2 /\ ~ In (img_id v) (map img_id l2).
Proof.
  revert k v. induction imgs as [|x imgs IH] using rev_ind; intros k v.
  - simpl. split; [done|]. intros (_ & l1 & l2 & H & _). by destruct l1.
  - rewrite map_app. simpl. rewrite newMap_snoc. simpl.
    rewrite mapSet_In by apply newMap_NoDup. rewrite IH. split.
    + intros [[-> ->] | (Hne & -> & l1 & l2 & -> & Hlast)].
      * split; [done|]. exists imgs, []. simpl. auto.
      * split; [done|]. exists l1, (l2 ++ [x]).
        rewrite <- app_assoc. split; [done|].
        rewrite map_app, in_app_iff. simpl. intros [H | [H | []]]; auto.
    + intros (-> & l1 & l2 & Hsplit & Hlast).
      apply snoc_split in Hsplit as [(-> & -> & ->) | (l2' & -> & ->)]; [auto|].
      right. rewrite map_app, in_app_iff in Hlast. simpl in Hlast.
      split; [intros E; apply Hlast; auto |].
      split; [done|]. exists l1, l2'. split; [done|]. tauto.
Qed.

Lemma uniqueImages_In imgs img :
  In img (uniqueImages imgs) <->
  exists l1 l2, imgs = l1 ++ img :: l2 /\ ~ In (img_id img) (map img_id l2).
Proof.
  unfold uniqueImages. rewrite in_map_iff. split.
  - intros ([k v] & <- & Hin). apply newMap_last in Hin. tauto.
  - intros H. exists (img_id img, img). split; [done|].
    apply newMap_last. auto.
Qed.

Lemma uniqueImages_ids imgs :
  map img_id (uniqueImages imgs) =
  map fst (newMap (map (fun img => (img_id img, img)) imgs)).
Proof.
  unfold uniqueImages. rewrite map_map. apply map_ext_in.
  intros [k v] Hin. apply newMap_last in Hin. simpl. by destruct Hin.
Qed.

Lemma NoDup_map_In_inj {A B} (f : A -> B) (l : list A) a b :
  NoDup (map f l) -> In a l -> In b l -> f a = f b -> a = b.
Proof.
  induction l as [|x l IH]; simpl; [done|].
  intros Hnd Ha Hb E. apply NoDup_cons in Hnd as [Hx Hnd].
  rewrite list_elem_of_In in Hx.
  destruct Ha as [-> | Ha], Hb as [-> | Hb]; auto.
  - exfalso. apply Hx. rewrite E. by apply in_map.
  - exfalso. apply Hx. rewrite <- E. by apply in_map.
Qed.

(** C2 (amended): finalization deduplicates by the raw id alone.  The
    deduplicated list holds one record per id: a record is in it exactly
    when it is the last one accumulated with its id.  Two records with the
    same id are therefore merged whatever their sources: if both are in the
    output they are one and the same record. *)
Theorem dedup_by_raw_id imgs :
  NoDup (map img_id (uniqueImages imgs))
  /\ (forall img,
        In img (uniqueImages imgs) <->
        exists l1 l2, imgs = l1 ++ img :: l2 /\ ~ In (img_id img) (map img_id l2))
  /\ (forall a b,
        In a (uniqueImages imgs) -> In b (uniqueImages imgs) ->
        img_id a = img_id b -> a = b).
Proof.
  assert (Hnd : NoDup (map img_id (uniqueImages imgs)))
    by (rewrite uniqueImages_ids; apply newMap_NoDup).
  split; [done|]. split; [apply uniqueImages_In|].
  intros a b. by apply NoDup_map_In_inj.
Qed.

Lemma mapSet_fresh {V} k (v : V) m :
  ~ In k (map fst m) -> mapSet k v m = m ++ [(k, v)].
Proof.
  induction m as [|[k' v'] m IH]; simpl; intros Hk; [done|].
  destruct (String.eqb k' k) eqn:E.
  - apply String.eqb_eq in E. tauto.
  - rewrite IH; [done | tauto].
Qed.

Lemma newMap_NoDup_id {V} (es : list (string * V)) :
  NoDup (map fst es) -> newMap es = es.
Proof.
  induction es as [|e es IH] using rev_ind; [done|].
  rewrite map_app. intros Hnd. apply NoDup_app in Hnd as (Hes & Hfresh & _).
  rewrite newMap_snoc, IH by done. destruct e as [k v]. simpl.
  apply mapSet_fresh. intros Hin. apply list_elem_of_In in Hin.
  apply (Hfresh k Hin). simpl. apply list_elem_of_singleton. done.
Qed.

(** Deduplicating twice is deduplicating once. *)
Lemma dedup_idempotent imgs :
  uniqueImages (uniqueImages imgs) = uniqueImages imgs.
Proof.
  assert (Hnd : NoDup (map img_id (uniqueImages imgs)))
    by (rewrite uniqueImages_ids; apply newMap_NoDup).
  unfold uniqueImages at 1. rewrite newMap_NoDup_id.
  - rewrite map_map. simpl. apply map_id.
  - by rewrite map_map.
Qed.

(** ** Concrete runs *)

(** C2, counterexample: an Unsplash record and a Pexels record with the
    same id are merged; only the later one is in the deduplicated list. *)
Lemma same_id_different_source_merged :
  img_id unsplashA = img_id pexelsA
  /\ img_source unsplashA <> img_source pexelsA
  /\ uniqueImages [unsplashA; pexelsA] = [pexelsA]
  /\ ~ In unsplashA (uniqueImages [unsplashA; pexelsA]).
Proof.
  repeat split; [done|].
  intros [H | []]. discriminate H.
Qed.

(** C4, counterexample: with both providers configured, Unsplash answers
    page 1 of the first query with 30 images; the quota of the query (38)
    is not yet met, and Pexels is asked for page 1 before page 2 begins. *)
Lemma secondary_called_after_nonempty_primary :
  primaryYield thirtyThenNothing "sofa" 1 (newFetcher "unsplash-key" "pexels-key" ∅) = 30
  /\ exists st',
       fetchAll thirtyThenNothing 800 (newFetcher "unsplash-key" "pexels-key" ∅)
         = Some (tt, st')
       /\ take 6 (trace st') =
            [ EvLogFetching "sofa" 150; EvLogQuery "sofa";
              EvGet unsplash "sofa" 1 30; EvSleep 1100;
              EvGet pexels "sofa" 1 30;
              EvGet unsplash "sofa" 2 30 ].
Proof.
  split; [vm_compute; reflexivity|].
  destruct (fetchAll thirtyThenNothing 800 (newFetcher "unsplash-key" "pexels-key" ∅))
    as [[[] st']|] eqn:E; [| vm_compute in E; discriminate E].
  exists st'. split; [reflexivity|].
  assert (H : option_map (fun r => take 6 (trace (snd r))) (Some (tt, st'))
              = Some [ EvLogFetching "sofa" 150; EvLogQuery "sofa";
                       EvGet unsplash "sofa" 1 30; EvSleep 1100;
                       EvGet pexels "sofa" 1 30;
                       EvGet unsplash "sofa" 2 30 ])
    by (rewrite <- E; vm_compute; reflexivity).
  simpl in H. congruence.
Qed.

(** C5, counterexample: three rate-limit answers use up the three attempts.
    Each 60 s pause is followed by the backoff of 2 s x attempt, the
    success waiting as fourth answer is never requested, and the result is
    empty. *)
Lemma rate_limit_consumes_attempts :
  exists st',
    fetchUnsplash limitedThrice "sofa" 1 30 (newFetcher "unsplash-key" "" ∅)
      = Some ([], st')
    /\ requests st' = 3%nat
    /\ trace st' =
         [ EvGet unsplash "sofa" 1 30; EvSleep 60000; EvSleep 2000;
           EvGet unsplash "sofa" 1 30; EvSleep 60000; EvSleep 4000;
           EvGet unsplash "sofa" 1 30; EvSleep 60000; EvSleep 6000 ].
Proof. eexists. split; [vm_compute; reflexivity|]. split; reflexivity. Qed.

(** ** The files finalize leaves *)

Lemma runs_finalize : runs finalize.
Proof. unfold finalize. repeat runs_step. Qed.

(** ** The loops of fetchAll *)

Lemma runs_pushImages imgs : runs (pushImages imgs).
Proof.
  intros st. eexists tt, _. split; [reflexivity|].
  repeat split. exists []. by rewrite app_nil_r.
Qed.

Lemma runs_setLastCategory name : runs (setLastCategory name).
Proof.
  intros st. eexists tt, _. split; [reflexivity|].
  repeat split. exists []. by rewrite app_nil_r.
Qed.

#[local] Hint Resolve runs_pushImages runs_setLastCategory runs_finalize : runs.

Lemma runs_unsplashStep w category query page c :
  runs (unsplashStep w category query page c).
Proof. unfold unsplashStep. repeat runs_step. Qed.

Lemma runs_pexelsStep w category query page perQuery targetTotal c :
  runs (pexelsStep w category query page perQuery targetTotal c).
Proof. unfold pexelsStep. repeat runs_step. Qed.

Lemma runs_pageBody w category query page perQuery targetTotal c :
  runs (pageBody w category query page perQuery targetTotal c).
Proof.
  unfold pageBody. apply runs_bind; [apply runs_unsplashStep|].
  intros. apply runs_pexelsStep.
Qed.

#[local] Hint Resolve runs_pageBody : runs.

(** The page loop, entered with a page of 1..10, ends within the fuel that
    is left for the pages up to 10. *)
Lemma runs_pageLoop w category query perQuery targetTotal fuel : forall page c,
  1 <= page <= 10 ->
  (Z.to_nat (11 - page) <= fuel)%nat ->
  runs (pageLoop w fuel category query perQuery targetTotal page c).
Proof.
  induction fuel as [|fuel IH]; intros page c Hpage Hfuel; [lia|].
  simpl. apply runs_bind; [apply runs_gets | intros done].
  destruct (_ && _); [| apply runs_ret].
  apply runs_bind; [apply runs_pageBody | intros c'].
  destruct (page + 1 >? 10) eqn:E; [apply runs_ret|].
  apply IH; lia.
Qed.

Lemma runs_queryLoop w category target perQuery targetTotal qs :
  forall categoryCount,
    runs (queryLoop w category target perQuery targetTotal qs categoryCount).
Proof.
  induction qs as [|query qs IH]; intros cc; cbn [queryLoop]; [apply runs_ret|].
  destruct (cc >=? target); [apply runs_ret|].
  apply runs_bind; [apply runs_emit | intros _].
  apply runs_bind; [| intros; apply IH].
  apply runs_pageLoop; [lia | vm_compute; lia].
Qed.

Lemma runs_categoryLoop w targetTotal cats : runs (categoryLoop w targetTotal cats).
Proof.
  induction cats as [|cfg cats IH]; cbn [categoryLoop]; [apply runs_ret|].
  apply runs_bind; [apply runs_gets | intros last].
  destruct (skipCategory last (category cfg)); [exact IH|].
  apply runs_bind; [apply runs_emit | intros _].
  apply runs_bind; [apply runs_queryLoop | intros _].
  repeat runs_step.
Qed.

(** [fetchAll] always comes to its end: no loop of the model runs out of
    fuel, whatever the providers answer. *)
Lemma runs_fetchAll w targetTotal : runs (fetchAll w targetTotal).
Proof.
  unfold fetchAll.
  apply runs_bind; [apply runs_loadProgress | intros _].
  apply runs_bind; [apply runs_categoryLoop | intros _].
  apply runs_finalize.
Qed.

(** ** Resuming from a checkpoint *)

Lemma startsWith_bind {A B} pre (m : M A) (f : A -> M B) st :
  startsWith pre m st -> (forall a, runs (f a)) -> startsWith pre (bind m f) st.
Proof.
  intros (a & st1 & evs & E & T) Hf.
  destruct (Hf a st1) as (b & st2 & E2 & _ & _ & evs2 & T2).
  exists b, st2, (evs ++ evs2). unfold bind. rewrite E. split; [done|].
  by rewrite T2, T, <- !app_assoc.
Qed.

Lemma startsWith_gets {A B} (f : State -> A) pre (k : A -> M B) st :
  startsWith pre (k (f st)) st -> startsWith pre (bind (gets f) k) st.
Proof. done. Qed.

Lemma startsWith_emit {B} e pre (k : unit -> M B) st :
  startsWith pre (k tt) (with_trace (trace st ++ [e]) st) ->
  startsWith (e :: pre) (bind (emit e) k) st.
Proof.
  intros (a & st' & evs & E & T). exists a, st', evs. split; [done|].
  rewrite T. simpl. by rewrite <- app_assoc.
Qed.

Lemma startsWith_modify {B} (f : State -> State) pre (k : unit -> M B) st :
  trace (f st) = trace st ->
  startsWith pre (k tt) (f st) -> startsWith pre (bind (modify f) k) st.
Proof.
  intros Hf (a & st' & evs & E & T). exists a, st', evs. split; [done|].
  by rewrite T, Hf.
Qed.

Lemma fetch_startsWith w p query page perPage st :
  truthy (keyOf p st) = true ->
  startsWith [EvGet p query page perPage] (fetchFrom p w query page perPage) st.
Proof.
  intros Hk. unfold startsWith. rewrite fetchFrom_run, Hk.
  destruct (retryEvents_cons (EvGet p query page perPage) w (requests st))
    as (evs & Hevs).
  eexists _, _, evs. split; [reflexivity|].
  unfold afterRetries. simpl. by rewrite Hevs.
Qed.

(** A pass of the page loop made with quota and target unmet begins with a
    request to the first configured provider. *)
Lemma pageBody_first_request w category query page perQuery targetTotal c st :
  fetchedForQuery c < perQuery ->
  completed (progress st) < targetTotal ->
  truthy (unsplashKey st) = true \/ truthy (pexelsKey st) = true ->
  startsWith [EvGet (firstProvider (unsplashKey st)) query page 30]
             (pageBody w category query page perQuery targetTotal c) st.
Proof.
  intros Hquota Hdone Hkey. unfold firstProvider.
  destruct (truthy (unsplashKey st)) eqn:Hu.
  - unfold pageBody.
    apply startsWith_bind; [| intros; apply runs_pexelsStep].
    unfold unsplashStep. apply startsWith_gets. rewrite Hu.
    apply startsWith_bind; [| intros; repeat runs_step].
    by apply (fetch_startsWith w unsplash).
  - destruct Hkey as [Hkey | Hp]; [discriminate|].
    assert (Hskip : pageBody w category query page perQuery targetTotal c st
                    = pexelsStep w category query page perQuery targetTotal c st)
      by (unfold pageBody, unsplashStep, bind, gets; by rewrite Hu).
    unfold startsWith. rewrite Hskip. fold (startsWith (A := Counters)).
    unfold pexelsStep. do 2 apply startsWith_gets.
    apply Z.ltb_lt in Hquota, Hdone. rewrite Hquota, Hp, Hdone. simpl.
    apply startsWith_bind; [| intros; repeat runs_step].
    by apply (fetch_startsWith w pexels).
Qed.

Lemma pageLoop_first_request w category query perQuery targetTotal cc fuel st :
  (9 <= fuel)%nat ->
  0 < perQuery ->
  completed (progress st) < targetTotal ->
  truthy (unsplashKey st) = true \/ truthy (pexelsKey st) = true ->
  startsWith [EvGet (firstProvider (unsplashKey st)) query 1 30]
             (pageLoop w (S fuel) category query perQuery targetTotal 1
                       (mkCounters cc 0)) st.
Proof.
  intros Hfuel Hquota Hdone Hkey.
  cbn [pageLoop]. apply startsWith_gets. cbn [fetchedForQuery].
  apply Z.ltb_lt in Hquota as Hq. apply Z.ltb_lt in Hdone as Hd.
  rewrite Hq, Hd. simpl andb.
  apply startsWith_bind; [by apply pageBody_first_request|].
  intros c'. change (1 + 1 >? 10) with false.
  apply runs_pageLoop; lia.
Qed.

(** The categories before [cfg] are skipped, [cfg] itself is not. *)
Lemma categoryLoop_reaches w targetTotal pre cfg rest query qs st :
  Forall (fun c => skipCategory (lastCategory (progress st)) (category c) = true)
         pre ->
  skipCategory (lastCategory (progress st)) (category cfg) = false ->
  queries cfg = query :: qs ->
  0 < target cfg ->
  0 < ceilDiv (target cfg) (len (queries cfg)) ->
  completed (progress st) < targetTotal ->
  truthy (unsplashKey st) = true \/ truthy (pexelsKey st) = true ->
  startsWith [ EvLogFetching (category cfg) (target cfg); EvLogQuery query;
               EvGet (firstProvider (unsplashKey st)) query 1 30 ]
             (categoryLoop w targetTotal (pre ++ cfg :: rest)) st.
Proof.
  intros Hpre Hcfg Hq Htarget Hquota Hdone Hkey.
  induction Hpre as [|c pre Hc _ IH]; cbn [app categoryLoop].
  - apply startsWith_gets. rewrite Hcfg.
    apply startsWith_emit.
    apply startsWith_bind; [| intros; repeat runs_step; apply runs_categoryLoop].
    rewrite Hq at 2. cbn [queryLoop].
    assert ((0 >=? target cfg) = false) as ->
      by (rewrite Z.geb_leb; apply Z.leb_gt; lia).
    apply startsWith_emit.
    apply startsWith_bind; [| intros; apply runs_queryLoop].
    change pageFuel with (S 9).
    match goal with |- startsWith _ _ ?st2 =>
      change (unsplashKey st) with (unsplashKey st2)
    end.
    apply pageLoop_first_request; [lia | done | exact Hdone | exact Hkey].
  - apply startsWith_gets. by rewrite Hc.
Qed.

(** Where each category stands in the fixed order. *)
Lemma furniture_split cfg :
  In cfg FURNITURE_CATEGORIES ->
  exists pre rest query qs,
    FURNITURE_CATEGORIES = pre ++ cfg :: rest
    /\ Forall (fun c => skipCategory (category cfg) (category c) = true) pre
    /\ skipCategory (category cfg) (category cfg) = false
    /\ queries cfg = query :: qs
    /\ 0 < target cfg
    /\ 0 < ceilDiv (target cfg) (len (queries cfg)).
Proof.
  intros H.
  assert (Hi : exists i, FURNITURE_CATEGORIES !! i = Some cfg)
    by (by apply list_elem_of_lookup, list_elem_of_In).
  destruct Hi as [i Hi].
  exists (take i FURNITURE_CATEGORIES), (drop (S i) FURNITURE_CATEGORIES).
  do 10 (destruct i as [|i];
         [ injection Hi as <-; eexists _, _;
           repeat split; try reflexivity; repeat constructor |]).
  discriminate Hi.
Qed.

(** C1, what the code does: restarted from a checkpoint whose
    [lastCategory] is category C of the fixed order, with the target not
    yet reached, the run skips the categories before C but not C itself: it
    announces C again and re-issues C's first query from page 1 to the
    first configured provider. *)
Theorem last_completed_category_refetched w uk pk disk ckpt targetTotal cfg :
  In cfg FURNITURE_CATEGORIES ->
  disk !! PROGRESS_FILE = Some (ProgressJson ckpt) ->
  lastCategory ckpt = category cfg ->
  completed ckpt < targetTotal ->
  uk <> EmptyString \/ pk <> EmptyString ->
  exists st' query evs,
    head (queries cfg) = Some query
    /\ fetchAll w targetTotal (newFetcher uk pk disk) = Some (tt, st')
    /\ trace st' =
         [ EvLogFetching (category cfg) (target cfg); EvLogQuery query;
           EvGet (firstProvider uk) query 1 30 ] ++ evs.
Proof.
  intros Hin Hdisk Hlast Hdone Hkeys.
  destruct (furniture_split cfg Hin)
    as (pre & rest & query & qs & Hsplit & Hpre & Hcfg & Hq & Htarget & Hquota).
  assert (Hstart :
    startsWith [ EvLogFetching (category cfg) (target cfg); EvLogQuery query;
                 EvGet (firstProvider uk) query 1 30 ]
               (fetchAll w targetTotal) (newFetcher uk pk disk)).
  { unfold fetchAll, loadProgress.
    apply startsWith_modify; cbn [newFetcher fs]; rewrite Hdisk; [done|].
    apply startsWith_bind; [| intros; apply runs_finalize].
    rewrite Hsplit.
    apply categoryLoop_reaches with (qs := qs); simpl;
      rewrite ?Hlast; try done.
    unfold truthy. rewrite !negb_true_iff, !String.eqb_neq. exact Hkeys. }
  destruct Hstart as ([] & st' & evs & E & T).
  exists st', query, evs. rewrite Hq. by repeat split.
Qed.

(** The run of the interrupted-resume scenario. *)
Lemma last_completed_category_refetched_witness :
  exists st' query evs,
    head ["sofa"; "couch"; "sectional"; "loveseat"]%string = Some query
    /\ fetchAll nothingFound 800 (newFetcher "unsplash-key" "" sofaDone)
         = Some (tt, st')
    /\ trace st' =
         [ EvLogFetching "sofa" 150; EvLogQuery query;
           EvGet unsplash query 1 30 ] ++ evs.
Proof.
  apply (last_completed_category_refetched nothingFound "unsplash-key" ""
           sofaDone (mkProgress 15 "sofa" []) 800
           (mkCategory "sofa" ["sofa"; "couch"; "sectional"; "loveseat"] 150)).
  - left. reflexivity.
  - reflexivity.
  - reflexivity.
  - reflexivity.
  - left. discriminate.
Defined.


(** C3, what the code does: the combined catalog is written to
    [OUTPUT_FILE], and as soon as the deduplicated list holds an Unsplash
    image the Unsplash-only catalog is written to the same path.  The file
    left there holds the Unsplash images only; every Pexels image of the
    deduplicated list is missing from it. *)
Theorem combined_file_overwritten st :
  let unique := uniqueImages (images (progress st)) in
  List.filter isUnsplash unique <> [] ->
  exists st' written,
    finalize st = Some (tt, st')
    /\ fs st' !! OUTPUT_FILE = Some (CatalogJson written)
    /\ cat_images written = List.filter isUnsplash unique
    /\ totalImages (meta written) = len unique
    /\ forall img, In img unique -> img_source img = pexels ->
                   ~ In img (cat_images written).
Proof.
  intros unique Hne.
  assert (Hpos : (len (List.filter isUnsplash unique) >? 0) = true).
  { destruct (List.filter isUnsplash unique); [done|].
    unfold len. simpl. apply Z.gtb_lt. lia. }
  unfold finalize, bind, gets. simpl. fold unique. rewrite Hpos.
  destruct (len (List.filter isPexels unique) >? 0);
    (eexists _, _; split; [reflexivity|]; simpl;
     split;
     [ rewrite lookup_delete_ne by done;
       rewrite ?(lookup_insert_ne _ PEXELS_OUTPUT) by done;
       apply lookup_insert_eq
     | simpl; repeat split; try done;
       intros img _ Hsrc Hin; apply filter_In in Hin as [_ Hu];
       unfold isUnsplash in Hu; by rewrite Hsrc in Hu ]).
Qed.

(** The run of [finalize] on one Unsplash and one Pexels image. *)
Lemma combined_file_overwritten_witness :
  exists st' written,
    finalize (with_progress (mkProgress 2 "sofa" [unsplashA; pexelsB])
                            (newFetcher "unsplash-key" "pexels-key" ∅))
      = Some (tt, st')
    /\ fs st' !! OUTPUT_FILE = Some (CatalogJson written)
    /\ cat_images written = [unsplashA]
    /\ totalImages (meta written) = 2
    /\ forall img, In img [unsplashA; pexelsB] -> img_source img = pexels ->
                   ~ In img (cat_images written).
Proof.
  apply (combined_file_overwritten
           (with_progress (mkProgress 2 "sofa" [unsplashA; pexelsB])
                          (newFetcher "unsplash-key" "pexels-key" ∅))).
  simpl. discriminate.
Defined.

(** ** What a run may do *)

Lemma findIndexFrom_ge cs name : forall i, -1 <= i -> -1 <= findIndexFrom i cs name.
Proof.
  induction cs as [|c cs IH]; intros i Hi; simpl; [lia|].
  destruct (String.eqb (category c) name); [lia | apply IH; lia].
Qed.

Lemma findIndex_ge name : -1 <= findIndex name.
Proof. apply findIndexFrom_ge. lia. Qed.

(** A category the current checkpoint does not skip is not skipped by an
    earlier one either. *)
Lemma not_skipped_earlier last0 last c :
  findIndex last0 <= findIndex last ->
  skipCategory last c = false ->
  findIndex last <= findIndex c /\ skipCategory last0 c = false.
Proof.
  unfold skipCategory. intros Hle Hskip.
  assert (Hc : findIndex last <= findIndex c).
  { apply andb_false_iff in Hskip as [Hempty | Hgt].
    - unfold truthy in Hempty. apply negb_false_iff, String.eqb_eq in Hempty.
      subst last. pose proof (findIndex_ge c). change (findIndex "") with (-1). lia.
    - rewrite Z.gtb_ltb in Hgt. apply Z.ltb_ge in Hgt. lia. }
  split; [done|]. apply andb_false_iff. right.
  rewrite Z.gtb_ltb. apply Z.ltb_ge. lia.
Qed.

Lemma configured_keys st st' e :
  unsplashKey st' = unsplashKey st -> pexelsKey st' = pexelsKey st ->
  configured st' e -> configured st e.
Proof. intros Hu Hp. destruct e as [[] ? ? ?| | |]; simpl; congruence. Qed.

Lemma advances_refl E I st : advances 0 E I st st.
Proof.
  split; try done; try lia.
  - exists []. by rewrite app_nil_r.
  - exists []. rewrite app_nil_r. unfold len. simpl. split; [done|]. split; [lia | done].
Qed.

Lemma advances_trans n1 n2 E I st1 st2 st3 :
  advances n1 E I st1 st2 -> advances n2 E I st2 st3 ->
  advances (n1 + n2) E I st1 st3.
Proof.
  intros [Hu1 Hp1 Hr1 (e1 & He1 & HE1 & HC1) (a1 & Ha1 & Hc1 & HI1) Hf1 Hs1]
         [Hu2 Hp2 Hr2 (e2 & He2 & HE2 & HC2) (a2 & Ha2 & Hc2 & HI2) Hf2 Hs2].
  split; try congruence; try lia; auto.
  - exists (e1 ++ e2). rewrite He2, He1, app_assoc. split; [done|].
    split; [apply Forall_app; by split|].
    apply Forall_app. split; [done|].
    eapply Forall_impl; [exact HC2|]. intros e. by apply configured_keys.
  - exists (a1 ++ a2). rewrite Ha2, Ha1, Hc2, Hc1, app_assoc.
    split; [done|]. split; [| by apply Forall_app].
    unfold len. rewrite length_app. lia.
  - intros path Hpath. rewrite Hf2, Hf1; done.
Qed.

Lemma advances_weaken n n' (E E' : Event -> Prop) (I I' : ImageMetadata -> Prop) st st' :
  (n <= n')%nat -> (forall e, E e -> E' e) -> (forall img, I img -> I' img) ->
  advances n E I st st' -> advances n' E' I' st st'.
Proof.
  intros Hn HE HI [Hu Hp Hr (evs & He & HEs & HC) (added & Ha & Hc & HIs) Hf Hs].
  split; try done; try lia.
  - exists evs. split; [done|]. split; [| done].
    eapply Forall_impl; [exact HEs | exact HE].
  - exists added. split; [done|]. split; [done|].
    eapply Forall_impl; [exact HIs | exact HI].
Qed.

Lemma leads_ret {A} n E I (a : A) st : leads (advances n E I) (ret a) st.
Proof.
  exists a, st. split; [done|].
  eapply advances_weaken; [| | | apply advances_refl]; eauto. lia.
Qed.

Lemma leads_bind {A B} n1 n2 E I (m : M A) (f : A -> M B) st :
  leads (advances n1 E I) m st ->
  (forall a st1, m st = Some (a, st1) -> advances n1 E I st st1 ->
                 leads (advances n2 E I) (f a) st1) ->
  leads (advances (n1 + n2) E I) (bind m f) st.
Proof.
  intros (a & st1 & Hm & H1) Hf.
  destruct (Hf a st1 Hm H1) as (b & st2 & Hk & H2).
  exists b, st2. split; [unfold bind; by rewrite Hm|].
  by eapply advances_trans.
Qed.

Lemma leads_weaken {A} n n' (E E' : Event -> Prop) (I I' : ImageMetadata -> Prop)
    (m : M A) st :
  (n <= n')%nat -> (forall e, E e -> E' e) -> (forall img, I img -> I' img) ->
  leads (advances n E I) m st -> leads (advances n' E' I') m st.
Proof.
  intros Hn HE HI (a & st' & Hm & H). exists a, st'. split; [done|].
  by eapply advances_weaken.
Qed.

Lemma leads_budget {A} n n' E I (m : M A) st :
  (n <= n')%nat -> leads (advances n E I) m st -> leads (advances n' E I) m st.
Proof. intros Hn. by apply leads_weaken. Qed.

Lemma leads_gets {A B} R (f : State -> A) (k : A -> M B) st :
  leads R (k (f st)) st -> leads R (bind (gets f) k) st.
Proof. done. Qed.

(** *** One request, with its retries *)

Lemma retryEvents_Forall (P : Event -> Prop) get answers : forall attempt,
  1 <= attempt -> attempt + len answers <= 4 ->
  P get -> (forall ms, In ms PAUSES -> P (EvSleep ms)) ->
  Forall P (retryEvents get attempt answers).
Proof.
  induction answers as [|[photos|status] rest IH]; intros attempt H1 H4 Hget Hsleep;
    simpl; [constructor | by repeat constructor |].
  unfold len in *. simpl length in H4.
  constructor; [done|]. apply Forall_app. split; [| apply IH; auto; lia].
  assert (Hn : attempt = 1 \/ attempt = 2 \/ attempt = 3) by lia.
  unfold attemptPauses.
  destruct (is429 status); destruct Hn as [-> | [-> | ->]]; simpl;
    repeat constructor; apply Hsleep; simpl; auto 10.
Qed.

Lemma length_nextAnswers w n : length (nextAnswers w n) = 3%nat.
Proof.
  with_strategy transparent [nextAnswers] (unfold nextAnswers).
  by rewrite length_map, length_seq.
Qed.

(** A request for a page of 1..10: at most three attempts if the provider
    has a key and none otherwise; progress and disk are as before. *)
Lemma fetchFrom_advances I w p query page st :
  1 <= page <= 10 ->
  exists photos st',
    fetchFrom p w query page 30 st = Some (map (convert p query) photos, st')
    /\ advances (if truthy (keyOf p st) then 3 else 0) (queryEvent [query]) I st st'.
Proof.
  intros Hpage. rewrite fetchFrom_run.
  destruct (truthy (keyOf p st)) eqn:Hk.
  - eexists _, _. split; [reflexivity|].
    pose proof (attemptsMade_bound (nextAnswers w (requests st))) as Hn.
    rewrite length_nextAnswers in Hn.
    unfold afterRetries. split; simpl; try done; try lia.
    + eexists. split; [reflexivity|].
      split; apply retryEvents_Forall; try lia;
        try (unfold len; rewrite length_nextAnswers; lia); simpl; auto.
      unfold truthy in Hk. apply negb_true_iff, String.eqb_neq in Hk. done.
    + exists []. rewrite app_nil_r. unfold len. simpl. split; [done|]. split; [lia | done].
  - exists [], st. split; [done | apply advances_refl].
Qed.

(** Storing a batch: the records are appended and counted, the checkpoint
    is written, the run pauses. *)
Lemma store_advances {A} (E : Event -> Prop) (I : ImageMetadata -> Prop) imgs (x : A) st :
  E (EvSleep RATE_LIMIT_DELAY) -> Forall I imgs ->
  leads (advances 0 E I)
        (bind (pushImages imgs) (fun _ =>
           bind saveProgress (fun _ =>
             bind (sleep RATE_LIMIT_DELAY) (fun _ => ret x)))) st.
Proof.
  intros HE HI. eexists _, _. split; [reflexivity|].
  split; simpl; try done; try lia.
  - exists [EvSleep RATE_LIMIT_DELAY]. split; [done|]. split; by repeat constructor.
  - by exists imgs.
  - intros path Hpath. by apply lookup_insert_ne.
  - intros _. apply lookup_insert_eq.
Qed.

Lemma pause_expected qs : queryEvent qs (EvSleep RATE_LIMIT_DELAY).
Proof. simpl. auto. Qed.

Lemma converted_storedUnder p category query photos :
  Forall (storedUnder [category])
         (map (overrideCategory category) (map (convert p query) photos)).
Proof.
  apply List.Forall_forall. intros img Hin.
  apply in_map_iff in Hin as (img' & <- & Hin).
  apply in_map_iff in Hin as (ph & <- & _).
  split; [by left | by destruct p].
Qed.

Lemma unsplashStep_advances w category query page c st :
  1 <= page <= 10 ->
  leads (advances (if truthy (unsplashKey st) then 3 else 0)
                  (queryEvent [query]) (storedUnder [category]))
        (unsplashStep w category query page c) st.
Proof.
  intros Hpage. unfold unsplashStep. apply leads_gets.
  destruct (truthy (unsplashKey st)) eqn:Hk; [| apply leads_ret].
  destruct (fetchFrom_advances (storedUnder [category]) w unsplash query page st Hpage)
    as (photos & st1 & Hf & Hadv).
  simpl in Hf, Hadv. rewrite Hk in Hadv.
  change 3%nat with (3 + 0)%nat. apply leads_bind; [by eexists _, _|].
  intros imgs st1' Hrun _. rewrite Hf in Hrun. injection Hrun as <- <-.
  destruct (len _ >? 0); [| apply leads_ret].
  apply store_advances; [apply pause_expected|].
  apply (converted_storedUnder unsplash).
Qed.

Lemma pexelsStep_advances w category query page perQuery targetTotal c st :
  1 <= page <= 10 ->
  leads (advances (if truthy (pexelsKey st) then 3 else 0)
                  (queryEvent [query]) (storedUnder [category]))
        (pexelsStep w category query page perQuery targetTotal c) st.
Proof.
  intros Hpage. unfold pexelsStep. do 2 apply leads_gets.
  destruct (_ && _ && _); [| apply leads_ret].
  destruct (fetchFrom_advances (storedUnder [category]) w pexels query page st Hpage)
    as (photos & st1 & Hf & Hadv).
  simpl in Hf, Hadv.
  apply leads_budget with (n := ((if truthy (pexelsKey st) then 3 else 0) + 0)%nat);
    [lia|].
  apply leads_bind; [by eexists _, _|].
  intros imgs st1' Hrun _. rewrite Hf in Hrun. injection Hrun as <- <-.
  destruct (len _ >? 0); [| apply leads_ret].
  apply store_advances; [apply pause_expected|].
  apply (converted_storedUnder pexels).
Qed.

Lemma providers_keys st st' :
  unsplashKey st' = unsplashKey st -> pexelsKey st' = pexelsKey st ->
  providers st' = providers st.
Proof. unfold providers. by intros -> ->. Qed.

Lemma pageBody_advances w category query page perQuery targetTotal c st :
  1 <= page <= 10 ->
  leads (advances (3 * providers st) (queryEvent [query]) (storedUnder [category]))
        (pageBody w category query page perQuery targetTotal c) st.
Proof.
  intros Hpage. unfold pageBody.
  apply leads_budget with
    (n := ((if truthy (unsplashKey st) then 3 else 0)
           + (if truthy (pexelsKey st) then 3 else 0))%nat);
    [unfold providers; destruct (truthy _), (truthy _); lia|].
  apply leads_bind; [by apply unsplashStep_advances|].
  intros c1 st1 _ Hadv. rewrite <- (adv_pexelsKey _ _ _ _ _ Hadv).
  by apply pexelsStep_advances.
Qed.

Lemma pageLoop_advances w category query perQuery targetTotal fuel :
  forall page c st,
    1 <= page <= 10 ->
    (Z.to_nat (11 - page) <= fuel)%nat ->
    leads (advances (3 * providers st * Z.to_nat (11 - page))
                    (queryEvent [query]) (storedUnder [category]))
          (pageLoop w fuel category query perQuery targetTotal page c) st.
Proof.
  induction fuel as [|fuel IH]; intros page c st Hpage Hfuel; [lia|].
  cbn [pageLoop]. apply leads_gets.
  destruct (_ && _); [| apply leads_ret].
  apply leads_budget with
    (n := (3 * providers st + 3 * providers st * Z.to_nat (11 - (page + 1)))%nat);
    [nia|].
  apply leads_bind; [by apply pageBody_advances|].
  intros c' st1 _ Hadv.
  rewrite <- (providers_keys st st1)
    by (eapply adv_unsplashKey || eapply adv_pexelsKey; exact Hadv).
  destruct (page + 1 >? 10) eqn:E.
  - apply leads_ret.
  - rewrite Z.gtb_ltb in E. apply Z.ltb_ge in E. apply IH; lia.
Qed.

Lemma emit_advances E I e st :
  E e -> configured st e -> leads (advances 0 E I) (emit e) st.
Proof.
  intros HE HC. eexists tt, _. split; [reflexivity|].
  split; simpl; try done; try lia.
  - exists [e]. split; [done|]. split; by repeat constructor.
  - exists []. rewrite app_nil_r. unfold len. simpl. split; [done|]. split; [lia | done].
Qed.

Lemma queryEvent_incl qs qs' e :
  (forall q, In q qs -> In q qs') -> queryEvent qs e -> queryEvent qs' e.
Proof. intros Hincl. destruct e; simpl; intuition auto. Qed.

Lemma queryLoop_advances w category target perQuery targetTotal qs :
  forall cc st,
    leads (advances (30 * providers st * length qs)
                    (queryEvent qs) (storedUnder [category]))
          (queryLoop w category target perQuery targetTotal qs cc) st.
Proof.
  induction qs as [|query qs IH]; intros cc st; cbn [queryLoop]; [apply leads_ret|].
  destruct (cc >=? target); [apply leads_ret|].
  apply leads_budget with
    (n := (0 + (30 * providers st + 30 * providers st * length qs))%nat);
    [simpl; lia|].
  apply leads_bind; [apply emit_advances; simpl; auto|].
  intros _ st1 _ Hadv1.
  assert (Hk1 : providers st1 = providers st)
    by (apply providers_keys; [eapply adv_unsplashKey | eapply adv_pexelsKey]; exact Hadv1).
  apply leads_bind.
  - eapply leads_weaken with (E := queryEvent [query]) (I := storedUnder [category]);
      [| | | apply pageLoop_advances; [lia | vm_compute; lia]].
    + rewrite Hk1. change (Z.to_nat (11 - 1)) with 10%nat. lia.
    + intros e. apply queryEvent_incl. intros q [<- | []]. by left.
    + done.
  - intros cc' st2 _ Hadv2.
    assert (Hk2 : providers st2 = providers st1)
      by (apply providers_keys; [eapply adv_unsplashKey | eapply adv_pexelsKey]; exact Hadv2).
    eapply leads_weaken; [| | | apply IH].
    + rewrite Hk2, Hk1. lia.
    + intros e. apply queryEvent_incl. intros q Hq. by right.
    + done.
Qed.

Lemma remaining_incl last cfg cats c :
  In c (remaining last cats) -> In c (remaining last (cfg :: cats)).
Proof.
  unfold remaining. simpl. destruct (negb _); simpl; auto.
Qed.

Lemma expected_incl cats cats' e :
  (forall c, In c cats -> In c cats') -> expected cats e -> expected cats' e.
Proof.
  intros Hincl.
  assert (Hq : forall q, In q (flat_map queries cats) -> In q (flat_map queries cats')).
  { intros q Hq. apply in_flat_map in Hq as (c & Hc & Hq).
    apply in_flat_map. eauto. }
  destruct e as [p q page perPage | ms | c tgt | q]; simpl;
    [intuition auto | done | | auto].
  intros (cfg & Hcfg & H). eauto.
Qed.

Lemma queryEvent_expected cfg cats e :
  In cfg cats -> queryEvent (queries cfg) e -> expected cats e.
Proof.
  intros Hin.
  assert (Hq : forall q, In q (queries cfg) -> In q (flat_map queries cats))
    by (intros q Hq; apply in_flat_map; eauto).
  destruct e; simpl; intuition auto.
Qed.

(** The end of a category: [lastCategory] is set and the checkpoint
    written. *)
Lemma setLastCategory_advances {A} n E I c (k : unit -> M A) st :
  (forall st1, advances 0 E I st st1 -> lastCategory (progress st1) = c ->
               leads (advances n E I) (k tt) st1) ->
  leads (advances n E I)
        (bind (setLastCategory c) (fun _ => bind saveProgress k)) st.
Proof.
  intros Hk.
  set (st1 := with_fs (<[PROGRESS_FILE :=
                ProgressJson (mkProgress (completed (progress st)) c
                                         (images (progress st)))]> (fs st))
                (with_progress (mkProgress (completed (progress st)) c
                                           (images (progress st))) st)).
  assert (Hadv : advances 0 E I st st1).
  { split; simpl; try done; try lia.
    - exists []. by rewrite app_nil_r.
    - exists []. rewrite app_nil_r. unfold len. simpl. split; [done|]. split; [lia | done].
    - intros path Hpath. by apply lookup_insert_ne.
    - intros _. apply lookup_insert_eq. }
  destruct (Hk st1 Hadv eq_refl) as (a & st2 & Hrun & Hadv2).
  exists a, st2. split; [exact Hrun|].
  change n with (0 + n)%nat. by eapply advances_trans.
Qed.

Lemma categoryLoop_advances w targetTotal last0 cats :
  forall st,
    findIndex last0 <= findIndex (lastCategory (progress st)) ->
    leads (advances (30 * providers st * length (flat_map queries cats))
                    (expected (remaining last0 cats))
                    (storedUnder (map category cats)))
          (categoryLoop w targetTotal cats) st.
Proof.
  induction cats as [|cfg cats IH]; intros st Hlast; cbn [categoryLoop];
    [apply leads_ret|].
  assert (Hstored : forall img, storedUnder (map category cats) img ->
                      storedUnder (map category (cfg :: cats)) img)
    by (intros img [Hc Hl]; split; [by right | done]).
  assert (Hlen : (length (flat_map queries (cfg :: cats))
                  = length (queries cfg) + length (flat_map queries cats))%nat)
    by (simpl; apply length_app).
  apply leads_gets.
  destruct (skipCategory _ (category cfg)) eqn:Hskip.
  - eapply leads_weaken; [| | | apply IH; exact Hlast].
    + rewrite Hlen. nia.
    + intros e. apply expected_incl. intros c. apply remaining_incl.
    + exact Hstored.
  - destruct (not_skipped_earlier _ _ _ Hlast Hskip) as [Hc Hskip0].
    assert (Hrem : remaining last0 (cfg :: cats) = cfg :: remaining last0 cats)
      by (unfold remaining; simpl; by rewrite Hskip0).
    rewrite Hrem.
    apply leads_budget with
      (n := (0 + (30 * providers st * length (queries cfg)
                  + 30 * providers st * length (flat_map queries cats)))%nat);
      [rewrite Hlen; lia|].
    apply leads_bind;
      [apply emit_advances; simpl; [exists cfg; split; [by left | done] | done]|].
    intros _ st1 _ Hadv1.
    assert (Hk1 : providers st1 = providers st)
      by (apply providers_keys; [eapply adv_unsplashKey | eapply adv_pexelsKey]; exact Hadv1).
    apply leads_bind.
    + eapply leads_weaken; [| | | apply queryLoop_advances].
      * rewrite Hk1. lia.
      * intros e. apply queryEvent_expected. by left.
      * intros img [Hi Hl]. split; [| done].
        destruct Hi as [<- | []]. by left.
    + intros cc st2 _ Hadv2.
      assert (Hk2 : providers st2 = providers st)
        by (rewrite <- Hk1; apply providers_keys;
            [eapply adv_unsplashKey | eapply adv_pexelsKey]; exact Hadv2).
      apply setLastCategory_advances. intros st3 Hadv3 Hlast3.
      assert (Hk3 : providers st3 = providers st)
        by (rewrite <- Hk2; apply providers_keys;
            [eapply adv_unsplashKey | eapply adv_pexelsKey]; exact Hadv3).
      apply leads_gets. destruct (_ >=? targetTotal); [apply leads_ret|].
      eapply leads_weaken; [| | | apply IH].
      * rewrite Hk3. lia.
      * intros e. apply expected_incl. intros c Hin. by right.
      * exact Hstored.
      * rewrite Hlast3. lia.
Qed.

(** *** The whole run *)

Lemma resumed_keys st :
  unsplashKey (resumed st) = unsplashKey st
  /\ pexelsKey (resumed st) = pexelsKey st
  /\ requests (resumed st) = requests st
  /\ trace (resumed st) = trace st
  /\ fs (resumed st) = fs st.
Proof. unfold resumed. by destruct (fs st !! PROGRESS_FILE) as [[p|c]|]. Qed.

Lemma fetchLoops_resumed w targetTotal st :
  fetchLoops w targetTotal st
  = categoryLoop w targetTotal FURNITURE_CATEGORIES (resumed st).
Proof. reflexivity. Qed.

Lemma fetchAll_resumed w targetTotal st :
  fetchAll w targetTotal st
  = bind (categoryLoop w targetTotal FURNITURE_CATEGORIES) (fun _ => finalize)
         (resumed st).
Proof. reflexivity. Qed.

Lemma filter_split_length {A} (p q : A -> bool) l :
  (forall x, q x = negb (p x)) ->
  len l = len (List.filter p l) + len (List.filter q l).
Proof.
  intros Hq. unfold len.
  induction l as [|x l IH]; simpl; [done|].
  rewrite (Hq x). destruct (p x); simpl; lia.
Qed.

(** What [finalize] does to the state: it only touches its three files. *)
Lemma finalize_run st :
  let unique := uniqueImages (images (progress st)) in
  exists st' c,
    finalize st = Some (tt, st')
    /\ unsplashKey st' = unsplashKey st /\ pexelsKey st' = pexelsKey st
    /\ progress st' = progress st /\ requests st' = requests st
    /\ trace st' = trace st
    /\ fs st' !! PROGRESS_FILE = None
    /\ fs st' !! OUTPUT_FILE = Some (CatalogJson c)
    /\ meta c = mkMeta (len unique) (len (List.filter isUnsplash unique))
                       (len (List.filter isPexels unique))
    /\ fs st' !! PEXELS_OUTPUT =
         (if len (List.filter isPexels unique) >? 0
          then Some (CatalogJson (mkCatalog (meta c) (List.filter isPexels unique)))
          else fs st !! PEXELS_OUTPUT)
    /\ (forall path, path <> PROGRESS_FILE -> path <> OUTPUT_FILE ->
                     path <> PEXELS_OUTPUT -> fs st' !! path = fs st !! path)
    /\ cat_images c =
         (if len (List.filter isUnsplash unique) >? 0
          then List.filter isUnsplash unique else unique).
Proof.
  intros unique. unfold finalize, bind, gets. simpl. fold unique.
  destruct (len (List.filter isUnsplash unique) >? 0),
           (len (List.filter isPexels unique) >? 0).
  all: eexists _, _; split; [reflexivity|]; simpl.
  all: repeat split; try done; try intros path H1 H2 H3.
  all: repeat first [ rewrite lookup_delete_eq
                    | rewrite lookup_delete_ne by done
                    | rewrite lookup_insert_eq
                    | rewrite lookup_insert_ne by done ].
  all: reflexivity.
Qed.

(** The two halves of [fetchAll]: the loops from the resumed state, then
    [finalize]. *)
Lemma fetchAll_run w targetTotal st :
  exists st1 st' c,
    fetchLoops w targetTotal st = Some (tt, st1)
    /\ advances (930 * providers st)
         (expected (remaining (lastCategory (progress (resumed st)))
                              FURNITURE_CATEGORIES))
         (storedUnder (map category FURNITURE_CATEGORIES))
         (resumed st) st1
    /\ fetchAll w targetTotal st = Some (tt, st')
    /\ progress st' = progress st1 /\ requests st' = requests st1
    /\ trace st' = trace st1
    /\ fs st' !! PROGRESS_FILE = None
    /\ fs st' !! OUTPUT_FILE = Some (CatalogJson c)
    /\ meta c = mkMeta (len (uniqueImages (images (progress st1))))
                  (len (List.filter isUnsplash (uniqueImages (images (progress st1)))))
                  (len (List.filter isPexels (uniqueImages (images (progress st1)))))
    /\ fs st' !! PEXELS_OUTPUT =
         (if len (List.filter isPexels (uniqueImages (images (progress st1)))) >? 0
          then Some (CatalogJson
                       (mkCatalog (meta c)
                          (List.filter isPexels (uniqueImages (images (progress st1))))))
          else fs st1 !! PEXELS_OUTPUT)
    /\ (forall path, path <> PROGRESS_FILE -> path <> OUTPUT_FILE ->
                     path <> PEXELS_OUTPUT -> fs st' !! path = fs st1 !! path)
    /\ cat_images c =
         (if len (List.filter isUnsplash (uniqueImages (images (progress st1)))) >? 0
          then List.filter isUnsplash (uniqueImages (images (progress st1)))
          else uniqueImages (images (progress st1))).
Proof.
  destruct (categoryLoop_advances w targetTotal
              (lastCategory (progress (resumed st))) FURNITURE_CATEGORIES
              (resumed st)) as ([] & st1 & Hrun & Hadv); [lia|].
  destruct (finalize_run st1)
    as (st' & c & Hfin & _ & _ & Hprog & Hreq & Htr & Hfiles).
  exists st1, st', c. split; [exact Hrun|]. split; [| split; [| tauto]].
  - eapply advances_weaken; [| | | exact Hadv]; try done.
    destruct (resumed_keys st) as (Hu & Hp & _).
    rewrite (providers_keys st (resumed st)) by done.
    change (length (flat_map queries FURNITURE_CATEGORIES)) with 31%nat. lia.
  - rewrite fetchAll_resumed. unfold bind. by rewrite Hrun.
Qed.

Lemma remaining_spec last cats cfg :
  In cfg (remaining last cats) ->
  In cfg cats /\ findIndex last <= findIndex (category cfg).
Proof.
  unfold remaining. rewrite filter_In, negb_true_iff. intros [Hin Hskip].
  split; [done|].
  by destruct (not_skipped_earlier last last (category cfg)).
Qed.

Lemma expected_notBefore last e :
  expected (remaining last FURNITURE_CATEGORIES) e -> notBefore last e.
Proof.
  assert (Hq : forall q,
            In q (flat_map queries (remaining last FURNITURE_CATEGORIES)) ->
            exists cfg, In cfg FURNITURE_CATEGORIES /\ In q (queries cfg)
                        /\ findIndex last <= findIndex (category cfg)).
  { intros q Hq. apply in_flat_map in Hq as (cfg & Hcfg & Hq).
    apply remaining_spec in Hcfg as [Hin Hle]. eauto. }
  destruct e as [p q page perPage | ms | c tgt | q];
    cbv beta iota delta [expected queryEvent notBefore]; [| done | | by apply Hq].
  - intros (Hin & _). by apply Hq.
  - intros (cfg & Hcfg & <- & _). by apply remaining_spec in Hcfg as [_ Hle].
Qed.

(** ** Properties of every run *)

(** Every request of a run goes to a provider whose key is set and asks
    for one of the pages 1 to 10 of a query of [FURNITURE_CATEGORIES], 30
    images a page; every pause lasts 1.1 s (after a stored batch), 60 s (a
    rate limit) or 2, 4 or 6 s (the backoff); only categories of the table
    are announced, with their targets. *)
Theorem requests_well_formed w targetTotal st :
  exists st' evs,
    fetchAll w targetTotal st = Some (tt, st')
    /\ trace st' = trace st ++ evs
    /\ Forall (expected FURNITURE_CATEGORIES) evs
    /\ Forall (configured st) evs.
Proof.
  destruct (fetchAll_run w targetTotal st)
    as (st1 & st' & c & _ & Hadv & Hall & _ & _ & Htr & _).
  destruct (adv_trace _ _ _ _ _ Hadv) as (evs & Hevs & HE & HC).
  destruct (resumed_keys st) as (Hu & Hp & _ & Htr0 & _).
  exists st', evs. split; [exact Hall|]. rewrite Htr, Hevs, Htr0.
  split; [done|]. split.
  - eapply Forall_impl; [exact HE|]. intros e. apply expected_incl.
    intros cfg Hcfg. by apply remaining_spec in Hcfg as [Hin _].
  - eapply Forall_impl; [exact HC|]. intros e. by apply configured_keys.
Qed.

(** A resumed run leaves the categories before the checkpoint's
    [lastCategory] alone: every category it announces and every query it
    logs or requests belongs to a category at or after [lastCategory] in
    the fixed order.  (A [lastCategory] that is empty or not in the table
    has index -1 and leaves nothing out.) *)
Theorem earlier_categories_skipped w targetTotal st :
  exists st' evs,
    fetchAll w targetTotal st = Some (tt, st')
    /\ trace st' = trace st ++ evs
    /\ Forall (notBefore (lastCategory (progress (resumed st)))) evs.
Proof.
  destruct (fetchAll_run w targetTotal st)
    as (st1 & st' & c & _ & Hadv & Hall & _ & _ & Htr & _).
  destruct (adv_trace _ _ _ _ _ Hadv) as (evs & Hevs & HE & _).
  destruct (resumed_keys st) as (_ & _ & _ & Htr0 & _).
  exists st', evs. split; [exact Hall|]. rewrite Htr, Hevs, Htr0.
  split; [done|].
  eapply Forall_impl; [exact HE|]. intros e. apply expected_notBefore.
Qed.



(** The files a run leaves: the checkpoint is removed; [OUTPUT_FILE] holds
    a catalog whose [totalImages] is the number of deduplicated images and
    the sum of the two per-source counts; [PEXELS_OUTPUT] is rewritten if
    there is a Pexels image and left as it was (a file of an earlier run
    included) if there is none; no other file is touched. *)
Theorem files_after_run w targetTotal st :
  exists st' c,
    fetchAll w targetTotal st = Some (tt, st')
    /\ let unique := uniqueImages (images (progress st')) in
       fs st' !! PROGRESS_FILE = None
       /\ fs st' !! OUTPUT_FILE = Some (CatalogJson c)
       /\ totalImages (meta c) = len unique
       /\ totalImages (meta c) = unsplashCount (meta c) + pexelsCount (meta c)
       /\ fs st' !! PEXELS_OUTPUT =
            (if len (List.filter isPexels unique) >? 0
             then Some (CatalogJson (mkCatalog (meta c) (List.filter isPexels unique)))
             else fs st !! PEXELS_OUTPUT)
       /\ forall path, path <> PROGRESS_FILE -> path <> OUTPUT_FILE ->
                       path <> PEXELS_OUTPUT -> fs st' !! path = fs st !! path.
Proof.
  destruct (fetchAll_run w targetTotal st)
    as (st1 & st' & c & _ & Hadv & Hall & Hprog & _ & _ & Hck & Hout & Hmeta
        & Hpex & Hother & _).
  pose proof (adv_files _ _ _ _ _ Hadv) as Hfiles.
  destruct (resumed_keys st) as (_ & _ & _ & _ & Hfs0).
  exists st', c. split; [exact Hall|]. rewrite Hprog. cbv zeta.
  split; [exact Hck|]. split; [exact Hout|]. rewrite Hmeta. simpl.
  split; [done|]. split.
  - apply filter_split_length. intros img. unfold isPexels, isUnsplash.
    by destruct (img_source img).
  - split.
    + rewrite Hpex, Hmeta, Hfiles, Hfs0; done.
    + intros path H1 H2 H3. rewrite Hother, Hfiles, Hfs0; done.
Qed.

(** ** The checkpoint at the end of the loops *)

Lemma bind_Some {A B} (m : M A) (f : A -> M B) st b st' :
  bind m f st = Some (b, st') ->
  exists a st1, m st = Some (a, st1) /\ f a st1 = Some (b, st').
Proof.
  unfold bind. destruct (m st) as [[a st1]|]; [eauto | discriminate].
Qed.

Lemma findIndexFrom_le cs name : forall i,
  findIndexFrom i cs name <= i + len cs - 1 \/ findIndexFrom i cs name = -1.
Proof.
  unfold len.
  induction cs as [|c cs IH]; intros i; simpl; [by right|].
  destruct (String.eqb (category c) name); [left; lia|].
  destruct (IH (i + 1)) as [H | H]; [left; lia | by right].
Qed.

(** The last category of the table is never skipped. *)
Lemma entertainment_not_skipped last :
  skipCategory last "entertainment" = false.
Proof.
  unfold skipCategory. apply andb_false_iff. right.
  rewrite Z.gtb_ltb. apply Z.ltb_ge.
  change (findIndex "entertainment") with 9.
  destruct (findIndexFrom_le FURNITURE_CATEGORIES last 0) as [H | H];
    unfold findIndex; [| lia].
  change (len FURNITURE_CATEGORIES) with 10 in H. lia.
Qed.

Lemma categoryLoop_synced w targetTotal cats : forall st st',
  synced st
  \/ (exists cfg, last cats = Some cfg
                  /\ forall l, skipCategory l (category cfg) = false) ->
  categoryLoop w targetTotal cats st = Some (tt, st') ->
  synced st'.
Proof.
  induction cats as [|cfg cats IH]; intros st st' Hst; cbn [categoryLoop].
  - intros [= <-]. destruct Hst as [H | (cfg & H & _)]; [done | discriminate].
  - intros Hrun. apply bind_Some in Hrun as (l & st0 & [= <- <-] & Hrun).
    destruct (skipCategory _ (category cfg)) eqn:Hskip.
    + apply (IH st st'); [| done].
      destruct Hst as [H | (cfgL & HL & Hnever)]; [by left | right].
      destruct cats as [|cfg' cats]; [| by exists cfgL].
      injection HL as <-. by rewrite Hnever in Hskip.
    + apply bind_Some in Hrun as ([] & st1 & _ & Hrun).
      apply bind_Some in Hrun as (cc & st2 & _ & Hrun).
      apply bind_Some in Hrun as ([] & st3 & [= <-] & Hrun).
      apply bind_Some in Hrun as ([] & st4 & [= <-] & Hrun).
      apply bind_Some in Hrun as (done & st5 & [= <- <-] & Hrun).
      match type of Hrun with context [_ ?s = Some _] =>
        assert (Hsync : synced s) by apply lookup_insert_eq
      end.
      destruct (_ >=? targetTotal).
      * by injection Hrun as <-.
      * eapply IH; [| exact Hrun]. by left.
Qed.

(** When [finalize] is called the checkpoint on disk holds exactly the
    progress in memory: the loops of [fetchAll] end with the checkpoint
    written, whatever was fetched or skipped. *)
Theorem checkpoint_saved_before_finalize w targetTotal st :
  exists st1,
    fetchLoops w targetTotal st = Some (tt, st1)
    /\ synced st1
    /\ fetchAll w targetTotal st = finalize st1.
Proof.
  destruct (fetchAll_run w targetTotal st) as (st1 & st' & c & Hloops & _).
  exists st1. split; [exact Hloops|]. split.
  - rewrite fetchLoops_resumed in Hloops.
    eapply categoryLoop_synced; [| exact Hloops].
    right. eexists. split; [reflexivity|]. apply entertainment_not_skipped.
  - rewrite fetchLoops_resumed in Hloops.
    rewrite fetchAll_resumed. unfold bind. by rewrite Hloops.
Qed.

(** ** A target that is already met *)






(** ** The order of the deduplicated images *)

Lemma filter_filter_and {A} (p q : A -> bool) l :
  List.filter p (List.filter q l) = List.filter (fun x => q x && p x) l.
Proof.
  induction l as [|x l IH]; simpl; [done|].
  destruct (q x); simpl; [| done]. destruct (p x); by rewrite IH.
Qed.

Lemma newMap_keys_from {V} (es : list (string * V)) : forall acc,
  map fst (fold_left (fun m e => mapSet (fst e) (snd e) m) es acc)
  = map fst acc
    ++ List.filter (fun k => negb (existsb (String.eqb k) (map fst acc)))
                   (firstOccurrences (map fst es)).
Proof.
  induction es as [|[k v] es IH]; intros acc; simpl; [by rewrite app_nil_r|].
  rewrite IH, mapSet_keys.
  destruct (existsb (String.eqb k) (map fst acc)) eqn:Hk; simpl.
  - f_equal. rewrite filter_filter_and. apply filter_ext. intros x.
    destruct (String.eqb x k) eqn:E; simpl; [| done].
    apply String.eqb_eq in E. subst x. by rewrite Hk.
  - rewrite <- app_assoc. simpl. do 2 f_equal.
    rewrite filter_filter_and. apply filter_ext. intros x.
    rewrite existsb_app. simpl. rewrite orb_false_r, negb_orb.
    rewrite (String.eqb_sym x k). apply andb_comm.
Qed.

Lemma firstOccurrences_length ids :
  (length (firstOccurrences ids) <= length ids)%nat.
Proof.
  induction ids as [|id ids IH]; simpl; [lia|].
  pose proof (filter_length_le (fun x => negb (String.eqb x id))
                               (firstOccurrences ids)). lia.
Qed.

(** Deduplication keeps the position of the first record of each id (and,
    by C2, the content of the last): the ids of the deduplicated list are
    the ids of the accumulated list, each at its first occurrence.  The
    deduplicated list is never longer than the accumulated one. *)
Theorem dedup_keeps_first_position imgs :
  map img_id (uniqueImages imgs) = firstOccurrences (map img_id imgs)
  /\ len (uniqueImages imgs) <= len imgs.
Proof.
  assert (Hids : map img_id (uniqueImages imgs)
                 = firstOccurrences (map img_id imgs)).
  { rewrite uniqueImages_ids. unfold newMap. rewrite newMap_keys_from.
    simpl. rewrite map_map. simpl.
    clear. induction (firstOccurrences _) as [|x l IH]; simpl; [done | by rewrite IH]. }
  split; [exact Hids|].
  pose proof (firstOccurrences_length (map img_id imgs)) as Hlen.
  rewrite <- Hids, !length_map in Hlen. unfold len. lia.
Qed.

(** ** How far a run can overshoot its target *)

Lemma firstSuccess_withinPage w n :
  withinPage w -> len (firstSuccess (nextAnswers w n)) <= 30.
Proof.
  intros Hw.
  assert (H : forall answers,
            (forall photos, In (Ok200 photos) answers -> len photos <= 30) ->
            len (firstSuccess answers) <= 30).
  { induction answers as [|[photos|status] rest IH]; simpl; intros Hin.
    - unfold len. simpl. lia.
    - apply Hin. by left.
    - apply IH. intros photos Hp. apply Hin. by right. }
  apply H. intros photos Hin.
  with_strategy transparent [nextAnswers] (unfold nextAnswers in Hin).
  apply in_map_iff in Hin as (k & Hk & _). by eapply Hw.
Qed.

(** What a request leaves of the progress, and how much it returns. *)
Lemma fetchFrom_yield w p query page st imgs st' :
  withinPage w ->
  fetchFrom p w query page 30 st = Some (imgs, st') ->
  progress st' = progress st /\ len imgs <= 30.
Proof.
  intros Hw. rewrite fetchFrom_run.
  destruct (truthy (keyOf p st)); intros [= <- <-].
  - split; [done|]. rewrite len_map. by apply firstSuccess_withinPage.
  - split; [done|]. unfold len. simpl. lia.
Qed.

Lemma store_completed {A} imgs (x y : A) st st' :
  bind (pushImages imgs) (fun _ =>
    bind saveProgress (fun _ =>
      bind (sleep RATE_LIMIT_DELAY) (fun _ => ret x))) st = Some (y, st') ->
  completed (progress st') = completed (progress st) + len imgs.
Proof. by intros [= _ <-]. Qed.

Lemma unsplashStep_completed w category query page c st c' st' :
  withinPage w ->
  unsplashStep w category query page c st = Some (c', st') ->
  completed (progress st) <= completed (progress st')
    <= completed (progress st) + 30.
Proof.
  intros Hw. unfold unsplashStep. intros H.
  apply bind_Some in H as (key & st0 & [= <- <-] & H).
  destruct (truthy (unsplashKey st)); [| injection H as _ <-; lia].
  apply bind_Some in H as (imgs & st1 & Hf & H).
  apply (fetchFrom_yield w unsplash) in Hf as [Hp Hlen]; [| done].
  pose proof (len_nonneg imgs).
  destruct (len imgs >? 0); [| injection H as _ <-; rewrite Hp; lia].
  apply store_completed in H. rewrite H, Hp, len_map. lia.
Qed.

Lemma pexelsStep_completed w category query page perQuery targetTotal c st c' st' :
  withinPage w ->
  pexelsStep w category query page perQuery targetTotal c st = Some (c', st') ->
  completed (progress st) <= completed (progress st')
    <= Z.max (completed (progress st)) (targetTotal + 29).
Proof.
  intros Hw. unfold pexelsStep. intros H.
  apply bind_Some in H as (key & st0 & [= <- <-] & H).
  apply bind_Some in H as (done & st0 & [= <- <-] & H).
  destruct (_ && _ && _) eqn:Hguard; [| injection H as _ <-; lia].
  apply andb_true_iff in Hguard as [_ Hdone]. apply Z.ltb_lt in Hdone.
  apply bind_Some in H as (imgs & st1 & Hf & H).
  apply (fetchFrom_yield w pexels) in Hf as [Hp Hlen]; [| done].
  pose proof (len_nonneg imgs).
  destruct (len imgs >? 0); [| injection H as _ <-; rewrite Hp; lia].
  apply store_completed in H. rewrite H, Hp, len_map. lia.
Qed.

Lemma pageLoop_completed w category query perQuery targetTotal fuel :
  forall page c st cc st',
    withinPage w ->
    pageLoop w fuel category query perQuery targetTotal page c st = Some (cc, st') ->
    completed (progress st) <= completed (progress st')
      <= Z.max (completed (progress st)) (targetTotal + 29).
Proof.
  induction fuel as [|fuel IH]; intros page c st cc st' Hw; [discriminate|].
  cbn [pageLoop]. intros H.
  apply bind_Some in H as (done & st0 & [= <- <-] & H).
  destruct (_ && _) eqn:Hguard; [| injection H as _ <-; lia].
  apply andb_true_iff in Hguard as [_ Hdone]. apply Z.ltb_lt in Hdone.
  apply bind_Some in H as (c1 & st1 & Hbody & H).
  unfold pageBody in Hbody.
  apply bind_Some in Hbody as (c0 & st0 & Hu & Hp).
  apply unsplashStep_completed in Hu; [| done].
  apply pexelsStep_completed in Hp; [| done].
  destruct (page + 1 >? 10); [injection H as _ <-; lia|].
  apply IH in H; [| done]. lia.
Qed.

Lemma queryLoop_completed w category target perQuery targetTotal qs :
  forall cc st cc' st',
    withinPage w ->
    queryLoop w category target perQuery targetTotal qs cc st = Some (cc', st') ->
    completed (progress st) <= completed (progress st')
      <= Z.max (completed (progress st)) (targetTotal + 29).
Proof.
  induction qs as [|query qs IH]; intros cc st cc' st' Hw; cbn [queryLoop].
  - intros [= _ <-]. lia.
  - destruct (cc >=? target); [intros [= _ <-]; lia|]. intros H.
    apply bind_Some in H as ([] & st0 & [= <-] & H).
    apply bind_Some in H as (cc1 & st1 & Hpages & H).
    apply pageLoop_completed in Hpages; [| done].
    apply IH in H; [| done]. simpl in Hpages. lia.
Qed.

Lemma categoryLoop_completed w targetTotal cats : forall st st',
  withinPage w ->
  categoryLoop w targetTotal cats st = Some (tt, st') ->
  completed (progress st) <= completed (progress st')
    <= Z.max (completed (progress st)) (targetTotal + 29).
Proof.
  induction cats as [|cfg cats IH]; intros st st' Hw; cbn [categoryLoop].
  - intros [= <-]. lia.
  - intros H. apply bind_Some in H as (l & st0 & [= <- <-] & H).
    destruct (skipCategory _ _); [by apply IH|].
    apply bind_Some in H as ([] & st1 & [= <-] & H).
    apply bind_Some in H as (cc & st2 & Hq & H).
    apply queryLoop_completed in Hq; [| done]. simpl in Hq.
    apply bind_Some in H as ([] & st3 & [= <-] & H).
    apply bind_Some in H as ([] & st4 & [= <-] & H).
    apply bind_Some in H as (done & st5 & [= <- <-] & H).
    destruct (_ >=? targetTotal); [injection H as <-; simpl; lia|].
    apply IH in H; [| done]. simpl in H. lia.
Qed.

(** When no answer holds more than the 30 photos asked for, a run stops
    within 29 images of its target: it ends with at most [targetTotal + 29]
    images counted, unless the checkpoint it resumed from already counted
    more, and never with fewer than it started with. *)
Theorem target_overshoot_bounded w targetTotal st :
  withinPage w ->
  exists st',
    fetchAll w targetTotal st = Some (tt, st')
    /\ completed (progress (resumed st)) <= completed (progress st')
         <= Z.max (completed (progress (resumed st))) (targetTotal + 29).
Proof.
  intros Hw.
  destruct (fetchAll_run w targetTotal st)
    as (st1 & st' & c & Hloops & _ & Hall & Hprog & _).
  exists st'. split; [exact Hall|]. rewrite Hprog.
  rewrite fetchLoops_resumed in Hloops.
  by eapply categoryLoop_completed.
Qed.

Lemma thirtyThenNothing_withinPage : withinPage thirtyThenNothing.
Proof.
  intros [|n] photos; simpl; intros [= <-]; vm_compute; discriminate.
Qed.

(** With 1 as target, a first answer of 30 photos is stored whole: the
    bound is reached. *)
Lemma target_overshoot_bounded_witness :
  exists st',
    fetchAll thirtyThenNothing 1 (newFetcher "unsplash-key" "" ∅) = Some (tt, st')
    /\ 0 <= completed (progress st') <= Z.max 0 (1 + 29).
Proof.
  destruct (target_overshoot_bounded thirtyThenNothing 1
              (newFetcher "unsplash-key" "" ∅) thirtyThenNothing_withinPage)
    as (st' & Hrun & Hbound).
  exists st'. split; [exact Hrun | exact Hbound].
Defined.

(** ** Pages without results *)

Lemma fetchFrom_empty w p query page st :
  (forall n, w n = Ok200 []) ->
  fetchFrom p w query page 30 st =
    Some ([], if truthy (keyOf p st)
              then with_requests (S (requests st))
                     (with_trace (trace st ++ [EvGet p query page 30]) st)
              else st).
Proof.
  intros Hw.
  destruct p; simpl; [unfold fetchUnsplash | unfold fetchPexels];
    unfold bind, gets;
    match goal with |- context [truthy ?k] => destruct (truthy k) end;
    simpl; try reflexivity;
    unfold bind, httpGet; by rewrite Hw.
Qed.

Lemma unsplashStep_empty w category query page c st :
  (forall n, w n = Ok200 []) ->
  exists st',
    unsplashStep w category query page c st = Some (c, st')
    /\ unsplashKey st' = unsplashKey st /\ pexelsKey st' = pexelsKey st
    /\ progress st' = progress st /\ fs st' = fs st
    /\ requests st'
       = (requests st + if truthy (unsplashKey st) then 1 else 0)%nat
    /\ trace st'
       = trace st ++ if truthy (unsplashKey st)
                     then [EvGet unsplash query page 30] else [].
Proof.
  intros Hw. unfold unsplashStep. unfold bind at 1. unfold gets.
  destruct (truthy (unsplashKey st)) eqn:Ku.
  - unfold bind at 1.
    change (fetchUnsplash w query page 30) with (fetchFrom unsplash w query page 30).
    rewrite fetchFrom_empty by done. simpl keyOf. rewrite Ku.
    eexists. split; [reflexivity|]. simpl. repeat split; try done; lia.
  - exists st. rewrite app_nil_r. repeat split; try done; lia.
Qed.

Lemma pexelsStep_empty w category query page perQuery targetTotal c st :
  (forall n, w n = Ok200 []) ->
  fetchedForQuery c < perQuery ->
  completed (progress st) < targetTotal ->
  exists st',
    pexelsStep w category query page perQuery targetTotal c st = Some (c, st')
    /\ unsplashKey st' = unsplashKey st /\ pexelsKey st' = pexelsKey st
    /\ progress st' = progress st /\ fs st' = fs st
    /\ requests st'
       = (requests st + if truthy (pexelsKey st) then 1 else 0)%nat
    /\ trace st'
       = trace st ++ if truthy (pexelsKey st)
                     then [EvGet pexels query page 30] else [].
Proof.
  intros Hw Hquota Hdone. apply Z.ltb_lt in Hquota, Hdone.
  unfold pexelsStep. unfold bind at 1. unfold gets at 1.
  unfold bind at 1. unfold gets. rewrite Hquota, Hdone.
  destruct (truthy (pexelsKey st)) eqn:Kp; cbn [andb].
  - unfold bind at 1.
    change (fetchPexels w query page 30) with (fetchFrom pexels w query page 30).
    rewrite fetchFrom_empty by done. simpl keyOf. rewrite Kp.
    eexists. split; [reflexivity|]. simpl. repeat split; try done; lia.
  - exists st. rewrite app_nil_r. repeat split; try done; lia.
Qed.

(** One page on which no provider finds anything: a request to each
    provider that has a key, and nothing else. *)
Lemma pageBody_empty w category query page perQuery targetTotal c st :
  (forall n, w n = Ok200 []) ->
  fetchedForQuery c < perQuery ->
  completed (progress st) < targetTotal ->
  exists st',
    pageBody w category query page perQuery targetTotal c st = Some (c, st')
    /\ unsplashKey st' = unsplashKey st /\ pexelsKey st' = pexelsKey st
    /\ progress st' = progress st /\ fs st' = fs st
    /\ requests st' = (requests st + providers st)%nat
    /\ trace st' = trace st ++ pageRequests st query page.
Proof.
  intros Hw Hquota Hdone.
  destruct (unsplashStep_empty w category query page c st Hw)
    as (st1 & Hrun1 & Hu1 & Hp1 & Hprog1 & Hfs1 & Hreq1 & Htr1).
  destruct (pexelsStep_empty w category query page perQuery targetTotal c st1 Hw
              Hquota) as (st2 & Hrun2 & Hu2 & Hp2 & Hprog2 & Hfs2 & Hreq2 & Htr2);
    [by rewrite Hprog1|].
  exists st2. unfold pageBody, bind. rewrite Hrun1. split; [exact Hrun2|].
  unfold providers, pageRequests.
  rewrite Hu2, Hp2, Hprog2, Hfs2, Hreq2, Htr2, Hreq1, Htr1, Hp1, <- app_assoc.
  repeat split; try done; lia.
Qed.

Lemma pageRequests_keys st st' query page :
  unsplashKey st' = unsplashKey st -> pexelsKey st' = pexelsKey st ->
  pageRequests st' query page = pageRequests st query page.
Proof. unfold pageRequests. by intros -> ->. Qed.

Lemma pagesFrom_cons page n :
  pagesFrom page (S n) = page :: pagesFrom (page + 1) n.
Proof.
  unfold pagesFrom. simpl. rewrite Z.add_0_r. f_equal.
  rewrite <- seq_shift, map_map. apply map_ext. intros k. lia.
Qed.

Lemma pageLoop_empty w category query perQuery targetTotal fuel :
  forall page c st,
    (forall n, w n = Ok200 []) ->
    fetchedForQuery c < perQuery ->
    completed (progress st) < targetTotal ->
    1 <= page <= 10 ->
    (Z.to_nat (11 - page) <= fuel)%nat ->
    exists st',
      pageLoop w fuel category query perQuery targetTotal page c st
        = Some (categoryCount c, st')
      /\ unsplashKey st' = unsplashKey st /\ pexelsKey st' = pexelsKey st
      /\ progress st' = progress st /\ fs st' = fs st
      /\ requests st'
         = (requests st + Z.to_nat (11 - page) * providers st)%nat
      /\ trace st'
         = trace st ++ flat_map (pageRequests st query)
                                (pagesFrom page (Z.to_nat (11 - page))).
Proof.
  induction fuel as [|fuel IH]; intros page c st Hw Hquota Hdone Hpage Hfuel;
    [lia|].
  cbn [pageLoop]. unfold bind at 1. unfold gets.
  apply Z.ltb_lt in Hquota as Hq. apply Z.ltb_lt in Hdone as Hd.
  rewrite Hq, Hd. cbn [andb].
  destruct (pageBody_empty w category query page perQuery targetTotal c st
              Hw Hquota Hdone)
    as (st1 & Hbody & Hu & Hp & Hprog & Hfs & Hreq & Htr).
  unfold bind at 1. rewrite Hbody.
  replace (Z.to_nat (11 - page)) with (S (Z.to_nat (11 - (page + 1)))) by lia.
  rewrite pagesFrom_cons. cbn [flat_map].
  destruct (page + 1 >? 10) eqn:E.
  - rewrite Z.gtb_ltb in E. apply Z.ltb_lt in E.
    replace (Z.to_nat (11 - (page + 1))) with 0%nat by lia.
    exists st1. cbn [pagesFrom seq map flat_map]. rewrite app_nil_r.
    repeat split; try done. lia.
  - rewrite Z.gtb_ltb in E. apply Z.ltb_ge in E.
    destruct (IH (page + 1) c st1 Hw Hquota) as
      (st' & Hrun & Hu' & Hp' & Hprog' & Hfs' & Hreq' & Htr');
      [by rewrite Hprog | lia | lia |].
    exists st'. split; [exact Hrun|].
    rewrite Hu', Hp', Hprog', Hfs', Hreq', Htr', Hreq, Htr.
    rewrite (providers_keys st st1) by done.
    rewrite <- app_assoc. repeat split; try done; [lia|].
    do 2 f_equal. apply flat_map_ext. intros p. by apply pageRequests_keys.
Qed.

(** An empty page does not end a query: where the providers find nothing,
    the page loop still asks every provider that has a key for each of the
    pages 1 to 10, one after the other, and stores nothing. *)
Theorem empty_pages_are_all_requested w category query perQuery targetTotal cc st :
  (forall n, w n = Ok200 []) ->
  0 < perQuery ->
  completed (progress st) < targetTotal ->
  exists st',
    pageLoop w pageFuel category query perQuery targetTotal 1 (mkCounters cc 0) st
      = Some (cc, st')
    /\ trace st'
       = trace st ++ flat_map (pageRequests st query) [1; 2; 3; 4; 5; 6; 7; 8; 9; 10]
    /\ requests st' = (requests st + 10 * providers st)%nat
    /\ progress st' = progress st.
Proof.
  intros Hw Hquota Hdone.
  destruct (pageLoop_empty w category query perQuery targetTotal pageFuel 1
              (mkCounters cc 0) st Hw Hquota Hdone)
    as (st' & Hrun & _ & _ & Hprog & _ & Hreq & Htr); [lia | vm_compute; lia |].
  exists st'. split; [exact Hrun|]. split; [exact Htr|]. by split.
Qed.

Lemma empty_pages_are_all_requested_witness :
  exists st',
    pageLoop nothingFound pageFuel "sofa" "couch" 38 800 1 (mkCounters 0 0)
             (newFetcher "unsplash-key" "" ∅) = Some (0, st')
    /\ trace st'
       = [] ++ flat_map (pageRequests (newFetcher "unsplash-key" "" ∅) "couch")
                        [1; 2; 3; 4; 5; 6; 7; 8; 9; 10]
    /\ requests st' = (0 + 10 * providers (newFetcher "unsplash-key" "" ∅))%nat
    /\ progress st' = initialProgress.
Proof.
  apply (empty_pages_are_all_requested nothingFound "sofa" "couch" 38 800 0
           (newFetcher "unsplash-key" "" ∅)).
  - reflexivity.
  - lia.
  - simpl. lia.
Defined.

End FetchImagesProps.

(** * Properties of generate-listings.ts *)
Module GenerateListingsProps.
Import GenerateListings GenerateListingsSpec.

#[local] Notation "x <- m ;; k" := (bind m (fun x => k))
  (at level 100, m at next level, right associativity).

(** ** Running the monad *)

Lemma bind_Return {A B} (m : G A) (f : A -> G B) t b t'' :
  bind m f t = Return (b, t'') <->
  exists a t', m t = Return (a, t') /\ f a t' = Return (b, t'').
Proof.
  unfold bind. split.
  - destruct (m t) as [[a t']| |] eqn:E; try discriminate. eauto.
  - intros (a & t' & -> & H). exact H.
Qed.

Lemma returns_ret {A} (a : A) (P : A -> Prop) : P a -> returns (ret a) P.
Proof. intros H t. by exists a, t. Qed.

Lemma returns_bind {A B} (m : G A) (f : A -> G B) P Q :
  returns m P -> (forall a, P a -> returns (f a) Q) -> returns (bind m f) Q.
Proof.
  intros Hm Hf t. destruct (Hm t) as (a & t1 & E1 & Ha).
  destruct (Hf a Ha t1) as (b & t2 & E2 & Hb).
  exists b, t2. split; [| done]. unfold bind. by rewrite E1.
Qed.

Lemma returns_weaken {A} (m : G A) (P Q : A -> Prop) :
  returns m P -> (forall a, P a -> Q a) -> returns m Q.
Proof.
  intros Hm HPQ t. destruct (Hm t) as (a & t' & E & Ha). eauto.
Qed.

(** ** The primitives of faker *)

Lemma number_int_range lo hi t r t' :
  number_int lo hi t = Return (r, t') -> lo <= r <= hi.
Proof.
  unfold number_int. destruct (hi <? lo) eqn:E; [discriminate|].
  apply Z.ltb_ge in E. unfold bind, draw, ret. intros [= <- _].
  pose proof (Z.mod_pos_bound (Z.of_nat (t O)) (hi - lo + 1)). lia.
Qed.

Lemma returns_number_int lo hi :
  lo <= hi -> returns (number_int lo hi) (fun r => lo <= r <= hi).
Proof.
  intros Hle t. unfold number_int.
  destruct (hi <? lo) eqn:E; [apply Z.ltb_lt in E; lia|].
  eexists _, _. split; [reflexivity|].
  pose proof (Z.mod_pos_bound (Z.of_nat (t O)) (hi - lo + 1)). lia.
Qed.

Lemma returns_arrayElement {A} (xs : list A) :
  xs <> [] -> returns (arrayElement xs) (fun x => In x xs).
Proof.
  intros Hne t. unfold arrayElement, bind, draw.
  assert (Hlt : (t O mod length xs < length xs)%nat)
    by (apply Nat.mod_upper_bound; by destruct xs).
  destruct (lookup_lt_is_Some_2 xs _ Hlt) as [x Hx]. rewrite Hx.
  eexists _, _. split; [reflexivity|].
  apply list_elem_of_In. by eapply list_elem_of_lookup_2.
Qed.

Lemma returns_pickDistinct {A} n : forall pool : list A,
  returns (pickDistinct n pool) (fun _ => True).
Proof.
  induction n as [|n IH]; intros pool; simpl; [by apply returns_ret|].
  intros t. unfold bind at 1. unfold draw.
  destruct (pool !! _) as [x|]; [| by eexists _, _].
  destruct (IH (delete (t O mod length pool)%nat pool) (fun n => t (S n)))
    as (rest & t' & E & _).
  unfold bind. rewrite E. by eexists _, _.
Qed.

Lemma returns_condition :
  returns (weightedArrayElement CONDITION_WEIGHTS) (fun _ => True).
Proof.
  intros t. unfold weightedArrayElement, bind, draw. simpl.
  change (60 + (25 + (10 + (5 + 0)))) with 100.
  pose proof (Z.mod_pos_bound (Z.of_nat (t O)) 100 eq_refl) as Hx.
  set (x := Z.of_nat (t O) mod 100) in *.
  destruct (x <? 60) eqn:E1; [by eexists _, _|].
  destruct (x - 60 <? 25) eqn:E2; [by eexists _, _|].
  destruct (x - 60 - 25 <? 10) eqn:E3; [by eexists _, _|].
  destruct (x - 60 - 25 - 10 <? 5) eqn:E4; [by eexists _, _|].
  apply Z.ltb_ge in E4. lia.
Qed.

Lemma returns_alphanumeric n : returns (alphanumeric n) (fun _ => True).
Proof.
  induction n as [|n IH]; simpl; [by apply returns_ret|].
  eapply returns_bind; [by apply (returns_arrayElement ALPHANUMERIC)|].
  intros c _. eapply returns_bind; [exact IH|].
  intros. by apply returns_ret.
Qed.

Lemma returns_fillUuid pattern : returns (fillUuid pattern) (fun _ => True).
Proof.
  induction pattern as [|c pattern IH]; simpl; [by apply returns_ret|].
  eapply returns_bind with (P := fun _ => True).
  - destruct (Ascii.eqb c "x");
      [eapply returns_weaken; [by apply (returns_arrayElement HEX) | done] |].
    destruct (Ascii.eqb c "y"); [| by apply returns_ret].
    eapply returns_weaken; [by apply returns_arrayElement | done].
  - intros d _. eapply returns_bind; [exact IH|]. intros. by apply returns_ret.
Qed.

Lemma succeeds_ret {A} (a : A) : succeeds (ret a).
Proof. by apply returns_ret. Qed.

Lemma succeeds_bind {A B} (m : G A) (f : A -> G B) :
  succeeds m -> (forall a, succeeds (f a)) -> succeeds (bind m f).
Proof. intros Hm Hf. eapply returns_bind; [exact Hm | intros; apply Hf]. Qed.

Lemma succeeds_returns {A} (m : G A) P : returns m P -> succeeds m.
Proof. intros H. by eapply returns_weaken. Qed.

Lemma succeeds_number_int lo hi : lo <= hi -> succeeds (number_int lo hi).
Proof. intros H. eapply succeeds_returns. by apply returns_number_int. Qed.

Lemma succeeds_arrayElement {A} (xs : list A) :
  xs <> [] -> succeeds (arrayElement xs).
Proof. intros H. eapply succeeds_returns. by apply returns_arrayElement. Qed.

Lemma succeeds_arrayElements {A} (xs : list A) count :
  succeeds (arrayElements xs count).
Proof. apply returns_pickDistinct. Qed.

Lemma succeeds_oneInTen : succeeds oneInTen.
Proof. intros t. by eexists _, _. Qed.

Lemma succeeds_uuid : succeeds uuid.
Proof. apply returns_fillUuid. Qed.

Lemma succeeds_datePast : succeeds datePast.
Proof. by apply succeeds_number_int. Qed.

Create HintDb succeeds.

(** Splits a goal [succeeds m] along the binds of [m]; the primitives are
    closed by their lemmas. *)
Ltac succeeds_step :=
  match goal with
  | |- succeeds (bind _ _) => apply succeeds_bind; [| intros ?]
  | |- succeeds (ret _) => apply succeeds_ret
  | |- succeeds (number_int _ _) => apply succeeds_number_int; lia
  | |- succeeds (arrayElement _) => apply succeeds_arrayElement; try done
  | |- succeeds (arrayElements _ _) => apply succeeds_arrayElements
  | |- succeeds (alphanumeric _) => apply returns_alphanumeric
  | |- succeeds (weightedArrayElement CONDITION_WEIGHTS) => apply returns_condition
  | |- succeeds oneInTen => apply succeeds_oneInTen
  | |- succeeds uuid => apply succeeds_uuid
  | |- succeeds datePast => apply succeeds_datePast
  | |- succeeds (if ?b then _ else _) => destruct b
  | |- succeeds _ => solve [auto with succeeds]
  end.

(** ** The constant tables *)

Lemma objGetOr_Forall {V} (P : V -> Prop) (table : JsObject V) k fallback :
  Forall (fun e => P (snd e)) table -> P fallback ->
  P (objGetOr table k fallback).
Proof.
  unfold objGetOr. intros Ht Hf.
  induction Ht as [|[k' v] table Hv _ IH]; simpl; [done|].
  destruct (String.eqb k' k); [exact Hv | exact IH].
Qed.

Lemma templates_nonempty category :
  objGetOr TITLE_TEMPLATES category ["{adj} {material} Furniture"%string] <> [].
Proof. apply objGetOr_Forall; [| done]. repeat constructor; done. Qed.

Lemma range_ordered category :
  min (objGetOr PRICE_RANGES category defaultRange)
    <= max (objGetOr PRICE_RANGES category defaultRange).
Proof.
  apply (objGetOr_Forall (fun r => min r <= max r)); [| simpl; lia].
  repeat constructor; simpl; lia.
Qed.

(** ** One listing *)

Lemma succeeds_generateTitle category material :
  succeeds (generateTitle category material).
Proof.
  unfold generateTitle.
  apply succeeds_bind; [apply succeeds_arrayElement, templates_nonempty|].
  intros template. repeat succeeds_step.
Qed.

Lemma succeeds_generateDescription title material condition city :
  succeeds (generateDescription title material condition city).
Proof. unfold generateDescription. cbv zeta. repeat succeeds_step. Qed.

Lemma succeeds_generateDimensions category :
  succeeds (generateDimensions category).
Proof. unfold generateDimensions. repeat succeeds_step. Qed.

Lemma succeeds_basePrice category :
  succeeds (number_int (min (objGetOr PRICE_RANGES category defaultRange))
                       (max (objGetOr PRICE_RANGES category defaultRange))).
Proof. apply succeeds_number_int, range_ordered. Qed.

#[local] Hint Resolve succeeds_generateTitle succeeds_generateDescription
  succeeds_generateDimensions succeeds_basePrice : succeeds.

(** A non-empty window always yields a listing. *)
Lemma succeeds_generateListing first rest :
  succeeds (generateListing (first :: rest)).
Proof. unfold generateListing. cbv zeta. repeat succeeds_step. Qed.

(** What a listing returned by [generateListing] is made of. *)
Lemma generateListing_spec images t l t' :
  generateListing images t = Return (l, t') ->
  exists first rest basePrice,
    images = first :: rest
    /\ lst_images l = map img_url images
    /\ lst_category l = img_category first
    /\ lst_tags l = newSet (img_tags first ++ [img_category first]
                            ++ lst_materials l
                            ++ [conditionName (lst_condition l)])
    /\ min (rangeOf (img_category first)) <= basePrice
         <= max (rangeOf (img_category first))
    /\ lst_price_ngn l = priceOf basePrice (lst_condition l).
Proof.
  destruct images as [|first rest]; [discriminate|].
  unfold generateListing. cbv zeta. intros H.
  apply bind_Return in H as (condition & t1 & _ & H).
  apply bind_Return in H as (materialCount & t2 & _ & H).
  apply bind_Return in H as (materials & t3 & _ & H).
  apply bind_Return in H as (title & t4 & _ & H).
  apply bind_Return in H as (suffix & t5 & _ & H).
  apply bind_Return in H as (city & t6 & _ & H).
  apply bind_Return in H as (basePrice & t7 & Hbase & H).
  apply bind_Return in H as (description & t8 & _ & H).
  apply bind_Return in H as (featured & t9 & _ & H).
  apply bind_Return in H as (id & t10 & _ & H).
  apply bind_Return in H as (dimensions & t11 & _ & H).
  apply bind_Return in H as (stock & t12 & _ & H).
  apply bind_Return in H as (createdAt & t13 & _ & H).
  injection H as <- _.
  apply number_int_range in Hbase.
  exists first, rest, basePrice. unfold rangeOf. simpl. repeat split; tauto.
Qed.

(** ** The windows of one category *)

Lemma slice_window {A} (xs : list A) i n :
  0 <= i -> 1 <= n <= Z.min 5 (len xs - i) ->
  1 <= len (slice xs i (i + n)) <= 5
  /\ slice xs i (i + n) ++ drop (Z.to_nat (i + n)) xs = drop (Z.to_nat i) xs.
Proof.
  unfold slice, len. intros Hi Hn.
  replace (i + n - i) with n by lia. split.
  - rewrite length_take_le; [lia|]. rewrite length_drop. lia.
  - replace (Z.to_nat (i + n)) with (Z.to_nat i + Z.to_nat n)%nat by lia.
    rewrite <- drop_drop. apply take_drop.
Qed.

Lemma listingLoop_spec fuel : forall imgs i acc t ls t',
  0 <= i <= len imgs ->
  listingLoop fuel imgs i acc t = Return (ls, t') ->
  exists windows news,
    ls = acc ++ news
    /\ concat windows = drop (Z.to_nat i) imgs
    /\ Forall2 madeFrom windows news
    /\ Forall windowSized windows.
Proof.
  induction fuel as [|fuel IH]; intros imgs i acc t ls t' Hi H; [discriminate|].
  simpl in H. destruct (i <? len imgs) eqn:Hlt.
  - apply Z.ltb_lt in Hlt.
    apply bind_Return in H as (n & t1 & Hn & H).
    apply bind_Return in H as (listing & t2 & Hl & H).
    apply number_int_range in Hn.
    destruct (slice_window imgs i n) as [Hsize Hsplit]; [lia | done |].
    apply IH in H as (windows & news & -> & Hcat & Hmade & Hsized); [| lia].
    exists (slice imgs i (i + n) :: windows), (listing :: news).
    rewrite <- app_assoc. simpl. rewrite Hcat.
    repeat split; try done.
    + constructor; [by exists t1, t2 | done].
    + by constructor.
  - apply Z.ltb_ge in Hlt. injection H as <- _.
    exists [], []. rewrite app_nil_r. simpl.
    rewrite drop_ge by (unfold len in *; lia). by repeat split.
Qed.

Lemma succeeds_listingLoop fuel : forall imgs i acc,
  0 <= i <= len imgs ->
  (Z.to_nat (len imgs - i) < fuel)%nat ->
  succeeds (listingLoop fuel imgs i acc).
Proof.
  induction fuel as [|fuel IH]; intros imgs i acc Hi Hfuel; [lia|].
  simpl. destruct (i <? len imgs) eqn:Hlt; [| apply succeeds_ret].
  apply Z.ltb_lt in Hlt.
  eapply returns_bind; [apply returns_number_int; lia|].
  intros n Hn. simpl in Hn.
  destruct (slice_window imgs i n) as [Hsize _]; [lia | done |].
  destruct (slice imgs i (i + n)) as [|first rest] eqn:Hs;
    [unfold len in Hsize; simpl in Hsize; lia|].
  apply succeeds_bind; [apply succeeds_generateListing|].
  intros listing. apply IH; lia.
Qed.

(** ** Grouping by category *)

Lemma objSet_In {V} k (v : V) obj k' v' :
  NoDup (map fst obj) ->
  In (k', v') (objSet k v obj) <->
  (k' = k /\ v' = v) \/ (k' <> k /\ In (k', v') obj).
Proof.
  induction obj as [|[k0 v0] obj IH]; simpl; intros Hnd.
  - split; [intros [[= <- <-]|[]]; auto | intros [[-> ->]|[_ []]]; auto].
  - apply NoDup_cons in Hnd as [Hk0 Hnd].
    destruct (String.eqb k0 k) eqn:E.
    + apply String.eqb_eq in E. subst k0. simpl. split.
      * intros [[= <- <-] | Hin]; [auto|]. right. split; [|auto].
        intros ->. apply Hk0. apply list_elem_of_In.
        apply (in_map fst) in Hin. exact Hin.
      * intros [[-> ->] | [Hne [[= -> _] | Hin]]]; auto. done.
    + apply String.eqb_neq in E. simpl. rewrite IH by done. split.
      * intros [[= <- <-] | [[-> ->] | [Hne Hin]]]; auto.
      * intros [[-> ->] | [Hne [[= <- <-] | Hin]]]; auto.
Qed.

(** Closes a goal about membership of keys by cases. *)
Ltac key_cases := intuition (subst; simpl in *; try congruence; auto).

Lemma objSet_keys {V} k (v : V) obj k' :
  In k' (map fst (objSet k v obj)) <-> k' = k \/ In k' (map fst obj).
Proof.
  induction obj as [|[k0 v0] obj IH]; simpl; [key_cases|].
  destruct (String.eqb k0 k) eqn:E; simpl.
  - apply String.eqb_eq in E. key_cases.
  - rewrite IH. key_cases.
Qed.

Lemma objSet_NoDup {V} k (v : V) obj :
  NoDup (map fst obj) -> NoDup (map fst (objSet k v obj)).
Proof.
  induction obj as [|[k0 v0] obj IH]; simpl; intros Hnd.
  - apply NoDup_singleton.
  - apply NoDup_cons in Hnd as [Hk0 Hnd].
    destruct (String.eqb k0 k) eqn:E; simpl.
    + by apply NoDup_cons.
    + apply String.eqb_neq in E. apply NoDup_cons. split; [| by apply IH].
      rewrite list_elem_of_In, objSet_keys. rewrite list_elem_of_In in Hk0.
      key_cases.
Qed.

Lemma objGet_In {V} (obj : JsObject V) k v :
  NoDup (map fst obj) -> objGet obj k = Some v <-> In (k, v) obj.
Proof.
  induction obj as [|[k0 v0] obj IH]; simpl; intros Hnd; [key_cases|].
  apply NoDup_cons in Hnd as [Hk0 Hnd]. rewrite list_elem_of_In in Hk0.
  destruct (String.eqb k0 k) eqn:E.
  - apply String.eqb_eq in E. subst k0. split; [key_cases|].
    intros [[= ->] | Hin]; [done|].
    exfalso. apply Hk0. by apply (in_map fst) in Hin.
  - apply String.eqb_neq in E. rewrite IH by done. key_cases.
Qed.

Lemma objGet_None {V} (obj : JsObject V) k :
  objGet obj k = None <-> ~ In k (map fst obj).
Proof.
  induction obj as [|[k0 v0] obj IH]; simpl; [key_cases|].
  destruct (String.eqb k0 k) eqn:E.
  - apply String.eqb_eq in E. key_cases.
  - apply String.eqb_neq in E. rewrite IH. key_cases.
Qed.

Lemma groupOf_snoc c imgs img :
  groupOf c (imgs ++ [img]) =
    groupOf c imgs ++ (if String.eqb (img_category img) c then [img] else []).
Proof. unfold groupOf. by rewrite List.filter_app. Qed.

Lemma groupOf_nil c imgs :
  (forall img, In img imgs -> img_category img <> c) -> groupOf c imgs = [].
Proof.
  intros H. induction imgs as [|img imgs IH]; simpl; [done|].
  destruct (String.eqb (img_category img) c) eqn:E.
  - apply String.eqb_eq in E. exfalso. eapply H; [by left | done].
  - apply IH. intros img' Hin. apply H. by right.
Qed.

Lemma groupOf_category c imgs img :
  In img (groupOf c imgs) -> In img imgs /\ img_category img = c.
Proof.
  unfold groupOf. rewrite filter_In, String.eqb_eq. tauto.
Qed.

Lemma grouped_step acc seen img :
  grouped acc seen ->
  grouped (objSet (img_category img)
                  (objGetOr acc (img_category img) [] ++ [img]) acc)
          (seen ++ [img]).
Proof.
  intros (Hnd & Hgroups & Hkeys). set (c := img_category img).
  split; [by apply objSet_NoDup|]. split.
  - intros k g Hin. apply objSet_In in Hin as [[-> ->] | [Hne Hin]]; [| | done].
    + rewrite groupOf_snoc. fold c. rewrite String.eqb_refl. f_equal.
      unfold objGetOr. destruct (objGet acc c) as [g|] eqn:E.
      * apply objGet_In in E; [| done]. by apply Hgroups.
      * apply objGet_None in E. symmetry. apply groupOf_nil.
        intros img' Hin' Hc. apply E. rewrite <- Hc. by apply Hkeys.
    + rewrite groupOf_snoc. fold c.
      assert (String.eqb c k = false) as -> by (apply String.eqb_neq; congruence).
      rewrite app_nil_r. by apply Hgroups.
  - intros img' Hin. rewrite objSet_keys.
    apply in_app_or in Hin as [Hin | [<- | []]]; [right; by apply Hkeys | by left].
Qed.

Lemma groupImages_spec imgs : forall acc seen t obj t',
  grouped acc seen ->
  groupImages imgs acc t = Return (obj, t') ->
  grouped obj (seen ++ imgs) /\ t' = t.
Proof.
  induction imgs as [|img imgs IH]; intros acc seen t obj t' Hacc H; simpl in H.
  - injection H as <- <-. by rewrite app_nil_r.
  - apply bind_Return in H as (acc' & t1 & Hstep & H).
    unfold groupStep in Hstep.
    destruct (inherited (img_category img)); [discriminate|].
    injection Hstep as <- <-.
    apply (IH _ (seen ++ [img])) in H; [| by apply grouped_step].
    by rewrite <- app_assoc in H.
Qed.

Lemma succeeds_groupImages imgs : forall acc,
  Forall (fun img => inherited (img_category img) = false) imgs ->
  succeeds (groupImages imgs acc).
Proof.
  induction imgs as [|img imgs IH]; intros acc Hok; simpl; [apply succeeds_ret|].
  apply Forall_cons in Hok as [Himg Hok].
  apply succeeds_bind; [| intros; by apply IH].
  unfold groupStep. rewrite Himg. apply succeeds_ret.
Qed.

Lemma grouped_nil : grouped [] [].
Proof. split; [constructor|]. split; intros; simpl in *; tauto. Qed.

(** *** The order of [Object.entries] *)

Lemma insertByIndex_Permutation {V} (e : string * V) sorted :
  Permutation (insertByIndex e sorted) (e :: sorted).
Proof.
  induction sorted as [|e' sorted IH]; simpl; [done|].
  destruct (indexOf (fst e) <=? indexOf (fst e')); [done|].
  rewrite IH. apply perm_swap.
Qed.

Lemma sortByIndex_Permutation {V} (es : list (string * V)) :
  Permutation (sortByIndex es) es.
Proof.
  induction es as [|e es IH]; simpl; [done|].
  rewrite insertByIndex_Permutation. by constructor.
Qed.

Lemma entries_Permutation {V} (obj : JsObject V) :
  Permutation (entries obj) obj.
Proof.
  unfold entries. rewrite sortByIndex_Permutation.
  induction obj as [|e obj IH]; simpl; [done|].
  destruct (isArrayIndex (fst e)); simpl.
  - by constructor.
  - rewrite <- Permutation_middle. by constructor.
Qed.

Lemma grouped_entries obj imgs :
  grouped obj imgs -> grouped (entries obj) imgs.
Proof.
  intros (Hnd & Hgroups & Hkeys).
  pose proof (entries_Permutation obj) as Hperm.
  split; [| split].
  - assert (Hp : Permutation (map fst (entries obj)) (map fst obj))
      by (by apply Permutation_map).
    by rewrite Hp.
  - intros k g Hin. apply Hgroups. eapply Permutation_in; [exact Hperm | done].
  - intros img Hin. eapply Permutation_in; [| by apply Hkeys].
    apply Permutation_map. by symmetry.
Qed.

(** ** All listings *)

Lemma categoriesLoop_spec gs : forall acc t ls t',
  categoriesLoop gs acc t = Return (ls, t') ->
  exists lss, ls = acc ++ concat lss /\ Forall2 groupListed gs lss.
Proof.
  induction gs as [|[k g] gs IH]; cbn [categoriesLoop]; intros acc t ls t' H.
  - injection H as <- _. exists []. by rewrite app_nil_r.
  - apply bind_Return in H as (news & t1 & Hloop & H).
    apply listingLoop_spec in Hloop
      as (windows & news' & -> & Hcat & Hmade & Hsized);
      [| pose proof (Nat2Z.is_nonneg (length g)); unfold len; lia].
    apply IH in H as (lss & -> & Hrest).
    exists (news' :: lss). simpl. rewrite <- app_assoc.
    split; [done|]. constructor; [| done].
    exists windows. by rewrite drop_0 in Hcat.
Qed.

Lemma succeeds_categoriesLoop gs : forall acc, succeeds (categoriesLoop gs acc).
Proof.
  induction gs as [|[k g] gs IH]; cbn [categoriesLoop]; intros acc;
    [apply succeeds_ret|].
  apply succeeds_bind; [| intros; apply IH].
  apply succeeds_listingLoop; unfold listingFuel, len; lia.
Qed.

Lemma generateAllListings_spec diskOk imgs t out t' :
  generateAllListings diskOk (ImageArray imgs) t = Return (out, t') ->
  exists gs lss,
    grouped gs imgs
    /\ out_listings out = concat lss
    /\ Forall2 groupListed gs lss.
Proof.
  unfold generateAllListings. intros H.
  apply bind_Return in H as (obj & t1 & Hgroup & H).
  apply bind_Return in H as (ls & t2 & Hloop & H).
  apply (groupImages_spec _ _ []) in Hgroup as [Hgrouped _]; [| apply grouped_nil].
  apply categoriesLoop_spec in Hloop as (lss & -> & Hlss).
  exists (entries obj), lss.
  split; [by apply grouped_entries|].
  destruct diskOk; [| discriminate]. injection H as <- _. by simpl.
Qed.

Lemma madeFrom_windowOf imgs k w l :
  madeFrom w l ->
  windowSized w ->
  (forall img, In img w -> In img imgs /\ img_category img = k) ->
  windowOf imgs w l /\ lst_category l = k.
Proof.
  intros Hmade Hsized Hk.
  destruct Hmade as (t & t' & Hgen).
  pose proof Hgen as Hspec.
  apply generateListing_spec in Hspec
    as (first & rest & _ & -> & _ & Hcat & _).
  assert (lst_category l = k) as Hl
    by (rewrite Hcat; apply Hk; by left).
  split; [| done]. split; [by exists t, t'|]. split; [done|].
  intros img Hin. rewrite Hl. by apply Hk.
Qed.

Lemma group_windows imgs k g ls :
  g = groupOf k imgs ->
  groupListed (k, g) ls ->
  exists windows,
    concat windows = g
    /\ Forall2 (fun w l => windowOf imgs w l /\ lst_category l = k) windows ls.
Proof.
  intros -> (windows & Hcat & Hmade & Hsized). simpl in Hcat.
  exists windows. split; [done|].
  assert (Hin : forall w, In w windows -> forall img, In img w ->
                  In img imgs /\ img_category img = k).
  { intros w Hw img Himg. apply groupOf_category. rewrite <- Hcat.
    apply in_concat. eauto. }
  clear Hcat. induction Hmade as [|w l windows ls Hwl _ IH]; [constructor|].
  apply Forall_cons in Hsized as [Hw Hsized].
  constructor.
  - apply madeFrom_windowOf; [done | done |]. apply Hin. by left.
  - apply IH; [done|]. intros w' Hw'. apply Hin. by right.
Qed.

Lemma windows_images imgs k windows ls :
  Forall2 (fun w l => windowOf imgs w l /\ lst_category l = k) windows ls ->
  concat (map lst_images ls) = map img_url (concat windows)
  /\ forall l, In l ls -> lst_category l = k.
Proof.
  induction 1 as [|w l windows ls [(Hmade & _) Hk] _ [IHcat IHk]]; [by split|].
  destruct Hmade as (t & t' & Hgen).
  apply generateListing_spec in Hgen as (_ & _ & _ & _ & Himgs & _).
  simpl. rewrite map_app, Himgs, IHcat. split; [done|].
  intros l' [<- | Hin]; [done | by apply IHk].
Qed.

Lemma filter_all {A} (p : A -> bool) l :
  (forall x, In x l -> p x = true) -> List.filter p l = l.
Proof.
  induction l as [|x l IH]; simpl; intros H; [done|].
  rewrite (H x) by auto. f_equal. apply IH. auto.
Qed.

Lemma filter_none {A} (p : A -> bool) l :
  (forall x, In x l -> p x = false) -> List.filter p l = [].
Proof.
  induction l as [|x l IH]; simpl; intros H; [done|].
  rewrite (H x) by auto. apply IH. auto.
Qed.

(** The listings of category [c] hold, window after window, the images of
    group [c] and nothing else. *)
Lemma filter_by_category imgs c gs : forall lss,
  Forall2 groupListed gs lss ->
  NoDup (map fst gs) ->
  (forall k g, In (k, g) gs -> g = groupOf k imgs) ->
  concat (map lst_images
            (List.filter (fun l => String.eqb (lst_category l) c) (concat lss)))
  = map img_url (if existsb (String.eqb c) (map fst gs)
                 then groupOf c imgs else []).
Proof.
  induction gs as [|[k g] gs IH]; intros lss Hlss Hnd Hgs.
  - apply Forall2_nil_inv_l in Hlss as ->. done.
  - apply Forall2_cons_inv_l in Hlss as (ls & lss' & Hls & Hlss' & ->).
    simpl in Hnd. apply NoDup_cons in Hnd as [Hk Hnd].
    rewrite list_elem_of_In in Hk.
    destruct (group_windows imgs k g ls) as (windows & Hcat & Hw);
      [apply Hgs; by left | done |].
    apply windows_images in Hw as [Himgs Hcats].
    simpl. rewrite List.filter_app, map_app, concat_app.
    rewrite IH; [| done | done | intros; apply Hgs; by right].
    rewrite (String.eqb_sym c k).
    destruct (String.eqb k c) eqn:E; simpl.
    + apply String.eqb_eq in E. subst k.
      rewrite filter_all
        by (intros l Hl; rewrite (Hcats l Hl); apply String.eqb_refl).
      rewrite Himgs, Hcat.
      destruct (existsb (String.eqb c) (map fst gs)) eqn:Ex.
      * exfalso. apply Hk. apply existsb_exists in Ex as (x & Hx & Ex).
        apply String.eqb_eq in Ex. by subst.
      * simpl. rewrite app_nil_r. f_equal. apply Hgs. by left.
    + apply String.eqb_neq in E.
      rewrite filter_none
        by (intros l Hl; rewrite (Hcats l Hl); by apply String.eqb_neq).
      done.
Qed.

(** C9: for every catalog and every category, the [images] of the listings
    of that category, taken in order, are exactly the locators of the
    catalog's images of that category, in catalog order: each image of the
    category is in one listing, once, and the listings of the category
    hold nothing else. *)
Theorem images_partitioned diskOk imgs t out t' :
  generateAllListings diskOk (ImageArray imgs) t = Return (out, t') ->
  forall c,
    concat (map lst_images
              (List.filter (fun l => String.eqb (lst_category l) c)
                           (out_listings out)))
    = map img_url
          (List.filter (fun img => String.eqb (img_category img) c) imgs).
Proof.
  intros H c.
  apply generateAllListings_spec in H as (gs & lss & (Hnd & Hgs & Hkeys) & -> & Hlss).
  rewrite (filter_by_category imgs c gs lss) by done.
  fold (groupOf c imgs).
  destruct (existsb (String.eqb c) (map fst gs)) eqn:Ex; [done|].
  rewrite groupOf_nil; [done|].
  intros img Hin Hc. apply Hkeys in Hin. rewrite Hc in Hin.
  assert (existsb (String.eqb c) (map fst gs) = true); [| congruence].
  apply existsb_exists. exists c. split; [done | apply String.eqb_refl].
Qed.

Lemma groups_windows imgs gs : forall lss,
  Forall2 groupListed gs lss ->
  (forall k g, In (k, g) gs -> g = groupOf k imgs) ->
  exists windowss,
    cutInto gs windowss
    /\ Forall2 (windowOf imgs) (concat windowss) (concat lss).
Proof.
  induction gs as [|[k g] gs IH]; intros lss Hlss Hgs.
  - apply Forall2_nil_inv_l in Hlss as ->. exists []. split; constructor.
  - apply Forall2_cons_inv_l in Hlss as (ls & lss' & Hls & Hlss' & ->).
    destruct (group_windows imgs k g ls) as (ws & Hcat & Hws);
      [apply Hgs; by left | done |].
    destruct (IH lss' Hlss') as (wss & Hcut & Hws');
      [intros; apply Hgs; by right|].
    exists (ws :: wss). split; [by constructor|].
    simpl. apply Forall2_app; [| done].
    eapply Forall2_impl; [exact Hws|]. simpl. tauto.
Qed.

Lemma listings_windows diskOk imgs t out t' :
  generateAllListings diskOk (ImageArray imgs) t = Return (out, t') ->
  exists gs windowss,
    grouped gs imgs
    /\ cutInto gs windowss
    /\ Forall2 (windowOf imgs) (concat windowss) (out_listings out).
Proof.
  intros H.
  apply generateAllListings_spec in H as (gs & lss & Hgrouped & -> & Hlss).
  destruct (groups_windows imgs gs lss) as (windowss & Hcut & Hw);
    [done | apply Hgrouped |].
  by exists gs, windowss.
Qed.

Lemma Forall2_In_r {A B} (P : A -> B -> Prop) xs ys y :
  Forall2 P xs ys -> In y ys -> exists x, In x xs /\ P x y.
Proof.
  induction 1 as [|x y' xs ys Hxy _ IH]; simpl; [done|].
  intros [<- | Hin]; [eauto|].
  destruct (IH Hin) as (x' & Hx' & HP). eauto.
Qed.

Lemma listing_window diskOk imgs t out t' l :
  generateAllListings diskOk (ImageArray imgs) t = Return (out, t') ->
  In l (out_listings out) ->
  exists w, windowOf imgs w l.
Proof.
  intros H Hl. apply listings_windows in H as (gs & windowss & _ & _ & Hw).
  destruct (Forall2_In_r _ _ _ _ Hw Hl) as (w & _ & Hwl). eauto.
Qed.

Lemma groupImages_finishes imgs : forall acc t,
  groupImages imgs acc t <> OutOfFuel.
Proof.
  induction imgs as [|img imgs IH]; intros acc t; simpl; [done|].
  unfold bind, groupStep.
  destruct (inherited (img_category img)); [done | unfold ret; apply IH].
Qed.

Lemma groupImages_Throw imgs : forall acc t e,
  groupImages imgs acc t = Throw e ->
  Exists (fun img => inherited (img_category img) = true) imgs.
Proof.
  induction imgs as [|img imgs IH]; intros acc t e; simpl; [done|].
  unfold bind, groupStep.
  destruct (inherited (img_category img)) eqn:E;
    [intros _; by apply Exists_cons_hd|].
  unfold ret. intros H. apply Exists_cons_tl. by eapply IH.
Qed.

Lemma generateAllListings_Throw diskOk imgs t e :
  generateAllListings diskOk (ImageArray imgs) t = Throw e ->
  diskOk = false
  \/ Exists (fun img => inherited (img_category img) = true) imgs.
Proof.
  unfold generateAllListings, bind. intros H.
  destruct (groupImages imgs [] t) as [[obj t1]|e1|] eqn:Hg.
  - destruct (categoriesLoop (entries obj) [] t1) as [[ls t2]|e2|] eqn:Hl.
    + destruct diskOk; [discriminate | by left].
    + destruct (succeeds_categoriesLoop (entries obj) [] t1) as (? & ? & E & _).
      congruence.
    + discriminate.
  - right. by eapply groupImages_Throw.
  - discriminate.
Qed.

(** The fuel of the window loops is never used up. *)
Lemma generateAllListings_finishes diskOk imgs t :
  generateAllListings diskOk (ImageArray imgs) t <> OutOfFuel.
Proof.
  unfold generateAllListings, bind.
  destruct (groupImages imgs [] t) as [[obj t1]|e1|] eqn:Hg.
  - destruct (succeeds_categoriesLoop (entries obj) [] t1) as (ls & t2 & E & _).
    rewrite E. by destruct diskOk.
  - discriminate.
  - by apply groupImages_finishes in Hg.
Qed.

(** C10: every window handed to [generateListing] is non-empty.  A run of
    [generateAllListings] never fails on the first image of a window: it
    throws only where grouping met a category name inherited from
    [Object.prototype] or where the disk refused the file, and it does not
    run out of fuel.  When it returns, the catalog was grouped by category,
    every group was cut, left to right, into windows of between 1 and 5
    images, the listings correspond one to one to these windows, each
    generated from its window, and all images of a window are of the
    listing's category. *)
Theorem windows_nonempty_same_category diskOk imgs t :
  match generateAllListings diskOk (ImageArray imgs) t with
  | Return (out, _) =>
      exists gs windowss,
        grouped gs imgs
        /\ cutInto gs windowss
        /\ Forall2 (windowOf imgs) (concat windowss) (out_listings out)
  | Throw _ =>
      diskOk = false
      \/ Exists (fun img => inherited (img_category img) = true) imgs
  | OutOfFuel => False
  end.
Proof.
  destruct (generateAllListings diskOk (ImageArray imgs) t)
    as [[out t']|e|] eqn:H.
  - by eapply listings_windows.
  - by eapply generateAllListings_Throw.
  - by eapply generateAllListings_finishes.
Qed.

(** ** Tags *)

Lemma newSet_In_acc xs : forall acc x,
  In x (fold_left (fun acc x => if existsb (String.eqb x) acc then acc
                                else acc ++ [x]) xs acc)
  <-> In x acc \/ In x xs.
Proof.
  induction xs as [|y xs IH]; intros acc x; simpl; [tauto|].
  rewrite IH. destruct (existsb (String.eqb y) acc) eqn:E.
  - apply existsb_exists in E as (z & Hz & E). apply String.eqb_eq in E.
    subst z. intuition (subst; auto).
  - rewrite in_app_iff. simpl. tauto.
Qed.

Lemma newSet_NoDup_acc xs : forall acc,
  List.NoDup acc ->
  List.NoDup (fold_left (fun acc x => if existsb (String.eqb x) acc then acc
                                      else acc ++ [x]) xs acc).
Proof.
  induction xs as [|y xs IH]; intros acc Hacc; simpl; [done|].
  apply IH. destruct (existsb (String.eqb y) acc) eqn:E; [done|].
  apply NoDup_ListNoDup, NoDup_app. apply NoDup_ListNoDup in Hacc.
  repeat split; [done | | apply NoDup_singleton].
  intros x Hx Hy. apply list_elem_of_singleton in Hy. subst x.
  apply list_elem_of_In in Hx.
  assert (existsb (String.eqb y) acc = true); [| congruence].
  apply existsb_exists. exists y. split; [done | apply String.eqb_refl].
Qed.

Lemma newSet_In xs x : In x (newSet xs) <-> In x xs.
Proof. unfold newSet. rewrite newSet_In_acc. simpl. tauto. Qed.

Lemma newSet_NoDup xs : List.NoDup (newSet xs).
Proof. apply newSet_NoDup_acc. constructor. Qed.

(** C7 (amended): the tags of a listing are the distinct elements of: the
    tags of the first image of its window, its category, its materials and
    its condition.  The tags of the window's other images are not used. *)
Theorem tags_of_first_image diskOk imgs t out t' l :
  generateAllListings diskOk (ImageArray imgs) t = Return (out, t') ->
  In l (out_listings out) ->
  exists first rest,
    windowOf imgs (first :: rest) l
    /\ lst_images l = map img_url (first :: rest)
    /\ List.NoDup (lst_tags l)
    /\ forall tag,
         In tag (lst_tags l) <->
         In tag (img_tags first) \/ tag = lst_category l
         \/ In tag (lst_materials l)
         \/ tag = conditionName (lst_condition l).
Proof.
  intros H Hl.
  destruct (listing_window _ _ _ _ _ _ H Hl) as (w & Hw).
  pose proof Hw as ((t1 & t2 & Hgen) & _).
  apply generateListing_spec in Hgen
    as (first & rest & _ & -> & Himgs & Hcat & Htags & _).
  exists first, rest. split; [done|]. split; [done|].
  rewrite Htags. split; [apply newSet_NoDup|].
  intros tag. rewrite newSet_In, !in_app_iff, Hcat. simpl.
  intuition (subst; auto).
Qed.

(** ** Prices *)

(** *** The doubles of the script compute the exact prices *)

Lemma allAgree_sound n : forall b,
  allAgree n b = true ->
  forall z c, b <= z < b + Z.of_nat n -> doubleAgrees z c = true.
Proof.
  induction n as [|n IH]; intros b H z c Hz; [lia|].
  cbn [allAgree] in H. rewrite !andb_true_iff in H.
  destruct H as ((((Hnew & Hexc) & Hgood) & Hfair) & Hrest).
  destruct (Z.eq_dec z b) as [-> | Hne]; [by destruct c|].
  apply (IH (b + 1)); [done | lia].
Qed.

(** Every base price between [LOWEST_BASE] and [HIGHEST_BASE], with every
    condition, evaluated. *)
Lemma all_base_prices_agree :
  allAgree (Z.to_nat (HIGHEST_BASE - LOWEST_BASE + 1)) LOWEST_BASE = true.
Proof. vm_compute. reflexivity. Qed.

Lemma percent_quotient z c :
  0 <= z <= HIGHEST_BASE ->
  Uint63.to_Z ((Uint63.of_Z z * multiplierPercent c + 50000) / 100000)%uint63
  = (z * Uint63.to_Z (multiplierPercent c) + 50000) / 100000.
Proof.
  unfold HIGHEST_BASE. intros Hz.
  assert (Hp : 0 <= Uint63.to_Z (multiplierPercent c) <= 100)
    by (destruct c; vm_compute; split; congruence).
  assert (HwB : Uint63.wB = 9223372036854775808) by reflexivity.
  rewrite Uint63.div_spec, Uint63.add_spec, Uint63.mul_spec, Uint63.of_Z_spec.
  change (Uint63.to_Z 50000) with 50000.
  change (Uint63.to_Z 100000) with 100000.
  rewrite (Z.mod_small z) by lia.
  rewrite (Z.mod_small (z * _)) by nia.
  rewrite Z.mod_small by nia. done.
Qed.

Lemma exact_quotient z c :
  nearestInteger (inject_Z z * multiplierValue c / 1000)
  = (z * Uint63.to_Z (multiplierPercent c) + 50000) / 100000.
Proof.
  unfold nearestInteger.
  assert (Heq : (inject_Z z * multiplierValue c / 1000 + (1 # 2)
                 == (z * Uint63.to_Z (multiplierPercent c) + 50000) # 100000)%Q).
  { destruct c;
      [ change (Uint63.to_Z (multiplierPercent new)) with 100
      | change (Uint63.to_Z (multiplierPercent excellent)) with 85
      | change (Uint63.to_Z (multiplierPercent good)) with 65
      | change (Uint63.to_Z (multiplierPercent fair)) with 45 ];
      unfold Qeq, multiplierValue; cbn; lia. }
  rewrite (Qfloor_comp _ _ Heq). reflexivity.
Qed.

(** On the base prices of the script, the price computed in doubles is the
    exact product of base price and multiplier, rounded to the nearest
    1000. *)
Lemma priceOf_exact b c :
  LOWEST_BASE <= b <= HIGHEST_BASE ->
  priceOf b c = roundToThousand (inject_Z b * multiplierValue c).
Proof.
  intros Hb.
  pose proof (allAgree_sound _ _ all_base_prices_agree b c) as H.
  unfold LOWEST_BASE, HIGHEST_BASE in *.
  unfold doubleAgrees in H. rewrite !andb_true_iff in H.
  destruct H as [_ H]; [lia|]. apply Uint63.eqb_correct in H.
  unfold priceOf, mathRound, roundToThousand.
  rewrite H, percent_quotient, exact_quotient; [done|].
  unfold HIGHEST_BASE. lia.
Qed.

Lemma nearestInteger_mono x y : (x <= y)%Q -> nearestInteger x <= nearestInteger y.
Proof.
  intros H. unfold nearestInteger. apply Qfloor_resp_le.
  apply Qplus_le_l. exact H.
Qed.

Lemma roundToThousand_mono b1 b2 c1 c2 :
  0 <= b1 <= b2 ->
  (0 <= c1)%Q -> (c1 <= c2)%Q ->
  roundToThousand (inject_Z b1 * c1) <= roundToThousand (inject_Z b2 * c2).
Proof.
  intros Hb H0 Hc. unfold roundToThousand.
  apply Z.mul_le_mono_nonneg_r; [lia|]. apply nearestInteger_mono.
  apply Qmult_le_compat_r; [| done].
  apply Qmult_le_compat_nonneg; split; try done.
  - change 0%Q with (inject_Z 0). rewrite <- Zle_Qle. lia.
  - rewrite <- Zle_Qle. lia.
Qed.

Lemma multiplier_bounds c :
  (0.45 <= multiplierValue c)%Q /\ (multiplierValue c <= 1)%Q.
Proof. destruct c; split; done. Qed.

Lemma table_ranges :
  Forall (fun e => LOWEST_BASE <= min (snd e) <= max (snd e)
                   /\ max (snd e) <= HIGHEST_BASE
                   /\ 0 < roundToThousand (inject_Z (min (snd e)) * 0.45))
         PRICE_RANGES.
Proof. repeat constructor; vm_compute; congruence. Qed.

Lemma objGet_Some_In {V} (obj : JsObject V) k v :
  objGet obj k = Some v -> In (k, v) obj.
Proof.
  induction obj as [|[k0 v0] obj IH]; simpl; [done|].
  destruct (String.eqb k0 k) eqn:E; [| auto].
  apply String.eqb_eq in E. intros [= ->]. left. by subst.
Qed.

(** C8: the price of a listing whose category has an entry [range] in
    [PRICE_RANGES] is computed, in doubles, from a base price that is an
    integer of [[min, max]]; it equals the base price times the multiplier
    of the condition (1, 0.85, 0.65 or 0.45), rounded to the nearest 1000;
    it is positive, a multiple of 1000, and lies between [min x 0.45] and
    [max x 1], each rounded to the nearest 1000. *)
Theorem price_bounds diskOk imgs t out t' l range :
  generateAllListings diskOk (ImageArray imgs) t = Return (out, t') ->
  In l (out_listings out) ->
  objGet PRICE_RANGES (lst_category l) = Some range ->
  (exists basePrice,
     min range <= basePrice <= max range
     /\ lst_price_ngn l = priceOf basePrice (lst_condition l)
     /\ lst_price_ngn l =
          roundToThousand (inject_Z basePrice
                           * multiplierValue (lst_condition l)))
  /\ 0 < lst_price_ngn l
  /\ lst_price_ngn l mod 1000 = 0
  /\ roundToThousand (inject_Z (min range) * 0.45) <= lst_price_ngn l
       <= roundToThousand (inject_Z (max range) * 1).
Proof.
  intros H Hl Hrange.
  destruct (listing_window _ _ _ _ _ _ H Hl) as (w & (t1 & t2 & Hgen) & _).
  apply generateListing_spec in Hgen
    as (first & rest & basePrice & _ & _ & Hcat & _ & Hbase & Hprice).
  unfold rangeOf, objGetOr in Hbase. rewrite <- Hcat, Hrange in Hbase.
  pose proof table_ranges as Htable. rewrite List.Forall_forall in Htable.
  destruct (Htable _ (objGet_Some_In _ _ _ Hrange)) as (Hmin & Hmax & Hpos).
  simpl in Hmin, Hmax, Hpos.
  assert (Hexact : lst_price_ngn l =
                   roundToThousand (inject_Z basePrice
                                    * multiplierValue (lst_condition l)))
    by (rewrite Hprice; apply priceOf_exact; lia).
  destruct (multiplier_bounds (lst_condition l)) as [Hlo Hhi].
  assert (Hlower : roundToThousand (inject_Z (min range) * 0.45)
                   <= lst_price_ngn l)
    by (rewrite Hexact; apply roundToThousand_mono;
        [unfold LOWEST_BASE in Hmin; lia | done | done]).
  assert (Hupper : lst_price_ngn l
                   <= roundToThousand (inject_Z (max range) * 1)).
  { rewrite Hexact. apply roundToThousand_mono;
      [unfold LOWEST_BASE in Hmin; lia | | done].
    eapply Qle_trans; [| exact Hlo]. done. }
  split; [by exists basePrice|]. split; [lia|]. split; [| lia].
  rewrite Hexact. unfold roundToThousand. apply Z_mod_mult.
Qed.

(** ** main *)

(** C6 (amended): the job aborts with exit status 1 when the image catalog
    cannot be read, is not JSON, is [null], or has an [images] property
    that is neither falsy nor an array.  A catalog whose [images] property
    is missing is read as one with no images, and a catalog with no images
    is not an error: the job writes a listing catalog without listings and
    exits with status 0 (status 1 only if the disk refuses the file). *)
Theorem catalog_without_images_is_empty diskOk t :
  main Unreadable diskOk t = Exited 1 None
  /\ main NotJson diskOk t = Exited 1 None
  /\ main JsonNull diskOk t = Exited 1 None
  /\ main (JsonValue ImagesOther) diskOk t = Exited 1 None
  /\ main (JsonValue ImagesFalsy) diskOk t
       = main (JsonValue (ImagesArray [])) diskOk t
  /\ main (JsonValue (ImagesArray [])) diskOk t
       = if diskOk then Exited 0 (Some emptyListings) else Exited 1 None.
Proof. repeat split; by destruct diskOk. Qed.

(** C6, counterexample: on a catalog that lacks the [images] field the job
    completes with exit status 0. *)
Lemma missing_images_exits_zero :
  main (JsonValue ImagesFalsy) true (constantTape 0) = Exited 0 (Some emptyListings).
Proof. reflexivity. Qed.

Lemma main_array imgs diskOk t :
  main (JsonValue (ImagesArray imgs)) diskOk t =
    match generateAllListings diskOk (ImageArray imgs) t with
    | Return (out, _) => Exited 0 (Some out)
    | Throw _ => Exited 1 None
    | OutOfFuel => Unfinished
    end.
Proof. reflexivity. Qed.

(** The job always ends: the fuel of the model's loops is never used up. *)
Lemma main_exits file diskOk t : main file diskOk t <> Unfinished.
Proof.
  destruct file as [| | |[| |imgs]]; try (by destruct diskOk).
  rewrite main_array.
  pose proof (generateAllListings_finishes diskOk imgs t) as H.
  by destruct (generateAllListings diskOk (ImageArray imgs) t) as [[out t']| |].
Qed.

(** On a catalog none of whose categories is a name inherited from
    [Object.prototype], with a disk that takes the file, the synthesis
    returns its listing catalog. *)
Lemma synthesis_succeeds imgs t :
  Forall (fun img => inherited (img_category img) = false) imgs ->
  exists out t', generateAllListings true (ImageArray imgs) t = Return (out, t').
Proof.
  intros Hok.
  destruct (succeeds_groupImages imgs [] Hok t) as (obj & t1 & Hg & _).
  destruct (succeeds_categoriesLoop (entries obj) [] t1) as (ls & t2 & Hl & _).
  unfold generateAllListings, bind. rewrite Hg, Hl. by eexists _, _.
Qed.

(** ** Concrete runs *)

(** C7, counterexample: the two sofas end up in one listing (the first draw
    makes the window two images long); the second sofa's tag is not among
    the listing's tags. *)
Lemma second_image_tags_dropped :
  exists out t' l,
    generateAllListings true (ImageArray [redSofa; blueSofa]) (constantTape 1)
      = Return (out, t')
    /\ out_listings out = [l]
    /\ lst_images l = [img_url redSofa; img_url blueSofa]
    /\ In "blue"%string (img_tags blueSofa)
    /\ ~ In "blue"%string (lst_tags l).
Proof.
  eexists _, _, _. split; [vm_compute; reflexivity|].
  split; [reflexivity|]. split; [reflexivity|]. split; [by left|].
  simpl. intros H. repeat destruct H as [H | H]; try discriminate H. done.
Qed.

(** Runs the generator on a concrete catalog and tape: the outcome [out]
    and the rest of the tape are replaced by the values computed. *)
Ltac run_generator E :=
  match goal with
  | |- context [generateAllListings ?d ?i ?t] =>
    destruct (generateAllListings d i t) as [[?out ?t']| |] eqn:E;
    [ let E' := fresh in
      pose proof E as E'; vm_compute in E'; injection E' as <- <-
    | vm_compute in E; discriminate E
    | vm_compute in E; discriminate E ]
  end.

Lemma synthesis_succeeds_witness :
  exists out t',
    generateAllListings true (ImageArray [redSofa; blueSofa; oakDesk]) (constantTape 1)
      = Return (out, t').
Proof.
  apply (synthesis_succeeds [redSofa; blueSofa; oakDesk] (constantTape 1)).
  repeat constructor.
Defined.

Lemma tags_of_first_image_witness :
  exists out t' l,
    generateAllListings true (ImageArray [redSofa; blueSofa; oakDesk]) (constantTape 1)
      = Return (out, t')
    /\ In l (out_listings out)
    /\ exists first rest,
         windowOf [redSofa; blueSofa; oakDesk] (first :: rest) l
         /\ lst_images l = map img_url (first :: rest)
         /\ List.NoDup (lst_tags l)
         /\ forall tag,
              In tag (lst_tags l) <->
              In tag (img_tags first) \/ tag = lst_category l
              \/ In tag (lst_materials l)
              \/ tag = conditionName (lst_condition l).
Proof.
  run_generator E.
  eexists _, _, _. split; [reflexivity|]. split; [left; reflexivity|].
  eapply (tags_of_first_image _ _ _ _ _ _ E). left. reflexivity.
Defined.

Lemma price_bounds_witness :
  exists out t' l range,
    generateAllListings true (ImageArray [redSofa; blueSofa; oakDesk]) (constantTape 1)
      = Return (out, t')
    /\ In l (out_listings out)
    /\ objGet PRICE_RANGES (lst_category l) = Some range
    /\ (exists basePrice,
          min range <= basePrice <= max range
          /\ lst_price_ngn l = priceOf basePrice (lst_condition l)
          /\ lst_price_ngn l =
               roundToThousand (inject_Z basePrice
                                * multiplierValue (lst_condition l)))
    /\ 0 < lst_price_ngn l
    /\ lst_price_ngn l mod 1000 = 0
    /\ roundToThousand (inject_Z (min range) * 0.45) <= lst_price_ngn l
         <= roundToThousand (inject_Z (max range) * 1).
Proof.
  run_generator E.
  eexists _, _, _, _. split; [reflexivity|]. split; [left; reflexivity|].
  split; [reflexivity|].
  eapply (price_bounds _ _ _ _ _ _ _ E); [left|]; reflexivity.
Defined.

Lemma images_partitioned_witness :
  exists out t',
    generateAllListings true (ImageArray [redSofa; blueSofa; oakDesk]) (constantTape 1)
      = Return (out, t')
    /\ forall c,
         concat (map lst_images
                   (List.filter (fun l => String.eqb (lst_category l) c)
                                (out_listings out)))
         = map img_url
               (List.filter (fun img => String.eqb (img_category img) c)
                            [redSofa; blueSofa; oakDesk]).
Proof.
  run_generator E.
  eexists _, _. split; [reflexivity|].
  exact (images_partitioned _ _ _ _ _ E).
Defined.

(** ** The parts of a listing *)

Lemma arrayElement_In {A} (xs : list A) t x t' :
  arrayElement xs t = Return (x, t') -> In x xs.
Proof.
  unfold arrayElement, bind, draw.
  destruct (xs !! _) as [y|] eqn:E; [| discriminate].
  intros [= <- _]. apply list_elem_of_In. by eapply list_elem_of_lookup_2.
Qed.

Lemma In_delete {A} (l : list A) i x : In x (delete i l) -> In x l.
Proof.
  revert i. induction l as [|y l IH]; intros [|i]; simpl; auto.
  intros [-> | H]; eauto.
Qed.

Lemma NoDup_delete_lookup {A} (l : list A) i x :
  List.NoDup l -> l !! i = Some x ->
  ~ In x (delete i l) /\ List.NoDup (delete i l).
Proof.
  revert i. induction l as [|y l IH]; intros [|i] Hnd; simpl; try done.
  - intros [= ->]. by inversion Hnd.
  - intros Hi. inversion Hnd as [|? ? Hy Hl]; subst.
    destruct (IH i Hl Hi) as [Hx Hd]. split.
    + intros [-> | H]; [| done]. apply Hy.
      apply list_elem_of_In. by eapply list_elem_of_lookup_2.
    + constructor; [| done]. intros H. apply Hy. by eapply In_delete.
Qed.

(** [arrayElements]: distinct elements of the pool, as many as asked for
    where the pool has as many. *)
Lemma pickDistinct_spec {A} n : forall (pool : list A) t xs t',
  List.NoDup pool ->
  pickDistinct n pool t = Return (xs, t') ->
  List.NoDup xs
  /\ (forall x, In x xs -> In x pool)
  /\ length xs = Nat.min n (length pool).
Proof.
  induction n as [|n IH]; intros pool t xs t' Hnd; cbn [pickDistinct].
  - intros [= <- _]. repeat split; [constructor | done].
  - intros H. apply bind_Return in H as (r & t1 & _ & H).
    destruct (pool !! (r mod length pool)%nat) as [x|] eqn:Hx.
    + apply bind_Return in H as (rest & t2 & Hrest & [= <- _]).
      destruct (NoDup_delete_lookup pool _ x Hnd Hx) as [Hfresh Hnd'].
      apply IH in Hrest as (Hnd_rest & Hin & Hlen); [| done].
      assert (Hlt : (r mod length pool < length pool)%nat)
        by (by eapply lookup_lt_Some).
      repeat split.
      * constructor; [| done]. intros H. by apply Hfresh, Hin.
      * intros y [<- | Hy].
        -- apply list_elem_of_In. by eapply list_elem_of_lookup_2.
        -- eapply In_delete. by apply Hin.
      * cbn [length]. rewrite Hlen, length_delete by eauto. lia.
    + injection H as <- _. apply lookup_ge_None in Hx.
      destruct pool; simpl in *; [| pose proof (Nat.mod_upper_bound r (S (length pool))); lia].
      repeat split; [constructor | done].
Qed.

Lemma alphanumeric_spec n : forall t s t',
  alphanumeric n t = Return (s, t') ->
  String.length s = n /\ allChars isAlphanumeric s = true.
Proof.
  induction n as [|n IH]; intros t s t'; simpl.
  - by intros [= <- _].
  - intros H. apply bind_Return in H as (c & t1 & Hc & H).
    apply bind_Return in H as (rest & t2 & Hrest & [= <- _]).
    apply IH in Hrest as [Hlen Hall]. simpl. rewrite Hlen, Hall.
    split; [done|]. rewrite andb_true_r.
    apply arrayElement_In in Hc. unfold isAlphanumeric.
    apply existsb_exists. exists c. split; [done | apply Ascii.eqb_refl].
Qed.

Lemma materials_NoDup category : List.NoDup (materialsOf category).
Proof.
  apply (objGetOr_Forall (fun ms => List.NoDup ms)).
  - repeat constructor; simpl; intuition discriminate.
  - repeat constructor; simpl; intuition discriminate.
Qed.

Lemma materials_nonempty category : materialsOf category <> [].
Proof. apply (objGetOr_Forall (fun ms => ms <> [])); [| done]. repeat constructor; done. Qed.

(** What each field of a listing was computed by. *)
Lemma generateListing_parts images t l t' :
  generateListing images t = Return (l, t') ->
  exists first rest,
    images = first :: rest
    /\ lst_category l = img_category first
    /\ (exists count, 1 <= count <= 2
          /\ yields (arrayElements (materialsOf (img_category first)) count)
                    (lst_materials l))
    /\ yields (generateTitle (img_category first)
                             (List.hd "undefined"%string (lst_materials l)))
              (lst_title l)
    /\ (exists suffix, yields (alphanumeric 6) suffix
          /\ lst_slug l = (slugBody (lst_title l) ++ "-" ++ suffix)%string)
    /\ yields (arrayElement NIGERIAN_CITIES) (lst_city l)
    /\ yields (generateDimensions (img_category first)) (lst_dimensions l)
    /\ yields (number_int 1 8) (lst_stock l).
Proof.
  destruct images as [|first rest]; [discriminate|].
  unfold generateListing. cbv zeta. intros H.
  apply bind_Return in H as (condition & t1 & _ & H).
  apply bind_Return in H as (materialCount & t2 & Hcount & H).
  apply bind_Return in H as (materials & t3 & Hmaterials & H).
  apply bind_Return in H as (title & t4 & Htitle & H).
  apply bind_Return in H as (suffix & t5 & Hsuffix & H).
  apply bind_Return in H as (city & t6 & Hcity & H).
  apply bind_Return in H as (basePrice & t7 & _ & H).
  apply bind_Return in H as (description & t8 & _ & H).
  apply bind_Return in H as (featured & t9 & _ & H).
  apply bind_Return in H as (id & t10 & _ & H).
  apply bind_Return in H as (dimensions & t11 & Hdims & H).
  apply bind_Return in H as (stock & t12 & Hstock & H).
  apply bind_Return in H as (createdAt & t13 & _ & H).
  injection H as <- _.
  apply number_int_range in Hcount.
  exists first, rest. simpl.
  split; [done|]. split; [done|].
  split; [exists materialCount; split; [done | by exists t2, t3]|].
  split; [by exists t3, t4|].
  split; [exists suffix; split; [by exists t4, t5 | done]|].
  split; [by exists t5, t6|]. split; [by exists t10, t11 | by exists t11, t12].
Qed.

Lemma listing_parts diskOk imgs t out t' l :
  generateAllListings diskOk (ImageArray imgs) t = Return (out, t') ->
  In l (out_listings out) ->
  exists w t1 t2, generateListing w t1 = Return (l, t2).
Proof.
  intros H Hl. destruct (listing_window _ _ _ _ _ _ H Hl) as (w & (t1 & t2 & Hgen) & _).
  eauto.
Qed.

(** ** The fields of a listing *)

(** Every listing names one of the fifteen cities, has a stock of 1 to 8,
    and one or two materials, distinct and taken from the materials of its
    category (wood and metal for a category the table does not know); its
    tags are distinct and include its category, its materials and its
    condition. *)
Theorem listing_fields_in_range diskOk imgs t out t' l :
  generateAllListings diskOk (ImageArray imgs) t = Return (out, t') ->
  In l (out_listings out) ->
  In (lst_city l) NIGERIAN_CITIES
  /\ 1 <= lst_stock l <= 8
  /\ 1 <= len (lst_materials l) <= 2
  /\ List.NoDup (lst_materials l)
  /\ (forall m, In m (lst_materials l) -> In m (materialsOf (lst_category l)))
  /\ List.NoDup (lst_tags l)
  /\ In (lst_category l) (lst_tags l)
  /\ In (conditionName (lst_condition l)) (lst_tags l)
  /\ (forall m, In m (lst_materials l) -> In m (lst_tags l)).
Proof.
  intros H Hl. destruct (listing_parts _ _ _ _ _ _ H Hl) as (w & t1 & t2 & Hgen).
  pose proof Hgen as Hspec.
  apply generateListing_spec in Hspec as (first' & rest' & _ & Hw' & _ & _ & Htags & _).
  apply generateListing_parts in Hgen
    as (first & rest & Hw & Hcat & (count & Hcount & tm & tm' & Hm) & _ & _
        & (tc & tc' & Hcity) & _ & (ts & ts' & Hstock)).
  rewrite Hw in Hw'. injection Hw' as <- <-.
  apply arrayElement_In in Hcity. apply number_int_range in Hstock.
  apply pickDistinct_spec in Hm as (Hnd & Hin & Hlen); [| apply materials_NoDup].
  pose proof (materials_nonempty (img_category first)) as Hne.
  split; [done|]. split; [done|]. split.
  { unfold len. rewrite Hlen.
    destruct (materialsOf (img_category first)) as [|m ms]; [done|]. simpl. lia. }
  split; [done|]. split; [by rewrite Hcat|].
  rewrite Htags. split; [apply newSet_NoDup|].
  rewrite !newSet_In, Hcat. repeat split.
  - rewrite !in_app_iff. simpl. auto.
  - rewrite !in_app_iff. simpl. auto.
  - intros m Hm'. rewrite newSet_In, !in_app_iff. auto.
Qed.

Lemma listing_fields_in_range_witness :
  exists out t' l,
    generateAllListings true (ImageArray [redSofa; blueSofa; oakDesk]) (constantTape 1)
      = Return (out, t')
    /\ In l (out_listings out)
    /\ In (lst_city l) NIGERIAN_CITIES
    /\ 1 <= lst_stock l <= 8
    /\ 1 <= len (lst_materials l) <= 2
    /\ List.NoDup (lst_materials l)
    /\ (forall m, In m (lst_materials l) -> In m (materialsOf (lst_category l)))
    /\ List.NoDup (lst_tags l)
    /\ In (lst_category l) (lst_tags l)
    /\ In (conditionName (lst_condition l)) (lst_tags l)
    /\ (forall m, In m (lst_materials l) -> In m (lst_tags l)).
Proof.
  run_generator E.
  eexists _, _, _. split; [reflexivity|]. split; [left; reflexivity|].
  eapply (listing_fields_in_range _ _ _ _ _ _ E). left. reflexivity.
Defined.

(** ** Dimensions *)

Lemma generateDimensions_spec category t d t' :
  generateDimensions category t = Return (d, t') ->
  dim_unit d = "cm"%string /\ dim_diameter d = None
  /\ (exists w, dim_width d = Some w /\ 40 <= w <= 200)
  /\ (exists h, dim_height d = Some h /\ 40 <= h <= 220)
  /\ match dim_length d with
     | Some l => 80 <= l <= 240
                 /\ category <> "wardrobe"%string /\ category <> "chair"%string
     | None => category = "wardrobe"%string \/ category = "chair"%string
     end
  /\ (category = "wardrobe"%string ->
      exists w, dim_width d = Some w /\ 50 <= w <= 70).
Proof.
  unfold generateDimensions. intros H.
  repeat match type of H with
         | (if String.eqb category ?s then _ else _) _ = _ =>
           let E := fresh "E" in
           destruct (String.eqb category s) eqn:E;
           [apply String.eqb_eq in E | apply String.eqb_neq in E]
         end;
    repeat match type of H with
           | bind (number_int _ _) _ _ = _ =>
             let Hr := fresh "Hr" in
             apply bind_Return in H as (? & ? & Hr & H);
             apply number_int_range in Hr
           end;
    injection H as <- _; simpl; subst;
    repeat split; try done; try lia; eauto;
    try (eexists; split; [reflexivity | lia]);
    try (intros ?; done).
Qed.

(** Every listing has a width and a height, in centimetres, and no
    diameter; it has a length unless it is a wardrobe or a chair.  Widths
    lie between 40 and 200, heights between 40 and 220, lengths between 80
    and 240.  A wardrobe's width is between 50 and 70: of the two values
    the script assigns to it, the second one. *)
Theorem dimensions_in_range diskOk imgs t out t' l :
  generateAllListings diskOk (ImageArray imgs) t = Return (out, t') ->
  In l (out_listings out) ->
  let d := lst_dimensions l in
  dim_unit d = "cm"%string /\ dim_diameter d = None
  /\ (exists w, dim_width d = Some w /\ 40 <= w <= 200)
  /\ (exists h, dim_height d = Some h /\ 40 <= h <= 220)
  /\ match dim_length d with
     | Some len => 80 <= len <= 240
                   /\ lst_category l <> "wardrobe"%string
                   /\ lst_category l <> "chair"%string
     | None => lst_category l = "wardrobe"%string
               \/ lst_category l = "chair"%string
     end
  /\ (lst_category l = "wardrobe"%string ->
      exists w, dim_width d = Some w /\ 50 <= w <= 70).
Proof.
  intros H Hl. destruct (listing_parts _ _ _ _ _ _ H Hl) as (w & t1 & t2 & Hgen).
  apply generateListing_parts in Hgen
    as (first & rest & _ & Hcat & _ & _ & _ & _ & (td & td' & Hdims) & _).
  rewrite Hcat. by eapply generateDimensions_spec.
Qed.

Lemma dimensions_in_range_witness :
  exists out t' l,
    generateAllListings true (ImageArray [redSofa; blueSofa; oakDesk]) (constantTape 1)
      = Return (out, t')
    /\ In l (out_listings out)
    /\ let d := lst_dimensions l in
       dim_unit d = "cm"%string /\ dim_diameter d = None
       /\ (exists w, dim_width d = Some w /\ 40 <= w <= 200)
       /\ (exists h, dim_height d = Some h /\ 40 <= h <= 220)
       /\ match dim_length d with
          | Some len => 80 <= len <= 240
                        /\ lst_category l <> "wardrobe"%string
                        /\ lst_category l <> "chair"%string
          | None => lst_category l = "wardrobe"%string
                    \/ lst_category l = "chair"%string
          end
       /\ (lst_category l = "wardrobe"%string ->
           exists w, dim_width d = Some w /\ 50 <= w <= 70).
Proof.
  run_generator E.
  eexists _, _, _. split; [reflexivity|]. split; [left; reflexivity|].
  eapply (dimensions_in_range _ _ _ _ _ _ E). left. reflexivity.
Defined.

(** ** The listing catalog as a whole *)

Lemma generateAllListings_output diskOk imgs t out t' :
  generateAllListings diskOk (ImageArray imgs) t = Return (out, t') ->
  exists obj lss t1,
    groupImages imgs [] t = Return (obj, t1)
    /\ grouped obj imgs
    /\ Forall2 groupListed (entries obj) lss
    /\ out = mkListingsFile
               (mkListingsMeta (len (concat lss)) (len imgs)
                  (map fst (entries obj))
                  (mathMin (map lst_price_ngn (concat lss)))
                  (mathMax (map lst_price_ngn (concat lss))))
               (concat lss).
Proof.
  unfold generateAllListings. intros H.
  apply bind_Return in H as (obj & t1 & Hgroup & H).
  apply bind_Return in H as (ls & t2 & Hloop & H).
  pose proof Hgroup as Hgrouped.
  apply (groupImages_spec _ _ []) in Hgrouped as [Hgrouped _]; [| apply grouped_nil].
  apply categoriesLoop_spec in Hloop as (lss & -> & Hlss).
  exists obj, lss, t1.
  destruct diskOk; [| discriminate]. injection H as <- _. by simpl.
Qed.

Lemma objSet_size c img (acc : JsObject (list ImageData)) :
  groupSize (objSet c (objGetOr acc c [] ++ [img]) acc) = groupSize acc + 1.
Proof.
  unfold objGetOr. induction acc as [|[k v] acc IH]; simpl; [done|].
  destruct (String.eqb k c); simpl.
  - unfold len. rewrite length_app. simpl. lia.
  - rewrite IH. lia.
Qed.

Lemma groupImages_size imgs : forall acc t obj t',
  groupImages imgs acc t = Return (obj, t') ->
  groupSize obj = groupSize acc + len imgs.
Proof.
  unfold len.
  induction imgs as [|img imgs IH]; intros acc t obj t'; simpl.
  - intros [= <- _]. lia.
  - intros H. apply bind_Return in H as (acc' & t1 & Hstep & H).
    unfold groupStep in Hstep.
    destruct (inherited (img_category img)); [discriminate|].
    injection Hstep as <- <-. apply IH in H. rewrite H, objSet_size. lia.
Qed.

Lemma groupSize_Permutation (a b : JsObject (list ImageData)) :
  Permutation a b -> groupSize a = groupSize b.
Proof. induction 1; simpl; lia. Qed.

Lemma windows_count (windows : list (list ImageData)) :
  Forall windowSized windows ->
  len windows <= len (concat windows) <= 5 * len windows.
Proof.
  unfold len, windowSized.
  induction 1 as [|w windows Hw _ IH]; simpl; [lia|].
  rewrite length_app. unfold len in Hw. lia.
Qed.

Lemma madeFrom_images windows ls :
  Forall2 madeFrom windows ls ->
  len (concat (map lst_images ls)) = len (concat windows)
  /\ len ls = len windows.
Proof.
  unfold len.
  induction 1 as [|w l windows ls (t & t' & Hgen) _ IH]; simpl; [done|].
  apply generateListing_spec in Hgen as (_ & _ & _ & _ & Himgs & _).
  rewrite !length_app, Himgs, length_map. lia.
Qed.

Lemma groupListed_count gs lss :
  Forall2 groupListed gs lss ->
  len (concat (map lst_images (concat lss))) = groupSize gs
  /\ len (concat lss) <= groupSize gs <= 5 * len (concat lss).
Proof.
  induction 1 as [|g ls gs lss (windows & Hcat & Hmade & Hsized) _ IH]; simpl;
    [unfold len; simpl; lia|].
  apply madeFrom_images in Hmade as [Himgs Hlen].
  apply windows_count in Hsized. rewrite Hcat in *.
  unfold len in *. rewrite map_app, concat_app, !length_app. lia.
Qed.

Lemma fold_min_spec rest : forall x,
  let m := fold_left Z.min rest x in
  In m (x :: rest) /\ forall y, In y (x :: rest) -> m <= y.
Proof.
  induction rest as [|z rest IH]; intros x; simpl.
  - split; [by left|]. intros y [<- | []]. lia.
  - destruct (IH (Z.min x z)) as [Hin Hle]. simpl in Hin, Hle. split.
    + destruct Hin as [Hm | Hin]; [| auto].
      rewrite <- Hm. destruct (Z.min_spec x z) as [[_ ->] | [_ ->]]; auto.
    + intros y [<- | [<- | Hy]].
      * specialize (Hle (Z.min x z)). lia.
      * specialize (Hle (Z.min x z)). lia.
      * apply Hle. auto.
Qed.

Lemma fold_max_spec rest : forall x,
  let m := fold_left Z.max rest x in
  In m (x :: rest) /\ forall y, In y (x :: rest) -> y <= m.
Proof.
  induction rest as [|z rest IH]; intros x; simpl.
  - split; [by left|]. intros y [<- | []]. lia.
  - destruct (IH (Z.max x z)) as [Hin Hle]. simpl in Hin, Hle. split.
    + destruct Hin as [Hm | Hin]; [| auto].
      rewrite <- Hm. destruct (Z.max_spec x z) as [[_ ->] | [_ ->]]; auto.
    + intros y [<- | [<- | Hy]].
      * specialize (Hle (Z.max x z)). lia.
      * specialize (Hle (Z.max x z)). lia.
      * apply Hle. auto.
Qed.

(** The figures of [meta] are those of the listings written with it:
    [totalListings] is their number and [totalImages] the number of images
    of the catalog, all of which are in the listings; there is at least
    one listing for every five images and at most one for each; and
    [priceRange] holds the lowest and the highest price of a listing (no
    number at all where there is no listing). *)
Theorem meta_consistent diskOk imgs t out t' :
  generateAllListings diskOk (ImageArray imgs) t = Return (out, t') ->
  let m := out_meta out in
  let ls := out_listings out in
  totalListings m = len ls
  /\ totalImages m = len imgs
  /\ len (concat (map lst_images ls)) = len imgs
  /\ len ls <= len imgs <= 5 * len ls
  /\ match priceMin m, priceMax m with
     | Some lo, Some hi =>
         In lo (map lst_price_ngn ls) /\ In hi (map lst_price_ngn ls)
         /\ forall l, In l ls -> lo <= lst_price_ngn l <= hi
     | None, None => ls = []
     | _, _ => False
     end.
Proof.
  intros H.
  apply generateAllListings_output in H
    as (obj & lss & t1 & Hgroup & _ & Hlss & ->). cbn.
  apply groupImages_size in Hgroup. simpl in Hgroup.
  apply groupListed_count in Hlss as [Himgs Hcount].
  rewrite (groupSize_Permutation _ _ (entries_Permutation obj)), Hgroup in *.
  split; [done|]. split; [done|]. split; [done|]. split; [done|].
  destruct (concat lss) as [|l ls]; [done|]. cbn.
  destruct (fold_min_spec (map lst_price_ngn ls) (lst_price_ngn l)) as [Hlo Hle].
  destruct (fold_max_spec (map lst_price_ngn ls) (lst_price_ngn l)) as [Hhi Hge].
  split; [exact Hlo|]. split; [exact Hhi|].
  intros l' Hl'.
  assert (Hp : In (lst_price_ngn l') (lst_price_ngn l :: map lst_price_ngn ls))
    by (destruct Hl' as [<- | Hl']; [by left | right; by apply in_map]).
  auto.
Qed.

Lemma meta_consistent_witness :
  exists out t',
    generateAllListings true (ImageArray [redSofa; blueSofa; oakDesk]) (constantTape 1)
      = Return (out, t')
    /\ let m := out_meta out in
       let ls := out_listings out in
       totalListings m = len ls
       /\ totalImages m = len [redSofa; blueSofa; oakDesk]
       /\ len (concat (map lst_images ls)) = len [redSofa; blueSofa; oakDesk]
       /\ len ls <= len [redSofa; blueSofa; oakDesk] <= 5 * len ls
       /\ match priceMin m, priceMax m with
          | Some lo, Some hi =>
              In lo (map lst_price_ngn ls) /\ In hi (map lst_price_ngn ls)
              /\ forall l, In l ls -> lo <= lst_price_ngn l <= hi
          | None, None => ls = []
          | _, _ => False
          end.
Proof.
  run_generator E.
  eexists _, _. split; [reflexivity|].
  exact (meta_consistent _ _ _ _ _ E).
Defined.

(** ** The order of the categories *)

Lemma objSet_keys_eq {V} k (v : V) obj :
  map fst (objSet k v obj) =
    if existsb (String.eqb k) (map fst obj) then map fst obj
    else map fst obj ++ [k].
Proof.
  induction obj as [|[k' v'] obj IH]; simpl; [done|].
  rewrite (String.eqb_sym k k').
  destruct (String.eqb k' k) eqn:E; simpl; [done|].
  rewrite IH. by destruct (existsb _ _).
Qed.

Lemma groupImages_keys imgs : forall acc t obj t',
  groupImages imgs acc t = Return (obj, t') ->
  map fst obj
  = map fst acc
    ++ List.filter (fun k => negb (existsb (String.eqb k) (map fst acc)))
                   (firstOccurrences (map img_category imgs)).
Proof.
  induction imgs as [|img imgs IH]; intros acc t obj t'; simpl.
  - intros [= <- _]. by rewrite app_nil_r.
  - intros H. apply bind_Return in H as (acc' & t1 & Hstep & H).
    unfold groupStep in Hstep.
    destruct (inherited (img_category img)); [discriminate|].
    injection Hstep as <- <-. apply IH in H. rewrite H, objSet_keys_eq.
    set (k := img_category img).
    destruct (existsb (String.eqb k) (map fst acc)) eqn:Hk; simpl.
    + f_equal.
      rewrite FetchImagesProps.filter_filter_and. apply filter_ext. intros x.
      destruct (String.eqb x k) eqn:E; simpl; [| done].
      apply String.eqb_eq in E. subst x. by rewrite Hk.
    + rewrite <- app_assoc. simpl. do 2 f_equal.
      rewrite FetchImagesProps.filter_filter_and. apply filter_ext. intros x.
      rewrite existsb_app. simpl. rewrite orb_false_r, negb_orb.
      rewrite (String.eqb_sym x k). apply andb_comm.
Qed.

Lemma filter_true {A} (l : list A) : List.filter (fun _ => true) l = l.
Proof. induction l as [|x l IH]; simpl; [done | by rewrite IH]. Qed.

Lemma firstOccurrences_In xs x : In x (firstOccurrences xs) <-> In x xs.
Proof.
  induction xs as [|y xs IH]; simpl; [done|].
  rewrite filter_In, IH, negb_true_iff, String.eqb_neq.
  destruct (String.eqb_spec y x) as [-> | Hne]; [tauto|].
  split; [tauto|]. intros [H | H]; [done|]. right. split; [done | congruence].
Qed.

Lemma entries_plain {V} (obj : JsObject V) :
  Forall (fun e => isArrayIndex (fst e) = false) obj -> entries obj = obj.
Proof.
  intros H. unfold entries.
  rewrite filter_none, filter_all; [done | |];
    intros e He; rewrite List.Forall_forall in H; by rewrite (H e He).
Qed.

Lemma groupOf_In img imgs :
  In img imgs -> In img (groupOf (img_category img) imgs).
Proof.
  intros H. unfold groupOf. apply filter_In. split; [done | apply String.eqb_refl].
Qed.

Lemma Forall2_fst_map {A B C} (P : A -> C -> Prop) (Q : A * B -> C -> Prop)
    (gs : list (A * B)) (lss : list C) :
  (forall g ls, In g gs -> Q g ls -> P (fst g) ls) ->
  Forall2 Q gs lss -> Forall2 P (map fst gs) lss.
Proof.
  intros HQ H. induction H as [|g ls gs lss Hg _ IH]; simpl; constructor.
  - apply HQ; [by left | done].
  - apply IH. intros g' ls' Hin. apply HQ. by right.
Qed.

(** The listings are written category by category, in the order of
    [meta.categories]: that list names every category of the catalog
    once, and the listings are as many non-empty blocks, the block of a
    category holding listings of that category only.  The categories stand
    in the order of their first image in the catalog, unless one of them is
    spelled like an array index (such names come first in
    [Object.entries]). *)
Theorem listings_by_category diskOk imgs t out t' :
  generateAllListings diskOk (ImageArray imgs) t = Return (out, t') ->
  let cats := categories (out_meta out) in
  List.NoDup cats
  /\ (forall c, In c cats <-> In c (map img_category imgs))
  /\ (exists blocks,
        out_listings out = concat blocks
        /\ Forall2 (fun c ls => ls <> []
                                /\ Forall (fun l => lst_category l = c) ls)
                   cats blocks)
  /\ (Forall (fun img => isArrayIndex (img_category img) = false) imgs ->
      cats = firstOccurrences (map img_category imgs)).
Proof.
  intros H.
  apply generateAllListings_output in H
    as (obj & lss & t1 & Hgroup & Hgrouped & Hlss & ->). cbn.
  apply groupImages_keys in Hgroup. simpl in Hgroup. rewrite filter_true in Hgroup.
  pose proof (grouped_entries _ _ Hgrouped) as (Hnd & Hgs & _).
  assert (Hperm : Permutation (map fst (entries obj)) (map fst obj))
    by (apply Permutation_map, entries_Permutation).
  assert (Hkeys : forall c, In c (map fst (entries obj))
                            <-> In c (map img_category imgs)).
  { intros c. rewrite <- (firstOccurrences_In (map img_category imgs)), <- Hgroup.
    split; apply Permutation_in; [done | by symmetry]. }
  split; [by apply NoDup_ListNoDup|]. split; [exact Hkeys|]. split.
  - exists lss. split; [done|].
    eapply Forall2_fst_map; [| exact Hlss].
    intros [k g] ls Hin Hls. simpl.
    destruct (group_windows imgs k g ls) as (windows & Hcat & Hw);
      [by apply Hgs | done |].
    assert (Hk : In k (map img_category imgs))
      by (apply Hkeys; by apply (in_map fst) in Hin).
    apply in_map_iff in Hk as (img & <- & Himg).
    assert (Hg : g <> []).
    { rewrite (Hgs _ _ Hin). intros Hnil.
      pose proof (groupOf_In img imgs Himg) as Hin'. by rewrite Hnil in Hin'. }
    split.
    + intros ->. apply Forall2_nil_inv_r in Hw as ->. by simpl in Hcat.
    + apply List.Forall_forall. intros l Hl.
      destruct (Forall2_In_r _ _ _ _ Hw Hl) as (w & _ & _ & Hc). done.
  - intros Hplain. rewrite entries_plain; [done|].
    apply List.Forall_forall. intros [k g] Hin. simpl.
    assert (Hk : In k (map img_category imgs)).
    { rewrite <- (firstOccurrences_In (map img_category imgs)), <- Hgroup.
      by apply (in_map fst) in Hin. }
    apply in_map_iff in Hk as (img & <- & Himg).
    rewrite List.Forall_forall in Hplain. by apply Hplain.
Qed.

Lemma listings_by_category_witness :
  exists out t',
    generateAllListings true (ImageArray [redSofa; blueSofa; oakDesk]) (constantTape 1)
      = Return (out, t')
    /\ let cats := categories (out_meta out) in
       List.NoDup cats
       /\ (forall c, In c cats
                     <-> In c (map img_category [redSofa; blueSofa; oakDesk]))
       /\ (exists blocks,
             out_listings out = concat blocks
             /\ Forall2 (fun c ls => ls <> []
                                     /\ Forall (fun l => lst_category l = c) ls)
                        cats blocks)
       /\ (Forall (fun img => isArrayIndex (img_category img) = false)
                  [redSofa; blueSofa; oakDesk] ->
           cats = firstOccurrences (map img_category [redSofa; blueSofa; oakDesk])).
Proof.
  run_generator E.
  eexists _, _. split; [reflexivity|].
  exact (listings_by_category _ _ _ _ _ E).
Defined.

(** ** The exit status *)

Lemma groupImages_inherited imgs : forall acc t,
  Exists (fun img => inherited (img_category img) = true) imgs ->
  exists e, groupImages imgs acc t = Throw e.
Proof.
  induction imgs as [|img imgs IH]; intros acc t Hex; [by inversion Hex|].
  simpl. unfold bind, groupStep.
  destruct (inherited (img_category img)) eqn:E; [by eexists|].
  unfold ret. apply IH. inversion Hex; [congruence | done].
Qed.

Lemma inherited_categories imgs :
  Forall (fun img => inherited (img_category img) = false) imgs
  \/ Exists (fun img => inherited (img_category img) = true) imgs.
Proof.
  induction imgs as [|img imgs [IH | IH]]; [by left | |].
  - destruct (inherited (img_category img)) eqn:E.
    + right. by apply Exists_cons_hd.
    + left. by constructor.
  - right. by apply Exists_cons_tl.
Qed.

Lemma generateAllListings_outcome (diskOk : bool) imgs t :
  (Forall (fun img => inherited (img_category img) = false) imgs
   /\ if diskOk
      then (exists out t',
              generateAllListings diskOk (ImageArray imgs) t = Return (out, t'))
      else (exists e, generateAllListings diskOk (ImageArray imgs) t = Throw e))
  \/ (Exists (fun img => inherited (img_category img) = true) imgs
      /\ exists e, generateAllListings diskOk (ImageArray imgs) t = Throw e).
Proof.
  destruct (inherited_categories imgs) as [Hok | Hex].
  - left. split; [done|].
    destruct (succeeds_groupImages imgs [] Hok t) as (obj & t1 & Hg & _).
    destruct (succeeds_categoriesLoop (entries obj) [] t1) as (ls & t2 & Hl & _).
    unfold generateAllListings, bind. rewrite Hg, Hl.
    destruct diskOk; [by eexists _, _ | by eexists].
  - right. split; [done|].
    destruct (groupImages_inherited imgs [] t Hex) as (e & He).
    exists e. unfold generateAllListings, bind. by rewrite He.
Qed.


(** ** Titles *)

Lemma replaceFirst_absent pat rep s :
  occurs pat s = false -> replaceFirst pat rep s = s.
Proof.
  induction s as [|c s IH]; simpl; intros H;
    apply orb_false_iff in H as [Hp Ht]; rewrite Hp; [done|].
  by rewrite IH.
Qed.

Lemma fillings_In pat reps ss s rep :
  In s ss -> In rep reps -> In (replaceFirst pat rep s) (fillings pat reps ss).
Proof.
  intros Hs Hrep. unfold fillings. apply in_flat_map. exists s. split; [done|].
  destruct (occurs pat s) eqn:E.
  - by apply (in_map (fun rep => replaceFirst pat rep s)).
  - rewrite replaceFirst_absent by done. by left.
Qed.

(** Every title [generateTitle] returns is one of [possibleTitles]. *)
Lemma generateTitle_possible category material t title t' :
  generateTitle category material t = Return (title, t') ->
  In title (possibleTitles (templatesOf category) material).
Proof.
  unfold generateTitle. cbv zeta. intros H.
  repeat match type of H with
         | bind (arrayElement _) _ _ = _ =>
           let Hx := fresh "Hx" in
           apply bind_Return in H as (? & ? & Hx & H);
           apply arrayElement_In in Hx
         end.
  injection H as <- _.
  unfold possibleTitles, titlesBeforeLast.
  repeat (apply fillings_In; [| done || by left]). done.
Qed.

Lemma titleSpace_In category :
  In (templatesOf category, materialsOf category) titleSpaces.
Proof.
  unfold templatesOf, materialsOf, objGetOr, titleSpaces.
  cbn [TITLE_TEMPLATES MATERIALS_BY_CATEGORY objGet map fst].
  repeat match goal with
         | |- context [String.eqb ?k category] =>
           destruct (String.eqb k category); [simpl; auto 20|]
         end.
  by left.
Qed.

Lemma allTitles_sound check :
  allTitles check = true ->
  forall category material title,
    In material (materialsOf category) ->
    In title (possibleTitles (templatesOf category) material) ->
    check title = true.
Proof.
  unfold allTitles. intros H category material title Hm Ht.
  rewrite forallb_forall in H.
  specialize (H _ (titleSpace_In category)). cbn [fst snd] in H.
  rewrite forallb_forall in H. specialize (H _ Hm).
  rewrite forallb_forall in H. by apply H.
Qed.

(** Every title of every category and material, evaluated. *)
Lemma all_titles_instantiated : allTitles instantiated = true.
Proof. vm_compute. reflexivity. Qed.

Lemma all_tv_stands_sized : allTitles tvStandSized = true.
Proof. vm_compute. reflexivity. Qed.

Lemma primary_material category count t materials t' :
  1 <= count ->
  arrayElements (materialsOf category) count t = Return (materials, t') ->
  In (List.hd "undefined"%string materials) (materialsOf category).
Proof.
  intros Hcount H.
  apply pickDistinct_spec in H as (_ & Hin & Hlen); [| apply materials_NoDup].
  pose proof (materials_nonempty category) as Hne.
  destruct materials as [|m ms].
  - destruct (materialsOf category); [done|]. simpl in Hlen. lia.
  - apply Hin. by left.
Qed.

Lemma listing_title diskOk imgs t out t' l :
  generateAllListings diskOk (ImageArray imgs) t = Return (out, t') ->
  In l (out_listings out) ->
  exists material,
    In material (materialsOf (lst_category l))
    /\ In (lst_title l) (possibleTitles (templatesOf (lst_category l)) material).
Proof.
  intros H Hl. destruct (listing_parts _ _ _ _ _ _ H Hl) as (w & t1 & t2 & Hgen).
  apply generateListing_parts in Hgen
    as (first & rest & _ & Hcat & (count & Hcount & tm & tm' & Hm)
        & (tt & tt' & Htitle) & _).
  rewrite Hcat. eexists. split.
  - eapply primary_material; [| exact Hm]. lia.
  - by eapply generateTitle_possible.
Qed.

(** No placeholder is left in the title of a listing: it holds neither
    an opening nor a closing brace. *)
Theorem titles_instantiated diskOk imgs t out t' l :
  generateAllListings diskOk (ImageArray imgs) t = Return (out, t') ->
  In l (out_listings out) ->
  occurs "{" (lst_title l) = false /\ occurs "}" (lst_title l) = false.
Proof.
  intros H Hl.
  destruct (listing_title _ _ _ _ _ _ H Hl) as (material & Hm & Ht).
  pose proof (allTitles_sound _ all_titles_instantiated _ _ _ Hm Ht) as Hok.
  unfold instantiated in Hok. rewrite !andb_true_iff, !negb_true_iff in Hok.
  tauto.
Qed.

Lemma titles_instantiated_witness :
  exists out t' l,
    generateAllListings true (ImageArray [redSofa; blueSofa; oakDesk]) (constantTape 1)
      = Return (out, t')
    /\ In l (out_listings out)
    /\ occurs "{" (lst_title l) = false /\ occurs "}" (lst_title l) = false.
Proof.
  run_generator E.
  eexists _, _, _. split; [reflexivity|]. split; [left; reflexivity|].
  eapply (titles_instantiated _ _ _ _ _ _ E). left. reflexivity.
Defined.

(** The screen sizes of the last [replace] of [generateTitle] are never
    used: the [{size}] of the TV stand template is filled by the earlier
    [replace] of [{size}], with a bed size.  Every title of a TV stand
    reads: adjective, "TV Stand for", Queen, King, Twin or Full, and the
    inch sign followed by "TVs". *)
Theorem tv_stand_sized_like_a_bed category material t title t' :
  In material (materialsOf category) ->
  generateTitle category material t = Return (title, t') ->
  occurs "TV Stand" title = true ->
  exists adj size,
    In adj ADJECTIVES
    /\ In size ["Queen"; "King"; "Twin"; "Full"]%string
    /\ title = (adj ++ " TV Stand for " ++ size ++ dquote ++ " TVs")%string.
Proof.
  intros Hm Hgen Htv. apply generateTitle_possible in Hgen.
  pose proof (allTitles_sound _ all_tv_stands_sized _ _ _ Hm Hgen) as Hok.
  unfold tvStandSized in Hok. rewrite Htv in Hok.
  apply existsb_exists in Hok as (title' & Hin & Heq).
  apply String.eqb_eq in Heq. subst title'.
  unfold tvStandTitles in Hin. apply in_flat_map in Hin as (adj & Hadj & Hin).
  apply in_map_iff in Hin as (size & <- & Hsize).
  exists adj, size. split; [exact Hadj|]. split; [exact Hsize | reflexivity].
Qed.

Lemma tv_stand_sized_like_a_bed_witness :
  exists title t' adj size,
    generateTitle "entertainment" "wood" (constantTape 0) = Return (title, t')
    /\ In adj ADJECTIVES
    /\ In size ["Queen"; "King"; "Twin"; "Full"]%string
    /\ title = (adj ++ " TV Stand for " ++ size ++ dquote ++ " TVs")%string.
Proof.
  destruct (generateTitle "entertainment" "wood" (constantTape 0))
    as [[title t']| |] eqn:E;
    [| vm_compute in E; discriminate E | vm_compute in E; discriminate E].
  pose proof E as E'. vm_compute in E'. injection E' as <- <-.
  destruct (tv_stand_sized_like_a_bed "entertainment" "wood" _ _ _
              ltac:(vm_compute; auto) E ltac:(vm_compute; reflexivity))
    as (adj & size & H).
  by eexists _, _, adj, size.
Defined.

(** ** Slugs *)

Lemma slugChar_not_dash c : isSlugChar c = true -> Ascii.eqb "-" c = false.
Proof.
  intros H. destruct (Ascii.eqb_spec "-" c) as [<- | Hne]; [| done].
  discriminate H.
Qed.

Lemma dashRuns_spec s : forall inRun,
  allChars (fun c => isSlugChar c || isDash c) (dashRuns inRun s) = true
  /\ occurs "--" (dashRuns inRun s) = false
  /\ (inRun = true -> isPrefix "-" (dashRuns inRun s) = false).
Proof.
  induction s as [|c s IH]; intros inRun; [by destruct inRun|].
  cbn [dashRuns]. destruct (isSlugChar c) eqn:Hc.
  - destruct (IH false) as (Hall & Hocc & _).
    cbn [allChars occurs isPrefix]. rewrite Hc, Hall, Hocc.
    rewrite (slugChar_not_dash c Hc). by repeat split.
  - destruct (IH true) as (Hall & Hocc & Hpre).
    specialize (Hpre eq_refl). destruct inRun; [done|].
    cbn [allChars occurs isPrefix] in *. rewrite Hall, Hocc.
    change (Ascii.eqb "-" "-") with true. cbn [andb orb].
    rewrite Hpre. by repeat split.
Qed.

Lemma dropLastDash_cons c s :
  dropLastDash (String c s) =
    match s with
    | EmptyString => if Ascii.eqb c "-" then EmptyString else String c EmptyString
    | _ => String c (dropLastDash s)
    end.
Proof. by destruct s. Qed.

Lemma lastChar_cons c s :
  lastChar (String c s) =
    match s with
    | EmptyString => Some c
    | _ => lastChar s
    end.
Proof. by destruct s. Qed.

Lemma dropLastDash_empty s :
  dropLastDash s = EmptyString -> s = EmptyString \/ s = "-"%string.
Proof.
  destruct s as [|c [|d s]]; simpl; [by left | | done].
  destruct (Ascii.eqb_spec c "-") as [-> | _]; [by right | done].
Qed.

Lemma dropLastDash_prefix s :
  isPrefix "-" s = false -> isPrefix "-" (dropLastDash s) = false.
Proof.
  destruct s as [|c s]; [done|]. rewrite dropLastDash_cons.
  cbn [isPrefix]. rewrite andb_true_r. intros Hc.
  destruct s; [| cbn [isPrefix]; by rewrite Hc].
  rewrite Ascii.eqb_sym, Hc. cbn [isPrefix]. by rewrite Hc.
Qed.

Lemma dropLastDash_allChars p s :
  allChars p s = true -> allChars p (dropLastDash s) = true.
Proof.
  induction s as [|c s IH]; [done|]. rewrite dropLastDash_cons.
  cbn [allChars]. intros H. apply andb_true_iff in H as [Hc Hs].
  destruct s as [|d s]; [destruct (Ascii.eqb c "-"); simpl; by rewrite ?Hc|].
  cbn [allChars]. by rewrite Hc, IH.
Qed.

Lemma dropLastDash_occurs s :
  occurs "--" s = false -> occurs "--" (dropLastDash s) = false.
Proof.
  induction s as [|c s IH]; [done|]. rewrite dropLastDash_cons.
  cbn [occurs isPrefix]. intros H. apply orb_false_iff in H as [Hpre Hocc].
  destruct s as [|d s];
    [destruct (Ascii.eqb c "-"); simpl; by rewrite ?andb_false_r|].
  cbn [occurs isPrefix]. rewrite IH by done. rewrite orb_false_r.
  destruct (Ascii.eqb "-" c); [| done]. cbn [andb] in *.
  by apply dropLastDash_prefix.
Qed.

Lemma dropLastDash_last s :
  occurs "--" s = false -> lastChar (dropLastDash s) <> Some "-"%char.
Proof.
  induction s as [|c s IH]; [done|]. rewrite dropLastDash_cons.
  cbn [occurs isPrefix]. intros H. apply orb_false_iff in H as [Hpre Hocc].
  destruct s as [|d s].
  - destruct (Ascii.eqb_spec c "-") as [-> | Hne]; [done|].
    simpl. congruence.
  - rewrite lastChar_cons.
    destruct (dropLastDash (String d s)) as [|e x] eqn:Hx; [| by apply IH].
    apply dropLastDash_empty in Hx as [Hx | Hx]; [done|].
    injection Hx as -> ->. cbn [isPrefix] in Hpre.
    change (Ascii.eqb "-" "-") with true in Hpre.
    rewrite !andb_true_r in Hpre. intros [= ->]. done.
Qed.

(** Whatever the title, the part of the slug made from it is well formed. *)
Lemma slugBody_wellFormed title : wellFormedBody (slugBody title).
Proof.
  unfold slugBody, trimDashes.
  destruct (dashRuns_spec (toLowerCase title) false) as (Hall & Hocc & _).
  set (r := dashRuns false (toLowerCase title)) in *.
  assert (Hstrip :
    let r1 := match r with
              | String c s' => if Ascii.eqb c "-" then s' else r
              | EmptyString => EmptyString
              end in
    allChars (fun c => isSlugChar c || isDash c) r1 = true
    /\ occurs "--" r1 = false /\ isPrefix "-" r1 = false).
  { destruct r as [|c s']; [done|]. cbn zeta.
    cbn [allChars occurs isPrefix] in Hall, Hocc.
    apply andb_true_iff in Hall as [Hc Hs].
    apply orb_false_iff in Hocc as [Hpre Hocc'].
    destruct (Ascii.eqb_spec c "-") as [-> | Hne].
    - change (Ascii.eqb "-" "-") with true in Hpre. by simpl in Hpre.
    - cbn [allChars occurs isPrefix]. rewrite Hc, Hs, Hocc'.
      assert (Ascii.eqb "-" c = false) as Hcd.
      { rewrite Ascii.eqb_sym. by apply Ascii.eqb_neq. }
      rewrite Hcd. by repeat split. }
  cbn zeta in Hstrip. destruct Hstrip as (Hall1 & Hocc1 & Hpre1).
  split; [by apply dropLastDash_allChars|].
  split; [by apply dropLastDash_occurs|].
  split; [by apply dropLastDash_prefix | by apply dropLastDash_last].
Qed.

(** A slug is the title in lower case, with every run of other characters
    than letters and digits replaced by one dash and no dash at either
    end, then a dash and six characters that are letters (of either case)
    or digits.  The part made from the title is never empty. *)
Theorem slug_shape diskOk imgs t out t' l :
  generateAllListings diskOk (ImageArray imgs) t = Return (out, t') ->
  In l (out_listings out) ->
  exists suffix,
    lst_slug l = (slugBody (lst_title l) ++ "-" ++ suffix)%string
    /\ String.length suffix = 6%nat
    /\ allChars isAlphanumeric suffix = true
    /\ wellFormedBody (slugBody (lst_title l))
    /\ slugBody (lst_title l) <> EmptyString.
Proof.
  intros H Hl.
  destruct (listing_title _ _ _ _ _ _ H Hl) as (material & Hm & Ht).
  pose proof (allTitles_sound _ all_titles_instantiated _ _ _ Hm Ht) as Hok.
  unfold instantiated in Hok. rewrite !andb_true_iff, !negb_true_iff in Hok.
  destruct Hok as [_ Hbody]. apply String.eqb_neq in Hbody.
  destruct (listing_parts _ _ _ _ _ _ H Hl) as (w & t1 & t2 & Hgen).
  apply generateListing_parts in Hgen
    as (first & rest & _ & _ & _ & _ & (suffix & (ts & ts' & Hs) & Hslug) & _).
  apply alphanumeric_spec in Hs as [Hlen Hchars].
  exists suffix. split; [exact Hslug|]. split; [exact Hlen|].
  split; [exact Hchars|]. split; [apply slugBody_wellFormed | exact Hbody].
Qed.

Lemma slug_shape_witness :
  exists out t' l suffix,
    generateAllListings true (ImageArray [redSofa; blueSofa; oakDesk]) (constantTape 1)
      = Return (out, t')
    /\ In l (out_listings out)
    /\ lst_slug l = (slugBody (lst_title l) ++ "-" ++ suffix)%string
    /\ String.length suffix = 6%nat
    /\ allChars isAlphanumeric suffix = true
    /\ wellFormedBody (slugBody (lst_title l))
    /\ slugBody (lst_title l) <> EmptyString.
Proof.
  run_generator E.
  destruct (slug_shape _ _ _ _ _ _ E ltac:(left; reflexivity)) as (suffix & Hs).
  eexists _, _, _, suffix. split; [reflexivity|]. split; [left; reflexivity|].
  exact Hs.
Defined.

(** ** Descriptions *)

Lemma isPrefix_refl p : isPrefix p p = true.
Proof. induction p as [|c p IH]; simpl; [done|]. by rewrite Ascii.eqb_refl. Qed.

Lemma isPrefix_app_l p : forall a b,
  isPrefix p a = true -> isPrefix p (a ++ b) = true.
Proof.
  induction p as [|x p IH]; intros a b; [done|].
  destruct a as [|y a]; [discriminate|]. simpl.
  intros H. apply andb_true_iff in H as [Hxy Hp]. by rewrite Hxy, IH.
Qed.

Lemma occurs_empty s : occurs "" s = true.
Proof. by destruct s. Qed.

Lemma occurs_app_l p a b : occurs p a = true -> occurs p (a ++ b) = true.
Proof.
  induction a as [|c a IH]; simpl.
  - rewrite orb_false_r. destruct p; [intros _; apply occurs_empty | discriminate].
  - intros H. apply orb_true_iff in H as [H | H].
    + apply (isPrefix_app_l p (String c a) b) in H.
      change (isPrefix p (String c (a ++ b)) = true) in H. by rewrite H.
    + rewrite (IH H). apply orb_true_r.
Qed.

Lemma occurs_skip p a b : occurs p b = true -> occurs p (a ++ b) = true.
Proof.
  intros H. induction a as [|c a IH]; simpl; [done|].
  rewrite IH. apply orb_true_r.
Qed.

Lemma occurs_whole p : occurs p p = true.
Proof. destruct p; simpl; [done|]. by rewrite Ascii.eqb_refl, isPrefix_refl. Qed.

Lemma occurs_inside p a b : occurs p (a ++ p ++ b) = true.
Proof. apply occurs_skip, occurs_app_l, occurs_whole. Qed.

(** What every description holds, whatever is drawn. *)
Lemma generateDescription_spec title material condition city t d t' :
  generateDescription title material condition city t = Return (d, t') ->
  occurs (toLowerCase title) d = true
  /\ occurs city d = true
  /\ occurs "Meet the producer option available for local pickup." d = true.
Proof.
  unfold generateDescription. cbv zeta. intros H.
  apply bind_Return in H as (intro & t1 & Hintro & H).
  apply bind_Return in H as (count & t2 & _ & H).
  apply bind_Return in H as (chosen & t3 & _ & H).
  apply bind_Return in H as (deliv & t4 & Hdeliv & H).
  injection H as <- _.
  apply arrayElement_In in Hintro, Hdeliv.
  assert (Hi : occurs (toLowerCase title) intro = true)
    by (destruct Hintro as [<- | [<- | [<- | [<- | []]]]]; apply occurs_inside).
  assert (Hd : occurs city deliv = true)
    by (destruct Hdeliv as [<- | [<- | [<- | []]]]; apply occurs_inside).
  split; [by apply occurs_app_l|]. split.
  - do 4 apply occurs_skip. by apply occurs_app_l.
  - do 6 apply occurs_skip. apply occurs_whole.
Qed.

Lemma listing_description images t l t' :
  generateListing images t = Return (l, t') ->
  yields (generateDescription (lst_title l)
            (List.hd "undefined"%string (lst_materials l))
            (conditionName (lst_condition l)) (lst_city l))
         (lst_description l).
Proof.
  destruct images as [|first rest]; [discriminate|].
  unfold generateListing. cbv zeta. intros H.
  apply bind_Return in H as (condition & t1 & _ & H).
  apply bind_Return in H as (materialCount & t2 & _ & H).
  apply bind_Return in H as (materials & t3 & _ & H).
  apply bind_Return in H as (title & t4 & _ & H).
  apply bind_Return in H as (suffix & t5 & _ & H).
  apply bind_Return in H as (city & t6 & _ & H).
  apply bind_Return in H as (basePrice & t7 & _ & H).
  apply bind_Return in H as (description & t8 & Hdesc & H).
  apply bind_Return in H as (featured & t9 & _ & H).
  apply bind_Return in H as (id & t10 & _ & H).
  apply bind_Return in H as (dimensions & t11 & _ & H).
  apply bind_Return in H as (stock & t12 & _ & H).
  apply bind_Return in H as (createdAt & t13 & _ & H).
  injection H as <- _. simpl. by exists t7, t8.
Qed.

(** The description of a listing agrees with its fields: it holds the
    listing's title in lower case and the name of the listing's city, and
    the sentence on meeting the producer. *)
Theorem description_names_title_and_city diskOk imgs t out t' l :
  generateAllListings diskOk (ImageArray imgs) t = Return (out, t') ->
  In l (out_listings out) ->
  occurs (toLowerCase (lst_title l)) (lst_description l) = true
  /\ occurs (lst_city l) (lst_description l) = true
  /\ occurs "Meet the producer option available for local pickup."
            (lst_description l) = true.
Proof.
  intros H Hl. destruct (listing_parts _ _ _ _ _ _ H Hl) as (w & t1 & t2 & Hgen).
  apply listing_description in Hgen as (td & td' & Hdesc).
  by eapply generateDescription_spec.
Qed.

Lemma description_names_title_and_city_witness :
  exists out t' l,
    generateAllListings true (ImageArray [redSofa; blueSofa; oakDesk]) (constantTape 1)
      = Return (out, t')
    /\ In l (out_listings out)
    /\ occurs (toLowerCase (lst_title l)) (lst_description l) = true
    /\ occurs (lst_city l) (lst_description l) = true
    /\ occurs "Meet the producer option available for local pickup."
              (lst_description l) = true.
Proof.
  run_generator E.
  eexists _, _, _. split; [reflexivity|]. split; [left; reflexivity|].
  eapply (description_names_title_and_city _ _ _ _ _ _ E). left. reflexivity.
Defined.

End GenerateListingsProps.

(** * Properties of the category breakdown *)
Module CategoryBreakdownProps.
Import FetchImages CategoryBreakdown FetchImagesSpec.
Import GenerateListings(JsObject, objGet, objSet, inherited).











End CategoryBreakdownProps.

(** * Properties of the two scripts run one after the other *)
Module PipelineProps.
Import FetchImages FetchImagesSpec PipelineSpec.
Import GenerateListings(inherited, main, Exited, out_listings, lst_category,
                        lst_images, ImageArray, generateAllListings, Return).
Import GenerateListingsSpec(constantTape, windowOf).

Lemma fetched_category_plain k :
  In k (map category FURNITURE_CATEGORIES) -> inherited k = false.
Proof.
  simpl. intros H.
  repeat (destruct H as [<- | H]; [reflexivity|]). destruct H.
Qed.

Lemma uniqueImages_incl imgs img :
  In img (uniqueImages imgs) -> In img imgs.
Proof.
  intros H. apply FetchImagesProps.uniqueImages_In in H as (l1 & l2 & -> & _).
  apply in_app_iff. right. by left.
Qed.

(** A run of the fetcher that starts without a checkpoint leaves a catalog
    the listing generator accepts: the generator ends with status 0, every
    listing is filed under one of the ten categories, and each of its
    pictures is a picture the run stored, an Unsplash one as soon as the
    run kept any Unsplash record. *)
Theorem fresh_catalog_is_listed w targetTotal uk pk disk t :
  disk !! PROGRESS_FILE = None ->
  exists st' out,
    fetchAll w targetTotal (newFetcher uk pk disk) = Some (tt, st')
    /\ main (parsedCatalog (fs st' !! OUTPUT_FILE)) true t
       = Exited 0 (Some out)
    /\ forall l, In l (out_listings out) ->
         In (lst_category l) (map category FURNITURE_CATEGORIES)
         /\ forall url, In url (lst_images l) ->
              exists img,
                In img (uniqueImages (images (progress st')))
                /\ img_url img = url
                /\ ((exists u, In u (uniqueImages (images (progress st')))
                               /\ img_source u = unsplash)
                    -> img_source img = unsplash).
Proof.
  intros Hfresh. set (st := newFetcher uk pk disk).
  destruct (FetchImagesProps.fetchAll_run w targetTotal st)
    as (st1 & st' & c & _ & Hadv & Hall & Hprog & _ & _ & _ & Hout & _ & _
        & _ & Hcat).
  assert (Hres : resumed st = st).
  { unfold resumed. simpl. by rewrite Hfresh. }
  rewrite Hres in Hadv.
  destruct (adv_images _ _ _ _ _ Hadv) as (added & Himgs & _ & Hstored).
  simpl in Himgs. rewrite <- Hprog in Himgs, Hcat.
  set (unique := uniqueImages (images (progress st'))) in *.
  assert (Hfile : forall img, In img (cat_images c) ->
            In img unique
            /\ In (img_category img) (map category FURNITURE_CATEGORIES)
            /\ ((exists u, In u unique /\ img_source u = unsplash)
                -> img_source img = unsplash)).
  { intros img Hin. rewrite Hcat in Hin.
    assert (Hu : In img unique).
    { destruct (len (List.filter isUnsplash unique) >? 0); [| done].
      apply filter_In in Hin. tauto. }
    split; [done|]. split.
    - apply uniqueImages_incl in Hu. rewrite Himgs in Hu.
      rewrite List.Forall_forall in Hstored. by apply Hstored.
    - intros (u & Hu' & Hsrc).
      assert (Hlen : (len (List.filter isUnsplash unique) >? 0) = true).
      { assert (Hf : In u (List.filter isUnsplash unique)).
        { apply filter_In. split; [done|]. unfold isUnsplash. by rewrite Hsrc. }
        unfold len. destruct (List.filter isUnsplash unique); [done|].
        simpl length. apply Z.gtb_lt. lia. }
      rewrite Hlen in Hin. apply filter_In in Hin as [_ Hs].
      unfold isUnsplash in Hs. by destruct (img_source img). }
  destruct (GenerateListingsProps.generateAllListings_outcome true
              (map asImageData (cat_images c)) t)
    as [[_ (out & t' & Hgen)] | [Hbad _]].
  - exists st', out. split; [exact Hall|].
    rewrite Hout. cbn [parsedCatalog].
    rewrite GenerateListingsProps.main_array, Hgen. split; [done|].
    intros l Hl.
    destruct (GenerateListingsProps.listing_window _ _ _ _ _ _ Hgen Hl)
      as (win & (t1 & t2 & Hmade) & _ & Hwin).
    apply GenerateListingsProps.generateListing_spec in Hmade
      as (first & rest & _ & -> & Hurls & Hk & _).
    split.
    + destruct (Hwin first) as [Hin _]; [by left|].
      apply in_map_iff in Hin as (m & <- & Hm). rewrite Hk.
      by apply Hfile.
    + intros url Hurl. rewrite Hurls in Hurl.
      apply in_map_iff in Hurl as (d & <- & Hd).
      destruct (Hwin d Hd) as [Hin _].
      apply in_map_iff in Hin as (m & <- & Hm).
      exists m. destruct (Hfile m Hm) as (Hu & _ & Hs). by repeat split.
  - exfalso. apply Exists_exists in Hbad as (d & Hin & Hi).
    apply list_elem_of_In, in_map_iff in Hin as (m & <- & Hm).
    destruct (Hfile m Hm) as (_ & Hk & _).
    apply fetched_category_plain in Hk. simpl in Hi. congruence.
Qed.

(** On an empty disk, with the Unsplash key only and a first answer of
    30 photos. *)
Lemma fresh_catalog_is_listed_witness :
  (∅ : gmap string File) !! PROGRESS_FILE = None
  /\ exists st' out,
       fetchAll thirtyThenNothing 1 (newFetcher "unsplash-key" "" ∅)
         = Some (tt, st')
       /\ main (parsedCatalog (fs st' !! OUTPUT_FILE)) true (constantTape 0)
          = Exited 0 (Some out)
       /\ forall l, In l (out_listings out) ->
            In (lst_category l) (map category FURNITURE_CATEGORIES)
            /\ forall url, In url (lst_images l) ->
                 exists img,
                   In img (uniqueImages (images (progress st')))
                   /\ img_url img = url
                   /\ ((exists u, In u (uniqueImages (images (progress st')))
                                  /\ img_source u = unsplash)
                       -> img_source img = unsplash).
Proof.
  split; [reflexivity|].
  exact (fresh_catalog_is_listed thirtyThenNothing 1 "unsplash-key" "" ∅
           (constantTape 0) eq_refl).
Defined.

End PipelineProps.
